(** * Ripple Effect solvers: puzzle state, brute-force search, heuristic search

    Shallow embedding of [Ripple.py] (class [Puzzle]),
    [BruteForce_Solver.py] and [Intelligent_Solver_Heuristic.py].

    Python objects are mutated in place; here every method takes the
    puzzle state and returns the new one.  An exception aborts the
    computation ([Raise]); recursion is bounded by a fuel argument
    ([OutOfFuel] is never a Python outcome, and the theorems below show
    that enough fuel always avoids it). *)

From stdpp Require Import gmap list sorting strings.
From Stdlib Require Import ZArith Lia.

Set Default Proof Using "Type".
Local Open Scope Z_scope.

(** ** Outcomes of a Python computation *)

Inductive exn : Type := IndexError | KeyError | TypeError | ZeroDivisionError.

Inductive res (A : Type) : Type :=
| Ret (a : A)
| Raise (e : exn)
| OutOfFuel.
Arguments Ret {A} a.
Arguments Raise {A} e.
Arguments OutOfFuel {A}.

Definition res_bind {A B : Type} (m : res A) (f : A → res B) : res B :=
  match m with
  | Ret a => f a
  | Raise e => Raise e
  | OutOfFuel => OutOfFuel
  end.

Notation "x ←! m ; k" := (res_bind m (λ x, k))
  (at level 20, m at level 100, k at level 200, right associativity,
   format "x  ←!  m ;  '/' k").
Notation "' x ←! m ; k" := (res_bind m (λ x, k))
  (at level 20, x pattern, m at level 100, k at level 200,
   right associativity, format "' x  ←!  m ;  '/' k").

(** [l[i]] for a non-negative index. *)
Definition index {A : Type} (l : list A) (i : nat) : res A :=
  match l !! i with
  | Some x => Ret x
  | None => Raise IndexError
  end.

(** [d[k]] on a dictionary. *)
Definition subscript `{Countable K} {V : Type} (d : gmap K V) (k : K) : res V :=
  match d !! k with
  | Some v => Ret v
  | None => Raise KeyError
  end.

(** ** Ripple.py: class Puzzle *)

(** A grid cell holds the string ["."] or an [int]. *)
Inductive cell : Type :=
| Empty
| Num (n : Z).

Global Instance cell_eq_dec : EqDecision cell.
Proof. solve_decision. Defined.

Abbreviation square := (nat * nat)%type (only parsing).
Abbreviation region := (list (nat * nat)) (only parsing).
Abbreviation grid := (list (list cell)) (only parsing).

(** The fields of a [Puzzle] object ([puzzle_str] only serves printing). *)
Record Puzzle : Type := mkPuzzle {
  width : nat;
  height : nat;
  puzzle : grid;
  regions : list region;
  region_map : gmap square region;
  solved : bool;
  empty_slots_left : Z
}.

Definition is_dot (c : cell) : bool :=
  match c with Empty => true | Num _ => false end.

(** The counting loop of [__init__]. *)
Definition count_row (row : list cell) : Z :=
  foldl (λ acc elem, if is_dot elem then acc + 1 else acc) 0 row.

Definition count_empty (g : grid) : Z :=
  foldl (λ acc row, acc + count_row row) 0 g.

Definition init (w h : nat) (g : grid) (rs : list region)
    (rm : gmap square region) : Puzzle :=
  {| width := w; height := h; puzzle := g; regions := rs; region_map := rm;
     solved := false; empty_slots_left := count_empty g |}.

Definition get_region (p : Puzzle) (sq : square) : option region :=
  region_map p !! sq.

Definition get (p : Puzzle) (sq : square) : res cell :=
  r ←! index (puzzle p) sq.1; index r sq.2.

(** [self.puzzle[row][col] = v] *)
Definition store (g : grid) (row col : nat) (v : cell) : res grid :=
  r ←! index g row;
  _ ←! index r col;
  Ret (<[row := <[col := v]> r]> g).

Definition with_grid (p : Puzzle) (g : grid) : Puzzle :=
  {| width := width p; height := height p; puzzle := g;
     regions := regions p; region_map := region_map p;
     solved := solved p; empty_slots_left := empty_slots_left p |}.

Definition with_slots (p : Puzzle) (n : Z) : Puzzle :=
  {| width := width p; height := height p; puzzle := puzzle p;
     regions := regions p; region_map := region_map p;
     solved := solved p; empty_slots_left := n |}.

Definition with_solved (p : Puzzle) (b : bool) : Puzzle :=
  {| width := width p; height := height p; puzzle := puzzle p;
     regions := regions p; region_map := region_map p;
     solved := b; empty_slots_left := empty_slots_left p |}.

(** One line scan of [is_valid].  [elems] are the reads of the line in
    index order (a read may raise), [pos] the index of the next one,
    [prev] the dictionary from a value to the indices where it was seen. *)
Fixpoint scan_line (elems : list (res cell)) (pos : nat)
    (prev : gmap Z (list nat)) : res bool :=
  match elems with
  | [] => Ret true
  | rd :: rest =>
      elem ←! rd;
      match elem with
      | Num n =>
          match prev !! n with
          | None => scan_line rest (S pos) (<[n := [pos]]> prev)
          | Some idxs =>
              if existsb (λ idx, Z.of_nat pos - Z.of_nat idx <=? n) idxs
              then Ret false
              else scan_line rest (S pos) (<[n := idxs ++ [pos]]> prev)
          end
      | Empty => scan_line rest (S pos) prev
      end
  end.

(** The loop of [is_region_valid] over the squares of a region. *)
Fixpoint region_scan (p : Puzzle) (rg : region) (seen : gset Z) : res bool :=
  match rg with
  | [] => Ret true
  | sq :: rest =>
      number ←! get p sq;
      match number with
      | Num n =>
          if decide (n ∈ seen) then Ret false
          else region_scan p rest ({[n]} ∪ seen)
      | Empty => region_scan p rest seen
      end
  end.

Definition is_region_valid (p : Puzzle) (rg : option region) : res bool :=
  match rg with
  | None => Ret false
  | Some r => region_scan p r ∅
  end.

Definition is_valid (p : Puzzle) (row col : nat) (check_region : bool)
    : res bool :=
  r ←! index (puzzle p) row;
  row_ok ←! scan_line (Ret <$> r) 0 ∅;
  if negb row_ok then Ret false else
  col_ok ←! scan_line ((λ r', index r' col) <$> puzzle p) 0 ∅;
  if negb col_ok then Ret false else
  if negb check_region then Ret true else
  is_region_valid p (get_region p (row, col)).

Definition test (p : Puzzle) (row col : nat) (num : Z) : res (bool * Puzzle) :=
  temp ←! get p (row, col);
  g1 ←! store (puzzle p) row col (Num num);
  let p1 := with_grid p g1 in
  ok ←! is_valid p1 row col true;
  if ok then Ret (true, with_slots p1 (empty_slots_left p1 - 1))
  else
    g2 ←! store (puzzle p1) row col temp;
    Ret (false, with_grid p1 g2).

Definition backtrack (p : Puzzle) (row col : nat) : res Puzzle :=
  g1 ←! store (puzzle p) row col Empty;
  let p1 := with_grid p g1 in
  Ret (with_slots p1 (empty_slots_left p1 + 1)).

(** The three loops of [is_solved]; each yields [true] when the loop runs
    to its end and [false] when it returns early. *)
Fixpoint all_filled_row (p : Puzzle) (row : nat) (cols : list nat) : res bool :=
  match cols with
  | [] => Ret true
  | col :: rest =>
      c ←! get p (row, col);
      if is_dot c then Ret false else all_filled_row p row rest
  end.

Fixpoint all_filled (p : Puzzle) (rows : list nat) : res bool :=
  match rows with
  | [] => Ret true
  | row :: rest =>
      ok ←! all_filled_row p row (seq 0 (width p));
      if ok then all_filled p rest else Ret false
  end.

Definition py_mod (a b : nat) : res nat :=
  match b with
  | O => Raise ZeroDivisionError
  | S _ => Ret (a mod b)%nat
  end.

Fixpoint lines_valid (p : Puzzle) (rows : list nat) (col : nat) : res bool :=
  match rows with
  | [] => Ret true
  | row :: rest =>
      col' ←! py_mod col (width p);
      ok ←! is_valid p row col' false;
      if negb ok then Ret false else lines_valid p rest (S col')
  end.

Fixpoint regions_valid (p : Puzzle) (rs : list region) : res bool :=
  match rs with
  | [] => Ret true
  | rg :: rest =>
      ok ←! is_region_valid p (Some rg);
      if negb ok then Ret false else regions_valid p rest
  end.

Definition is_solved (p : Puzzle) : res (bool * Puzzle) :=
  if solved p then Ret (true, p)
  else if 0 <? empty_slots_left p then Ret (false, p)
  else
    filled ←! all_filled p (seq 0 (height p));
    if negb filled then Ret (false, p) else
    lines ←! lines_valid p (seq 0 (height p)) 0;
    if negb lines then Ret (false, p) else
    regs ←! regions_valid p (regions p);
    if negb regs then Ret (false, p) else
    Ret (true, with_solved p true).

(** ** Solver entry points: what [solve] hands back *)

(** [solve] returns [result] or the pair [(result, calls[0])]; [result]
    is the puzzle object or [None]. *)
Inductive solve_result : Type :=
| Plain (result : option Puzzle)
| Counted (result : option Puzzle) (calls : nat).

Definition result_of (r : solve_result) : option Puzzle :=
  match r with Plain x => x | Counted x _ => x end.

(** The condition of [if not result.is_solved:] reads the attribute
    [is_solved] without calling it.  The attribute is a bound method
    object, and Python's truth value of a method object is [True]. *)
Inductive pyobject : Type :=
| BoundMethod (self : Puzzle).

Definition truth (o : pyobject) : bool :=
  match o with BoundMethod _ => true end.

Definition attr_is_solved (p : Puzzle) : pyobject := BoundMethod p.

Definition finish (p : Puzzle) (calls : nat) (count_calls : bool) : solve_result :=
  let result := if negb (truth (attr_is_solved p)) then None else Some p in
  if count_calls then Counted result calls else Plain result.

(** ** BruteForce_Solver.py *)

Module BruteForce.

(** The [while num < max_num] loop of [solve_rec]; [iters] is
    [max_num - num], [rec] the recursive call on the next cell. *)
Fixpoint place_loop (rec : Puzzle → nat → res (Puzzle * nat))
    (row col : nat) (iters : nat) (num : Z) (p : Puzzle) (calls : nat)
    : res (Puzzle * nat) :=
  match iters with
  | O =>
      p' ←! backtrack p row col;
      Ret (p', calls)
  | S iters' =>
      let num := num + 1 in
      '(ok, p1) ←! test p row col num;
      '(p2, calls2) ←! (if ok then rec p1 calls else Ret (p1, calls));
      '(s, p3) ←! is_solved p2;
      if s then Ret (p3, calls2)
      else place_loop rec row col iters' num p3 calls2
  end.

Fixpoint solve_rec (fuel : nat) (p : Puzzle) (row col : nat) (calls : nat)
    : res (Puzzle * nat) :=
  match fuel with
  | O => OutOfFuel
  | S fuel' =>
      let calls := S calls in
      '(s, p) ←! is_solved p;
      if s then Ret (p, calls) else
      let '(row, col) :=
        if decide (width p ≤ col)%nat then (S row, 0%nat) else (row, col) in
      '(s, p) ←! (if decide (height p ≤ row)%nat then is_solved p
                   else Ret (false, p));
      if s then Ret (p, calls) else
      r ←! index (puzzle p) row;
      c ←! index r col;
      if negb (is_dot c) then solve_rec fuel' p row (S col) calls
      else
        rg ←! match get_region p (row, col) with
               | Some rg => Ret rg
               | None => Raise TypeError
               end;
        place_loop (λ p1 calls1, solve_rec fuel' p1 row (S col) calls1)
                   row col (length rg) 0 p calls
  end.

Definition solve (fuel : nat) (p : Puzzle) (count_calls : bool)
    : res solve_result :=
  '(result, calls) ←! solve_rec fuel p 0 0 0;
  Ret (finish result calls count_calls).

End BruteForce.

(** ** Intelligent_Solver_Heuristic.py *)

Module Heuristic.

(** A value of [remaining_dict]: a set of candidates or the clue. *)
Inductive rem_val : Type :=
| RSet (s : gset Z)
| RInt (n : Z).

(** Dictionaries whose iteration order is used: insertion-ordered
    association lists, an update keeping the key's position. *)
Fixpoint dict_set {K V : Type} `{EqDecision K} (d : list (K * V)) (k : K) (v : V)
    : list (K * V) :=
  match d with
  | [] => [(k, v)]
  | (k', v') :: d' =>
      if decide (k = k') then (k, v) :: d' else (k', v') :: dict_set d' k v
  end.

Fixpoint dict_get {K V : Type} `{EqDecision K} (d : list (K * V)) (k : K)
    : option V :=
  match d with
  | [] => None
  | (k', v') :: d' => if decide (k = k') then Some v' else dict_get d' k
  end.

(** A [for] loop without early exit, threading the loop's state. *)
Fixpoint for_each {A S : Type} (l : list A) (body : A → S → res S) (s : S)
    : res S :=
  match l with
  | [] => Ret s
  | x :: l' => s' ←! body x s; for_each l' body s'
  end.

Abbreviation entry := ((nat * nat) * gset Z)%type (only parsing).
Abbreviation rdict := (list ((nat * nat) * rem_val)) (only parsing).

(** "fill the rows dictionary and cols dictionary": both are written and
    never read again; the loop still reads every cell. *)
Definition fill_rows_cols (p : Puzzle)
    : res (gmap nat (gset Z) * gmap nat (gset Z)) :=
  let cols0 : gmap nat (gset Z) :=
    foldl (λ cols col, <[col := ∅]> cols) ∅ (seq 0 (width p)) in
  for_each (seq 0 (height p)) (λ row '(rows, cols),
    for_each (seq 0 (width p)) (λ col '(rows, cols),
      num ←! get p (row, col);
      match num with
      | Num n =>
          rs ←! subscript rows row;
          cs ←! subscript cols col;
          Ret (<[row := {[n]} ∪ rs]> rows, <[col := {[n]} ∪ cs]> cols)
      | Empty => Ret (rows, cols)
      end) (<[row := ∅]> rows, cols)) (∅, cols0).

(** "get the numbers in each region" *)
Definition region_numbers (p : Puzzle) (rg : region) : res (gset Z) :=
  for_each rg (λ sq s,
    num ←! get p sq;
    Ret (match num with Num n => {[n]} ∪ s | Empty => s end)) ∅.

Definition regions_dict (p : Puzzle) : res (list (region * gset Z)) :=
  for_each (regions p) (λ rg d,
    s ←! region_numbers p rg;
    Ret (dict_set d rg s)) [].

(** [set(range(1, n + 1))] *)
Definition range_set (n : nat) : gset Z :=
  list_to_set (Z.of_nat <$> seq 1 n).

(** [possible.remove(num)] for every used number. *)
Definition remove_used (possible used : gset Z) : res (gset Z) :=
  for_each (elements used) (λ num poss,
    if decide (num ∈ poss) then Ret (poss ∖ {[num]}) else Raise KeyError)
    possible.

(** "get the range of possible values for each square" *)
Definition seed_region (p : Puzzle) (rg : region) (used : gset Z) (d : rdict)
    : res rdict :=
  possible ←! remove_used (range_set (length rg)) used;
  for_each rg (λ sq d,
    c ←! get p sq;
    match c with
    | Empty => Ret (dict_set d sq (RSet possible))
    | Num n => Ret (dict_set d sq (RInt n))
    end) d.

Definition seed (p : Puzzle) (rd : list (region * gset Z)) : res rdict :=
  for_each rd (λ '(rg, used) d, seed_region p rg used d) [].

(** "reduce remaining possible values": one square of the clue's row or
    column, at distance [dist] from the clue [num]. *)
Definition reduce_square (num dist : Z) (sq : square) (d : rdict) : res rdict :=
  match dict_get d sq with
  | None => Raise KeyError
  | Some (RInt _) => Ret d
  | Some (RSet s) =>
      if dist <=? num then Ret (dict_set d sq (RSet (s ∖ {[num]})))
      else Ret d
  end.

Definition reduce_clue (p : Puzzle) (row col : nat) (num : Z) (d : rdict)
    : res rdict :=
  d1 ←! for_each ((λ x, (row, x)) <$> seq 0 (width p)) (λ sq d,
          reduce_square num (Z.abs (Z.of_nat sq.2 - Z.of_nat col)) sq d) d;
  for_each ((λ x, (x, col)) <$> seq 0 (height p)) (λ sq d,
    reduce_square num (Z.abs (Z.of_nat sq.1 - Z.of_nat row)) sq d) d1.

Definition reduce (p : Puzzle) (d : rdict) : res rdict :=
  for_each (seq 0 (height p)) (λ row d,
    for_each (seq 0 (width p)) (λ col d,
      r ←! index (puzzle p) row;
      num ←! index r col;
      match num with
      | Num n => reduce_clue p row col n d
      | Empty => Ret d
      end) d) d.

(** The sort key [(len(l[1]), l[0], l)], compared as Python compares
    tuples: the first differing component decides; lists [l] compare
    their squares and then their sets by strict inclusion. *)
Definition square_lt (a b : square) : bool :=
  (a.1 <? b.1)%nat || ((a.1 =? b.1)%nat && (a.2 <? b.2)%nat).

Definition entry_lt (a b : entry) : bool :=
  square_lt a.1 b.1 || (bool_decide (a.1 = b.1) && bool_decide (a.2 ⊂ b.2)).

Definition key_lt (a b : entry) : bool :=
  (size a.2 <? size b.2)%nat
  || ((size a.2 =? size b.2)%nat
      && (square_lt a.1 b.1 || (bool_decide (a.1 = b.1) && entry_lt a b))).

(** [sorted]: a stable sort. *)
Fixpoint insert_sorted (x : entry) (l : list entry) : list entry :=
  match l with
  | [] => [x]
  | y :: l' => if key_lt y x then y :: insert_sorted x l' else x :: l
  end.

Definition sorted (l : list entry) : list entry := foldr insert_sorted [] l.

(** "create array of squares to solve" *)
Definition to_solve (d : rdict) : list entry :=
  omap (λ '(sq, v), match v with RSet s => Some (sq, s) | RInt _ => None end) d.

Definition preprocess (p : Puzzle) : res rdict :=
  _ ←! fill_rows_cols p;
  rd ←! regions_dict p;
  d ←! seed p rd;
  reduce p d.

Definition initial_remaining (p : Puzzle) : res (list entry) :=
  d ←! preprocess p;
  Ret (sorted (to_solve d)).

Definition narrow (row col : nat) (value : Z) (region_squares : gset square)
    (elem : entry) : entry :=
  let temp := elem.2 in
  let temp :=
    if decide (elem.1.1 = row)
    then if Z.abs (Z.of_nat col - Z.of_nat elem.1.2) <=? value
         then temp ∖ {[value]} else temp
    else temp in
  let temp :=
    if decide (elem.1.2 = col)
    then if Z.abs (Z.of_nat row - Z.of_nat elem.1.1) <=? value
         then temp ∖ {[value]} else temp
    else temp in
  let temp :=
    if decide (elem.1 ∈ region_squares) then temp ∖ {[value]} else temp in
  (elem.1, temp).

Definition update_remaining (remaining : list entry) (row col : nat)
    (value : Z) (p : Puzzle) : res (list entry) :=
  region_squares ←! match get_region p (row, col) with
                     | Some rg => Ret (list_to_set rg : gset square)
                     | None => Raise TypeError
                     end;
  Ret (sorted (narrow row col value region_squares <$> remaining)).

Section Search.

(** The order in which [for num in current[1]] visits a set is fixed by
    the interpreter's hash table, not by the program. *)
Variable set_order : gset Z → list Z.

Fixpoint value_loop (rec : list entry → Puzzle → nat → res (Puzzle * nat))
    (rest : list entry) (row col : nat) (nums : list Z) (p : Puzzle)
    (calls : nat) : res (Puzzle * nat) :=
  match nums with
  | [] =>
      p' ←! backtrack p row col;
      Ret (p', calls)
  | num :: nums' =>
      '(ok, p1) ←! test p row col num;
      '(p2, calls2) ←! (if ok then
                           new_remaining ←! update_remaining rest row col num p1;
                           rec new_remaining p1 calls
                         else Ret (p1, calls));
      '(s, p3) ←! is_solved p2;
      if s then Ret (p3, calls2)
      else value_loop rec rest row col nums' p3 calls2
  end.

Fixpoint solve_rec (fuel : nat) (p : Puzzle) (remaining : list entry)
    (calls : nat) : res (Puzzle * nat) :=
  match fuel with
  | O => OutOfFuel
  | S fuel' =>
      let calls := S calls in
      '(s, p) ←! is_solved p;
      if s then Ret (p, calls) else
      current ←! index remaining 0;
      let row := current.1.1 in
      let col := current.1.2 in
      value_loop (λ rem p1 calls1, solve_rec fuel' p1 rem calls1)
                 (drop 1 remaining) row col (set_order current.2) p calls
  end.

Definition solve (fuel : nat) (p : Puzzle) (count_calls : bool)
    : res solve_result :=
  remaining ←! initial_remaining p;
  '(result, calls) ←! solve_rec fuel p remaining 0;
  Ret (finish result calls count_calls).

End Search.

End Heuristic.

(** ** Ripple.py: [Puzzle.copy] *)

(** [puzzle_copy] starts as [height] fresh rows of [width] zeros; the two
    loops then copy cell by cell, and the constructor recounts the empty
    cells and clears the solved flag. *)
Definition copy (p : Puzzle) : res Puzzle :=
  let blank : list (list cell) :=
    replicate (height p) (replicate (width p) (Num 0)) in
  puzzle_copy ←! Heuristic.for_each (seq 0 (height p)) (λ row g,
    Heuristic.for_each (seq 0 (width p)) (λ col g,
      c ←! get p (row, col);
      store g row col c) g) blank;
  Ret (init (width p) (height p) puzzle_copy (regions p) (region_map p)).

(** ** Ripple.py: [solve_region] and the region loop of [read_puzzle] *)

(** The lines of the puzzle file after the first one, as [read_puzzle]
    keeps them: cell characters at odd positions, walls between them. *)
Abbreviation text := (list (list Ascii.ascii)) (only parsing).

(** [puzzle[r][c] == " "] *)
Definition is_space (t : text) (r c : nat) : res bool :=
  line ←! index t r;
  ch ←! index line c;
  Ret (Ascii.eqb ch Ascii.Space).

(** The four wall checks of [solve_region], in the order of the source:
    above, below, left, right. *)
Definition new_squares (row col w h : nat) (t : text) : res (list square) :=
  let str_row := (2 * row + 1)%nat in
  let str_col := (2 * col + 1)%nat in
  above ←! (if decide (0 < row)%nat then
              b ←! is_space t (str_row - 1) str_col;
              Ret (if b then [((row - 1)%nat, col)] else [])
            else Ret []);
  below ←! (if decide (row + 1 < h)%nat then
              b ←! is_space t (str_row + 1) str_col;
              Ret (if b then [((row + 1)%nat, col)] else [])
            else Ret []);
  left ←! (if decide (0 < col)%nat then
             b ←! is_space t str_row (str_col - 1);
             Ret (if b then [(row, (col - 1)%nat)] else [])
           else Ret []);
  right ←! (if decide (col + 1 < w)%nat then
              b ←! is_space t str_row (str_col + 1);
              Ret (if b then [(row, (col + 1)%nat)] else [])
            else Ret []);
  Ret (above ++ below ++ left ++ right).

(** [solve_region]: the set [has_region] is shared by all calls, so it is
    threaded through them; the result is the tuple of squares found. *)
Fixpoint solve_region (fuel : nat) (row col w h : nat) (t : text)
    (has_region : gset square) : res (list square * gset square) :=
  match fuel with
  | O => OutOfFuel
  | S fuel' =>
      let has_region := {[(row, col)]} ∪ has_region in
      new ←! new_squares row col w h t;
      Heuristic.for_each new (λ sq '(result, has_region),
        if decide (sq ∈ has_region) then Ret (result, has_region)
        else
          '(found, has_region') ←!
            solve_region fuel' sq.1 sq.2 w h t has_region;
          Ret (result ++ found, has_region'))
        ([(row, col)], has_region)
  end.

(** The "solve regions" loop of [read_puzzle]: the regions in the order
    they are found, and [region_map]. *)
Definition read_regions (fuel : nat) (w h : nat) (t : text)
    : res (list region * gmap square region) :=
  '(_, regions, region_map) ←!
    Heuristic.for_each (seq 0 h) (λ row st,
      Heuristic.for_each (seq 0 w) (λ col '(has_region, regions, region_map),
        if decide ((row, col) ∈ has_region)
        then Ret (has_region, regions, region_map)
        else
          '(result, has_region') ←!
            solve_region fuel row col w h t has_region;
          Ret (has_region', regions ++ [result],
               foldl (λ m sq, <[sq := result]> m) region_map result)) st)
      (∅, [], ∅);
  Ret (regions, region_map).

(** * Specification vocabulary *)

(** The content of a square, when the square is on the grid. *)
Definition cell_at (g : grid) (sq : square) : option cell :=
  match g !! sq.1 with
  | Some r => r !! sq.2
  | None => None
  end.

(** Separation rule on one line: equal placed values at positions
    [p1 < p2] are more than the value apart. *)
Definition line_ok (l : list cell) : Prop :=
  ∀ p1 p2 v, l !! p1 = Some (Num v) → l !! p2 = Some (Num v) →
    (p1 < p2)%nat → Z.of_nat p2 - Z.of_nat p1 > v.

Definition row_ok (g : grid) (row : nat) : Prop :=
  ∀ c1 c2 v, cell_at g (row, c1) = Some (Num v) →
    cell_at g (row, c2) = Some (Num v) →
    (c1 < c2)%nat → Z.of_nat c2 - Z.of_nat c1 > v.

Definition col_ok (g : grid) (col : nat) : Prop :=
  ∀ r1 r2 v, cell_at g (r1, col) = Some (Num v) →
    cell_at g (r2, col) = Some (Num v) →
    (r1 < r2)%nat → Z.of_nat r2 - Z.of_nat r1 > v.

(** The values of the filled squares of a region, in region order. *)
Definition region_values (g : grid) (rg : region) : list Z :=
  omap (λ sq, match cell_at g sq with
              | Some (Num n) => Some n
              | _ => None
              end) rg.

Definition region_ok (g : grid) (rg : region) : Prop :=
  NoDup (region_values g rg).

(** Every row of the grid has a cell in column [col]. *)
Definition has_column (g : grid) (col : nat) : Prop :=
  Forall (λ r, (col < length r)%nat) g.

Definition on_grid (g : grid) (sq : square) : Prop :=
  is_Some (cell_at g sq).

(** The cells of column [col], top to bottom. *)
Definition column (g : grid) (col : nat) : list cell :=
  (λ r, default Empty (r !! col)) <$> g.

(** The dictionary of a line scan records the prefix read so far. *)
Definition prev_rep (prev : gmap Z (list nat)) (pre : list cell) : Prop :=
  ∀ v i, (∃ idxs, prev !! v = Some idxs ∧ i ∈ idxs) ↔ pre !! i = Some (Num v).

(** [read_puzzle] fills [region_map] from the regions it found. *)
Definition build_region_map (rs : list region) : gmap square region :=
  foldl (λ m rg, foldl (λ m sq, <[sq := rg]> m) m rg) ∅ rs.

(** ** Well-formed input *)

Definition in_bounds (p : Puzzle) (sq : nat * nat) : Prop :=
  (sq.1 < height p)%nat ∧ (sq.2 < width p)%nat.

(** [g] is a [height] x [width] rectangle. *)
Definition grid_dims (p : Puzzle) (g : list (list cell)) : Prop :=
  length g = height p ∧ Forall (λ r, length r = width p) g.

(** The input contract of the solvers: a rectangular board with at least
    one column; every region lists distinct squares of the board, and
    [region_map] sends each of them to that region; every square of the
    board has a region, and [region_map] only names listed regions. *)
Definition well_formed (p : Puzzle) : Prop :=
  (0 < width p)%nat
  ∧ grid_dims p (puzzle p)
  ∧ Forall (λ rg, NoDup rg
                  ∧ Forall (λ sq, in_bounds p sq ∧ region_map p !! sq = Some rg) rg)
           (regions p)
  ∧ map_Forall (λ sq rg, rg ∈ regions p ∧ sq ∈ rg) (region_map p)
  ∧ Forall (λ row, Forall (λ col, is_Some (region_map p !! (row, col)))
                          (seq 0 (width p)))
           (seq 0 (height p)).

(** Every clue lies in [1 .. size of its region]. *)
Definition clues_in_range (p : Puzzle) : Prop :=
  Forall (λ rg, Forall (λ sq, match cell_at (puzzle p) sq with
                              | Some (Num n) => 1 ≤ n ≤ Z.of_nat (length rg)
                              | _ => True
                              end) rg)
         (regions p).

(** The puzzle object as [__init__] leaves it. *)
Definition fresh (p : Puzzle) : Prop :=
  solved p = false ∧ empty_slots_left p = count_empty (puzzle p).

(** What the preprocessing of the heuristic solver leaves as candidates
    of an empty square: the values of [1 .. region size] that no clue of
    the region uses and that no clue of the same row or column rules out
    by its distance. *)
Definition candidate (p : Puzzle) (sq : nat * nat) (x : Z) : Prop :=
  ∃ rg, region_map p !! sq = Some rg
    ∧ 1 ≤ x ≤ Z.of_nat (length rg)
    ∧ (x ∉ region_values (puzzle p) rg)
    ∧ (∀ c, cell_at (puzzle p) (sq.1, c) = Some (Num x) →
            Z.abs (Z.of_nat sq.2 - Z.of_nat c) > x)
    ∧ (∀ r, cell_at (puzzle p) (r, sq.2) = Some (Num x) →
            Z.abs (Z.of_nat sq.1 - Z.of_nat r) > x).

Global Instance in_bounds_dec p sq : Decision (in_bounds p sq).
Proof. unfold in_bounds. apply _. Defined.

Global Instance grid_dims_dec p g : Decision (grid_dims p g).
Proof. unfold grid_dims. apply _. Defined.

Global Instance well_formed_dec p : Decision (well_formed p).
Proof. unfold well_formed. apply _. Defined.

Global Instance clues_in_range_dec p : Decision (clues_in_range p).
Proof.
  unfold clues_in_range. apply Forall_dec. intros rg. apply Forall_dec.
  intros sq. destruct (cell_at (puzzle p) sq) as [[|n]|]; apply _.
Defined.

(** The entry of [remaining_dict] for a square once every region is
    seeded: the clue, or the region's unused values. *)
Definition seed_value (p : Puzzle) (sq : nat * nat) (v : Heuristic.rem_val) : Prop :=
  match cell_at (puzzle p) sq with
  | Some (Num n) => v = Heuristic.RInt n
  | Some Empty =>
      ∃ rg s, region_map p !! sq = Some rg ∧ v = Heuristic.RSet s
              ∧ ∀ x, x ∈ s ↔ 1 ≤ x ≤ Z.of_nat (length rg)
                             ∧ x ∉ region_values (puzzle p) rg
  | None => False
  end.

(** The calls [reduce_square num dist sq] made for the clue [n] at
    [(row, col)], in order: its row, then its column. *)
Definition clue_events (p : Puzzle) (row col : nat) (n : Z)
    : list (Z * Z * (nat * nat)) :=
  ((λ x, (n, Z.abs (Z.of_nat x - Z.of_nat col), (row, x))) <$> seq 0 (width p))
  ++ ((λ x, (n, Z.abs (Z.of_nat x - Z.of_nat row), (x, col))) <$> seq 0 (height p)).

Definition cell_events (p : Puzzle) (row col : nat) : list (Z * Z * (nat * nat)) :=
  match cell_at (puzzle p) (row, col) with
  | Some (Num n) => clue_events p row col n
  | _ => []
  end.

(** All of them, for the whole "reduce remaining possible values" pass. *)
Definition reduce_events (p : Puzzle) : list (Z * Z * (nat * nat)) :=
  concat ((λ row, concat ((λ col, cell_events p row col) <$> seq 0 (width p)))
          <$> seq 0 (height p)).

Definition reduce_step (ev : Z * Z * (nat * nat))
    (d : list ((nat * nat) * Heuristic.rem_val)) :=
  Heuristic.reduce_square ev.1.1 ev.1.2 ev.2 d.

(** Some call among [evs] discards [x] at [sq]. *)
Definition hit (evs : list (Z * Z * (nat * nat))) (sq : nat * nat) (x : Z) : Prop :=
  ∃ dist, (x, dist, sq) ∈ evs ∧ dist ≤ x.

(** [d] is [d0] after the calls [evs]. *)
Definition reduced (evs : list (Z * Z * (nat * nat)))
    (d0 d : list ((nat * nat) * Heuristic.rem_val)) : Prop :=
  ∀ sq, match Heuristic.dict_get d0 sq with
        | Some (Heuristic.RInt n) => Heuristic.dict_get d sq = Some (Heuristic.RInt n)
        | Some (Heuristic.RSet s0) =>
            ∃ s, Heuristic.dict_get d sq = Some (Heuristic.RSet s)
                 ∧ ∀ x, x ∈ s ↔ x ∈ s0 ∧ ¬ hit evs sq x
        | None => Heuristic.dict_get d sq = None
        end.

(** Work-list order: fewer candidates first, then row-major square order. *)
Definition entry_le (a b : (nat * nat) * gset Z) : Prop :=
  (size a.2 < size b.2)%nat
  ∨ (size a.2 = size b.2
     ∧ ((a.1.1 < b.1.1)%nat ∨ (a.1.1 = b.1.1 ∧ (a.1.2 ≤ b.1.2)%nat))).

(** The work lists handed to the heuristic search step: the one built by
    the preprocessing, and every list [update_remaining] builds from the
    tail of one handed down before. *)
Inductive passed_down (p0 : Puzzle) : list ((nat * nat) * gset Z) → Prop :=
| passed_initial l :
    Heuristic.initial_remaining p0 = Ret l → passed_down p0 l
| passed_narrowed l row col value p l' :
    passed_down p0 l →
    Heuristic.update_remaining (drop 1 l) row col value p = Ret l' →
    passed_down p0 l'.

(** ** What the solved check and the searches establish *)

(** Every square of the board holds a number. *)
Definition filled (p : Puzzle) (g : list (list cell)) : Prop :=
  ∀ sq, in_bounds p sq → ∃ n, cell_at g sq = Some (Num n).

(** The lines [is_solved] looks at: every row [r], the column
    [r mod width] for every row index [r], and every listed region. *)
Definition lines_ok (p : Puzzle) (g : list (list cell)) : Prop :=
  (∀ row, (row < height p)%nat →
     row_ok g row ∧ col_ok g (row mod width p)%nat)
  ∧ Forall (region_ok g) (regions p).

Definition check_ok (p : Puzzle) (g : list (list cell)) : Prop :=
  filled p g ∧ lines_ok p g.

(** The rules of the puzzle on a full board: every row, every column and
    every region. *)
Definition rules_ok (p : Puzzle) (g : list (list cell)) : Prop :=
  filled p g
  ∧ (∀ row, (row < height p)%nat → row_ok g row)
  ∧ (∀ col, (col < width p)%nat → col_ok g col)
  ∧ Forall (region_ok g) (regions p).

(** [g'] keeps every number of [g]. *)
Definition extends (g g' : list (list cell)) : Prop :=
  ∀ sq n, cell_at g sq = Some (Num n) → cell_at g' sq = Some (Num n).

(** The fields a search never writes. *)
Definition same_board (p p' : Puzzle) : Prop :=
  width p' = width p ∧ height p' = height p
  ∧ regions p' = regions p ∧ region_map p' = region_map p.

(** The grid with the square [sq] overwritten (unchanged off the grid). *)
Definition put (g : list (list cell)) (sq : nat * nat) (v : cell)
    : list (list cell) :=
  match g !! sq.1 with
  | Some r => <[sq.1 := <[sq.2 := v]> r]> g
  | None => g
  end.

(** What one cell adds to the count of empty cells. *)
Definition dot_count (c : cell) : Z := if is_dot c then 1 else 0.

(** The row, the column and the region through [sq] are valid in [g]:
    what [is_valid(row, col)] answers on the grid [g]. *)
Definition valid_at (p : Puzzle) (g : list (list cell)) (sq : nat * nat) : Prop :=
  row_ok g sq.1 ∧ col_ok g sq.2
  ∧ ∃ rg, region_map p !! sq = Some rg ∧ region_ok g rg.

(** The loop both search steps run on their cell: try the values in
    turn, descend through [step] after an accepted value, stop as soon as
    the puzzle is solved, and [backtrack] when the values are used up. *)
Fixpoint try_loop (step : Z → Puzzle → nat → res (Puzzle * nat))
    (row col : nat) (nums : list Z) (p : Puzzle) (calls : nat)
    : res (Puzzle * nat) :=
  match nums with
  | [] =>
      p' ←! backtrack p row col;
      Ret (p', calls)
  | num :: nums' =>
      '(ok, p1) ←! test p row col num;
      '(p2, calls2) ←! (if ok then step num p1 calls else Ret (p1, calls));
      '(s, p3) ←! is_solved p2;
      if s then Ret (p3, calls2)
      else try_loop step row col nums' p3 calls2
  end.

(** The values [num + 1, ..., num + iters] of the brute-force loop. *)
Fixpoint nums_from (num : Z) (iters : nat) : list Z :=
  match iters with
  | O => []
  | S iters' => (num + 1) :: nums_from (num + 1) iters'
  end.

(** What a search step hands back when it was started on [p]: a solved
    puzzle on the same board, whose grid keeps the numbers of [p] and
    passes the solved check; or [p] itself with one more on
    [empty_slots_left]; or an exception.  It never runs out of fuel. *)
Definition outcome (p : Puzzle) (r : res (Puzzle * nat)) : Prop :=
  match r with
  | Ret (p', _) =>
      if solved p'
      then same_board p p' ∧ grid_dims p (puzzle p')
           ∧ extends (puzzle p) (puzzle p') ∧ check_ok p (puzzle p')
      else p' = with_slots p (empty_slots_left p + 1)
  | Raise _ => True
  | OutOfFuel => False
  end.

(** The square [sq] is reached by the value just placed at [(row, col)]:
    same row within the value's distance, same column within the value's
    distance, or same region [rg]. *)
Definition touches (row col : nat) (value : Z) (rg : list (nat * nat))
    (sq : nat * nat) : Prop :=
  (sq.1 = row ∧ Z.abs (Z.of_nat col - Z.of_nat sq.2) ≤ value)
  ∨ (sq.2 = col ∧ Z.abs (Z.of_nat row - Z.of_nat sq.1) ≤ value)
  ∨ sq ∈ rg.

(** ** What a search can find *)

(** [n] is a value the searches try at [sq]: between 1 and the size of
    the square's region. *)
Definition in_range (p : Puzzle) (sq : nat * nat) (n : Z) : Prop :=
  ∃ rg, region_map p !! sq = Some rg ∧ 1 ≤ n ≤ Z.of_nat (length rg).

(** [s] completes [g]: a grid of the board's dimensions that keeps the
    numbers of [g], passes the solved check, and holds at every square
    that is empty in [g] a value in range whose row, column and region
    are valid. *)
Definition completion (p : Puzzle) (g s : list (list cell)) : Prop :=
  grid_dims p s ∧ extends g s ∧ check_ok p s
  ∧ ∀ sq, cell_at g sq = Some Empty →
      ∃ n, cell_at s sq = Some (Num n) ∧ in_range p sq n ∧ valid_at p s sq.

(** A solution by the rules of the puzzle: a full grid of the board's
    dimensions that keeps the clues, with every value in range and every
    row, column and region valid. *)
Definition solution (p : Puzzle) (s : list (list cell)) : Prop :=
  grid_dims p s ∧ extends (puzzle p) s ∧ rules_ok p s
  ∧ ∀ sq n, cell_at s sq = Some (Num n) → in_range p sq n.

(** What the answer of a search step started on [p] tells: a solved
    puzzle holds a completion of the grid of [p]; a return without a
    solution, that the grid of [p] has no completion; an exception, that
    some line the solved check looks at is already broken. *)
Definition verdict (p : Puzzle) (r : res (Puzzle * nat)) : Prop :=
  match r with
  | Ret (p', _) =>
      if solved p' then completion p (puzzle p) (puzzle p')
      else ¬ ∃ s, completion p (puzzle p) s
  | Raise _ => ¬ lines_ok p (puzzle p)
  | OutOfFuel => True
  end.

(** The same for the loop of a search step over the values [nums]. *)
Definition loop_verdict (p : Puzzle) (sq : nat * nat) (nums : list Z)
    (r : res (Puzzle * nat)) : Prop :=
  match r with
  | Ret (p', _) =>
      if solved p' then completion p (puzzle p) (puzzle p')
      else ∀ num, num ∈ nums →
             ¬ ∃ s, completion p (puzzle p) s ∧ cell_at s sq = Some (Num num)
  | Raise _ => ¬ lines_ok p (puzzle p)
  | OutOfFuel => True
  end.

(** Every square before [(row, col)] in row-major order holds a number. *)
Definition filled_before (p : Puzzle) (g : list (list cell)) (row col : nat)
    : Prop :=
  ∀ sq, in_bounds p sq →
    (sq.1 * width p + sq.2 < row * width p + col)%nat →
    ∃ n, cell_at g sq = Some (Num n).

(** The grid a call of [solve] found: the grid of the returned puzzle
    when that puzzle is marked solved. *)
Definition found (r : res solve_result) : option (list (list cell)) :=
  match r with
  | Ret sr =>
      match result_of sr with
      | Some p' => if solved p' then Some (puzzle p') else None
      | None => None
      end
  | _ => None
  end.

(** ** The text of a puzzle file *)

Definition text_at (t : list (list Ascii.ascii)) (r c : nat)
    : option Ascii.ascii :=
  match t !! r with
  | Some line => line !! c
  | None => None
  end.

(** A square of a [w] x [h] board. *)
Definition inside (w h : nat) (sq : nat * nat) : Prop :=
  (sq.1 < h)%nat ∧ (sq.2 < w)%nat.

(** The text has the cell lines and the separator lines between them, and
    on each the cell characters and the separators between them: the
    first [2 * h] lines hold at least [2 * w] characters. *)
Definition covers (t : list (list Ascii.ascii)) (w h : nat) : Prop :=
  Forall (λ r, Forall (λ c, is_Some (text_at t r c)) (seq 0 (2 * w)))
         (seq 0 (2 * h)).

Definition space_at (t : list (list Ascii.ascii)) (r c : nat) : Prop :=
  text_at t r c = Some Ascii.Space.

(** The squares [a] and [b] are neighbours and the character between
    them is a space: no wall. *)
Definition linked (t : list (list Ascii.ascii)) (a b : nat * nat) : Prop :=
  (a.2 = b.2 ∧ b.1 = S a.1 ∧ space_at t (2 * a.1 + 2) (2 * a.2 + 1))
  ∨ (a.2 = b.2 ∧ a.1 = S b.1 ∧ space_at t (2 * b.1 + 2) (2 * a.2 + 1))
  ∨ (a.1 = b.1 ∧ b.2 = S a.2 ∧ space_at t (2 * a.1 + 1) (2 * a.2 + 2))
  ∨ (a.1 = b.1 ∧ a.2 = S b.2 ∧ space_at t (2 * a.1 + 1) (2 * b.2 + 2)).

(** One move between squares of the board through a missing wall. *)
Definition passage (t : list (list Ascii.ascii)) (w h : nat)
    (a b : nat * nat) : Prop :=
  inside w h a ∧ inside w h b ∧ linked t a b.

(** [b] can be reached from [a] without crossing a wall. *)
Definition connected (t : list (list Ascii.ascii)) (w h : nat)
    : nat * nat → nat * nat → Prop :=
  rtc (passage t w h).

(** The squares of the board in the order the loops of [read_puzzle]
    visit them. *)
Definition all_squares (w h : nat) : list (nat * nat) :=
  concat ((λ row, (λ col, (row, col)) <$> seq 0 w) <$> seq 0 h).

(** How many squares of the board are not in [V]. *)
Definition unvisited (w h : nat) (V : gset (nat * nat)) : nat :=
  length (filter (λ sq, sq ∉ V) (all_squares w h)).

(** What one call of [solve_region] from [start] with the squares [V]
    already taken hands back. *)
Definition region_found (t : list (list Ascii.ascii)) (w h : nat)
    (start : nat * nat) (V : gset (nat * nat))
    (result : list (nat * nat)) (V' : gset (nat * nat)) : Prop :=
  NoDup result
  ∧ start ∈ result
  ∧ (∀ x, x ∈ V' ↔ x ∈ V ∨ x ∈ result)
  ∧ (∀ x, x ∈ result → (x ∉ V) ∧ inside w h x ∧ connected t w h start x)
  ∧ (∀ x y, x ∈ result → passage t w h x y → y ∈ V').

(** What the region loop has established when the squares [V] are taken. *)
Definition regions_so_far (t : list (list Ascii.ascii)) (w h : nat)
    (st : gset (nat * nat) * list (list (nat * nat))
          * gmap (nat * nat) (list (nat * nat))) : Prop :=
  (∀ x, x ∈ st.1.1 ↔ x ∈ concat st.1.2)
  ∧ NoDup (concat st.1.2)
  ∧ (∀ x, x ∈ st.1.1 → inside w h x)
  ∧ Forall (λ rg, ∀ x y, x ∈ rg → passage t w h x y → y ∈ rg) st.1.2
  ∧ Forall (λ rg, ∃ s, s ∈ rg ∧ ∀ x, x ∈ rg → connected t w h s x) st.1.2
  ∧ (∀ sq rg, st.2 !! sq = Some rg ↔ rg ∈ st.1.2 ∧ sq ∈ rg)
  ∧ st.2 = build_region_map st.1.2.

Global Instance inside_dec w h sq : Decision (inside w h sq).
Proof. unfold inside. apply _. Defined.

Global Instance covers_dec t w h : Decision (covers t w h).
Proof. unfold covers. apply _. Defined.

(** ** Small puzzles used as concrete inputs *)

Definition make_puzzle (w h : nat) (g : grid) (rs : list region) : Puzzle :=
  init w h g rs (build_region_map rs).

(** One row, two empty cells, each its own region: both cells can only
    take 1, and two 1s side by side break the separation rule. *)
Definition puzzle_1x2_empty : Puzzle :=
  make_puzzle 2 1 [[Empty; Empty]] [[(0, 0)%nat]; [(0, 1)%nat]].

(** The same board with the first cell given. *)
Definition puzzle_1x2_half : Puzzle :=
  make_puzzle 2 1 [[Num 1; Empty]] [[(0, 0)%nat]; [(0, 1)%nat]].

(** The same board fully given, the two clues in conflict. *)
Definition puzzle_1x2_ones : Puzzle :=
  make_puzzle 2 1 [[Num 1; Num 1]] [[(0, 0)%nat]; [(0, 1)%nat]].

(** Two rows of three, one region per row, fully given; the third column
    holds 1 above 1. *)
Definition puzzle_2x3_full : Puzzle :=
  make_puzzle 3 2 [[Num 2; Num 3; Num 1]; [Num 3; Num 2; Num 1]]
    [[(0, 0); (0, 1); (0, 2)]%nat; [(1, 0); (1, 1); (1, 2)]%nat].

(** A 2 x 2 board with one clue and an L-shaped region. *)
Definition puzzle_2x2 : Puzzle :=
  make_puzzle 2 2 [[Empty; Empty]; [Empty; Num 1]]
    [[(0, 0); (0, 1); (1, 0)]%nat; [(1, 1)%nat]].

(** The first work list of the 2 x 2 board. *)
Definition work_list_2x2 : list ((nat * nat) * gset Z) :=
  match Heuristic.initial_remaining puzzle_2x2 with
  | Ret l => l
  | _ => []
  end.

(** The 2 x 2 board as the brute-force search leaves it. *)
Definition puzzle_2x2_solved : Puzzle :=
  with_solved
    (with_slots (with_grid puzzle_2x2 [[Num 1; Num 2]; [Num 3; Num 1]]) 0) true.

(** The 2 x 2 board as the heuristic search leaves it. *)
Definition puzzle_2x2_solved_h : Puzzle :=
  with_solved
    (with_slots (with_grid puzzle_2x2 [[Num 1; Num 3]; [Num 2; Num 1]]) 0) true.

(** The first work list of the two-cell board. *)
Definition work_list_1x2 : list ((nat * nat) * gset Z) :=
  match Heuristic.initial_remaining puzzle_1x2_empty with
  | Ret l => l
  | _ => []
  end.

(** One empty cell, alone in its region: the only solution is 1. *)
Definition puzzle_1x1 : Puzzle :=
  make_puzzle 1 1 [[Empty]] [[(0, 0)%nat]].

(** A clue larger than its region. *)
Definition puzzle_1x2_clue3 : Puzzle :=
  make_puzzle 2 1 [[Num 3; Empty]] [[(0, 0)%nat; (0, 1)%nat]].

(** A 2 x 2 board file: the two left squares share a region with the
    lower right one; the upper right square is walled off. *)
Definition text_2x2 : list (list Ascii.ascii) :=
  String.list_ascii_of_string <$>
    ["+-+-+"; "|.|.|"; "+ +-+"; "|. .|"; "+-+-+"]%string.

(** * Properties *)

(** ** Reads and writes of the grid *)

Lemma index_Ret {A} (l : list A) i x : l !! i = Some x → index l i = Ret x.
Proof. unfold index. by intros ->. Qed.

Lemma index_inv {A} (l : list A) i x : index l i = Ret x → l !! i = Some x.
Proof. unfold index. destruct (l !! i); naive_solver. Qed.

Lemma get_cell_at p sq c : cell_at (puzzle p) sq = Some c → get p sq = Ret c.
Proof.
  unfold cell_at, get. destruct (puzzle p !! sq.1) as [r|] eqn:Hr; [|done].
  intros Hc. rewrite (index_Ret _ _ _ Hr). simpl. by apply index_Ret.
Qed.

Lemma get_inv p sq c : get p sq = Ret c → cell_at (puzzle p) sq = Some c.
Proof.
  unfold cell_at, get, index.
  destruct (puzzle p !! sq.1) as [r|]; simpl; [|intros; discriminate].
  destruct (r !! sq.2); naive_solver.
Qed.

Lemma store_cell_at g row col v old :
  cell_at g (row, col) = Some old →
  ∃ r, g !! row = Some r ∧ store g row col v = Ret (<[row := <[col := v]> r]> g).
Proof.
  unfold cell_at, store. simpl. destruct (g !! row) as [r|] eqn:Hr; [|done].
  intros Hc. exists r. split; [done|].
  rewrite (index_Ret _ _ _ Hr). simpl. by rewrite (index_Ret _ _ _ Hc).
Qed.

Lemma cell_at_store_eq (g : grid) row col v r :
  g !! row = Some r → (col < length r)%nat →
  cell_at (<[row := <[col := v]> r]> g) (row, col) = Some v.
Proof.
  intros Hr Hc. unfold cell_at. simpl.
  rewrite list_lookup_insert_eq by (by eapply lookup_lt_Some).
  by rewrite list_lookup_insert_eq.
Qed.

Lemma cell_at_store_ne (g : grid) row col v r sq :
  g !! row = Some r → sq ≠ (row, col) →
  cell_at (<[row := <[col := v]> r]> g) sq = cell_at g sq.
Proof.
  intros Hr Hne. unfold cell_at. destruct sq as [i j]. simpl.
  destruct (decide (i = row)) as [->|Hi].
  - rewrite list_lookup_insert_eq by (by eapply lookup_lt_Some).
    rewrite Hr. apply list_lookup_insert_ne. congruence.
  - by rewrite list_lookup_insert_ne.
Qed.

(** Writing back what a cell already holds changes nothing. *)
Lemma store_same_grid (g : grid) row col r c :
  g !! row = Some r → r !! col = Some c →
  <[row := <[col := c]> r]> g = g.
Proof. intros Hr Hc. by rewrite (list_insert_id r col c), list_insert_id. Qed.

Lemma store_overwrite (g : grid) row col r (v w : cell) :
  g !! row = Some r →
  <[row := <[col := w]> (<[col := v]> r)]> (<[row := <[col := v]> r]> g)
  = <[row := <[col := w]> r]> g.
Proof. intros Hr. by rewrite list_insert_insert_eq, list_insert_insert_eq. Qed.

(** ** The line scan of [is_valid] *)

Lemma line_ok_snoc pre c :
  line_ok (pre ++ [c]) ↔
  line_ok pre ∧ (∀ v i, c = Num v → pre !! i = Some (Num v) →
                   Z.of_nat (length pre) - Z.of_nat i > v).
Proof.
  split.
  - intros H. split.
    + intros p1 p2 v H1 H2 Hlt. apply (H p1 p2 v); [| |done].
      * rewrite lookup_app_l; [done|]. by eapply lookup_lt_Some.
      * rewrite lookup_app_l; [done|]. by eapply lookup_lt_Some.
    + intros v i -> Hi. apply (H i (length pre) v).
      * rewrite lookup_app_l; [done|]. by eapply lookup_lt_Some.
      * by rewrite list_lookup_middle.
      * by eapply lookup_lt_Some.
  - intros [Hpre Hlast] p1 p2 v H1 H2 Hlt.
    assert (p2 < length (pre ++ [c]))%nat as Hp2 by (by eapply lookup_lt_Some).
    rewrite length_app in Hp2. simpl in Hp2.
    rewrite lookup_app_l in H1 by lia.
    destruct (decide (p2 = length pre)) as [->|Hne].
    + rewrite list_lookup_middle in H2 by done. simplify_eq.
      by eapply Hlast.
    + rewrite lookup_app_l in H2 by lia. by eapply Hpre.
Qed.

Lemma line_ok_app_l pre rest : line_ok (pre ++ rest) → line_ok pre.
Proof.
  intros H p1 p2 v H1 H2 Hlt. apply (H p1 p2 v); [| |done].
  - rewrite lookup_app_l; [done|]. by eapply lookup_lt_Some.
  - rewrite lookup_app_l; [done|]. by eapply lookup_lt_Some.
Qed.

Lemma prev_rep_empty : prev_rep ∅ [].
Proof. intros v i. split; [|done]. intros (idxs & H & _). by rewrite lookup_empty in H. Qed.

Lemma prev_rep_dot prev pre : prev_rep prev pre → prev_rep prev (pre ++ [Empty]).
Proof.
  intros Hrep v i. split.
  - intros Hi. apply Hrep in Hi.
    rewrite lookup_app_l; [done|]. by eapply lookup_lt_Some.
  - intros Hi. apply Hrep.
    assert (i < length (pre ++ [Empty]))%nat as Hlt by (by eapply lookup_lt_Some).
    rewrite length_app in Hlt. simpl in Hlt.
    destruct (decide (i = length pre)) as [->|Hne].
    + by rewrite list_lookup_middle in Hi.
    + by rewrite lookup_app_l in Hi by lia.
Qed.

Lemma prev_rep_num prev pre n idxs' :
  prev_rep prev pre →
  (∀ i, i ∈ idxs' ↔ i = length pre ∨ ∃ idxs, prev !! n = Some idxs ∧ i ∈ idxs) →
  prev_rep (<[n := idxs']> prev) (pre ++ [Num n]).
Proof.
  intros Hrep Hidx v i. split.
  - intros (idxs & Hl & Hi). destruct (decide (v = n)) as [->|Hne].
    + rewrite lookup_insert_eq in Hl. simplify_eq.
      apply Hidx in Hi as [->|Hi].
      * by rewrite list_lookup_middle.
      * apply Hrep in Hi. rewrite lookup_app_l; [done|]. by eapply lookup_lt_Some.
    + rewrite lookup_insert_ne in Hl by done.
      assert (pre !! i = Some (Num v)) as Hp by (apply Hrep; eauto).
      rewrite lookup_app_l; [done|]. by eapply lookup_lt_Some.
  - intros Hi.
    assert (i < length (pre ++ [Num n]))%nat as Hlt by (by eapply lookup_lt_Some).
    rewrite length_app in Hlt. simpl in Hlt.
    destruct (decide (i = length pre)) as [->|Hne].
    + rewrite list_lookup_middle in Hi by done. simplify_eq.
      exists idxs'. rewrite lookup_insert_eq. split; [done|]. apply Hidx. by left.
    + rewrite lookup_app_l in Hi by lia. apply Hrep in Hi as (idxs & Hl & Hi).
      destruct (decide (v = n)) as [->|Hvn].
      * exists idxs'. rewrite lookup_insert_eq. split; [done|]. apply Hidx. eauto.
      * exists idxs. by rewrite lookup_insert_ne.
Qed.

Lemma scan_line_spec rest : ∀ pre prev,
  prev_rep prev pre → line_ok pre →
  ∃ b, scan_line (Ret <$> rest) (length pre) prev = Ret b
       ∧ (b = true ↔ line_ok (pre ++ rest)).
Proof.
  induction rest as [|c rest IH]; intros pre prev Hrep Hok.
  - exists true. simpl. rewrite app_nil_r. done.
  - simpl. destruct c as [|n].
    + destruct (IH (pre ++ [Empty]) prev) as (b & Hb & Hiff).
      * by apply prev_rep_dot.
      * apply line_ok_snoc. split; [done|]. intros; discriminate.
      * exists b. rewrite length_app, Nat.add_1_r in Hb.
        by rewrite <- app_assoc in Hiff.
    + destruct (prev !! n) as [idxs|] eqn:Hprev.
      * destruct (existsb _ idxs) eqn:Hex.
        -- exists false. split; [done|]. split; [done|]. intros Hall.
           apply existsb_exists in Hex as (idx & Hin & Hle).
           apply list_elem_of_In in Hin.
           assert (pre !! idx = Some (Num n)) as Hidx by (apply Hrep; eauto).
           assert (idx < length pre)%nat by (by eapply lookup_lt_Some).
           specialize (Hall idx (length pre) n).
           rewrite lookup_app_l, list_lookup_middle in Hall by done.
           specialize (Hall Hidx eq_refl). lia.
        -- destruct (IH (pre ++ [Num n]) (<[n := idxs ++ [length pre]]> prev))
             as (b & Hb & Hiff).
           ++ apply prev_rep_num; [done|]. intros i.
              rewrite elem_of_app, list_elem_of_singleton. naive_solver.
           ++ apply line_ok_snoc. split; [done|]. intros v i [= <-] Hi.
              apply Hrep in Hi as (idxs' & Hl & Hi).
              assert (idxs' = idxs) as -> by congruence.
              destruct (decide (Z.of_nat (length pre) - Z.of_nat i > n)); [done|].
              assert (existsb (λ idx, Z.of_nat (length pre) - Z.of_nat idx <=? n)
                        idxs = true); [|congruence].
              apply existsb_exists. exists i. split; [by apply list_elem_of_In|lia].
           ++ exists b. rewrite length_app, Nat.add_1_r in Hb.
              by rewrite <- app_assoc in Hiff.
      * destruct (IH (pre ++ [Num n]) (<[n := [length pre]]> prev))
          as (b & Hb & Hiff).
        -- apply prev_rep_num; [done|]. intros i.
           rewrite list_elem_of_singleton. rewrite Hprev. naive_solver.
        -- apply line_ok_snoc. split; [done|]. intros v i [= <-] Hi.
           apply Hrep in Hi as (idxs' & Hl & Hi). congruence.
        -- exists b. rewrite length_app, Nat.add_1_r in Hb.
           by rewrite <- app_assoc in Hiff.
Qed.

Lemma scan_line_ok (l : list cell) :
  ∃ b, scan_line (Ret <$> l) 0 ∅ = Ret b ∧ (b = true ↔ line_ok l).
Proof.
  apply (scan_line_spec l [] ∅); [apply prev_rep_empty|].
  intros p1 p2 v H. by rewrite lookup_nil in H.
Qed.

(** ** Rows and columns as lines *)

Lemma row_ok_line (g : grid) row r : g !! row = Some r → (row_ok g row ↔ line_ok r).
Proof.
  intros Hr. unfold row_ok, line_ok, cell_at. simpl. rewrite Hr. done.
Qed.

Lemma column_reads (g : grid) col :
  has_column g col → (λ r', index r' col) <$> g = Ret <$> column g col.
Proof.
  unfold has_column, column. induction 1 as [|r g Hr _ IH]; [done|].
  simpl. f_equal; [|done].
  destruct (lookup_lt_is_Some_2 r col Hr) as [c Hc].
  by rewrite (index_Ret _ _ _ Hc), Hc.
Qed.

Lemma column_lookup (g : grid) col i c :
  has_column g col → (column g col !! i = Some c ↔ cell_at g (i, col) = Some c).
Proof.
  intros Hcol. unfold column, cell_at. simpl. rewrite list_lookup_fmap.
  destruct (g !! i) as [r|] eqn:Hr; simpl; [|done].
  destruct (lookup_lt_is_Some_2 r col) as [c' Hc'].
  { unfold has_column in Hcol. rewrite Forall_forall in Hcol.
    apply Hcol. by eapply list_elem_of_lookup_2. }
  rewrite Hc'. done.
Qed.

Lemma col_ok_line (g : grid) col : has_column g col → (col_ok g col ↔ line_ok (column g col)).
Proof.
  intros Hcol. unfold col_ok, line_ok. split.
  - intros H p1 p2 v H1 H2. apply H; by apply column_lookup.
  - intros H r1 r2 v H1 H2. apply H; by apply column_lookup.
Qed.

(** ** The region scan *)

Lemma region_values_cons_num (g : grid) sq rg n :
  cell_at g sq = Some (Num n) → region_values g (sq :: rg) = n :: region_values g rg.
Proof. unfold region_values. simpl. by intros ->. Qed.

Lemma region_values_cons_dot (g : grid) sq rg :
  cell_at g sq = Some Empty → region_values g (sq :: rg) = region_values g rg.
Proof. unfold region_values. simpl. by intros ->. Qed.

Lemma region_scan_spec p rg : ∀ seen,
  Forall (on_grid (puzzle p)) rg →
  ∃ b, region_scan p rg seen = Ret b
       ∧ (b = true ↔ NoDup (region_values (puzzle p) rg)
                      ∧ ∀ n, n ∈ region_values (puzzle p) rg → n ∉ seen).
Proof.
  induction rg as [|sq rg IH]; intros seen Hon.
  - exists true. split; [done|]. split; [|done]. intros _. split; [constructor|].
    intros n Hn. by apply elem_of_nil in Hn.
  - apply Forall_cons in Hon as [[c Hc] Hon]. destruct c as [|n].
    + rewrite (region_values_cons_dot _ _ _ Hc). simpl.
      rewrite (get_cell_at _ _ _ Hc). simpl. by apply IH.
    + rewrite (region_values_cons_num _ _ _ _ Hc). simpl.
      rewrite (get_cell_at _ _ _ Hc). simpl.
      destruct (decide (n ∈ seen)) as [Hin|Hnin].
      * exists false. split; [done|]. split; [done|]. intros [_ H].
        exfalso. apply (H n); [by left|done].
      * destruct (IH ({[n]} ∪ seen) Hon) as (b & Hb & Hiff).
        exists b. split; [done|]. rewrite Hiff, NoDup_cons. split.
        -- intros [Hnd Hnot]. split; [split; [|done]|].
           ++ intros Hn. apply (Hnot n Hn). set_solver.
           ++ intros m [->|Hm]%elem_of_cons; [done|].
              specialize (Hnot m Hm). set_solver.
        -- intros [[Hn Hnd] Hnot]. split; [done|]. intros m Hm.
           assert (m ≠ n) by (intros ->; done).
           specialize (Hnot m). set_solver.
Qed.

Lemma is_region_valid_spec p rg :
  Forall (on_grid (puzzle p)) rg →
  ∃ b, is_region_valid p (Some rg) = Ret b ∧ (b = true ↔ region_ok (puzzle p) rg).
Proof.
  intros Hon. destruct (region_scan_spec p rg ∅ Hon) as (b & Hb & Hiff).
  exists b. split; [done|]. rewrite Hiff. unfold region_ok. set_solver.
Qed.

(** ** [is_valid] *)

Lemma is_valid_lines p row col :
  (row < length (puzzle p))%nat → has_column (puzzle p) col →
  ∃ b, is_valid p row col false = Ret b
       ∧ (b = true ↔ row_ok (puzzle p) row ∧ col_ok (puzzle p) col).
Proof.
  intros Hrow Hcol. unfold is_valid.
  destruct (lookup_lt_is_Some_2 _ _ Hrow) as [r Hr].
  rewrite (index_Ret _ _ _ Hr). simpl.
  destruct (scan_line_ok r) as (b1 & -> & H1). simpl.
  pose proof (row_ok_line _ _ _ Hr) as Hrl.
  pose proof (col_ok_line _ _ Hcol) as Hcl.
  destruct b1; simpl; [|exists false; split; [done|]; intuition congruence].
  rewrite (column_reads _ _ Hcol).
  destruct (scan_line_ok (column (puzzle p) col)) as (b2 & -> & H2). simpl.
  destruct b2; simpl; [exists true|exists false];
    (split; [done|]); intuition congruence.
Qed.

Lemma is_valid_full p row col :
  (row < length (puzzle p))%nat → has_column (puzzle p) col →
  (∀ rg, get_region p (row, col) = Some rg → Forall (on_grid (puzzle p)) rg) →
  ∃ b, is_valid p row col true = Ret b
       ∧ (b = true ↔ row_ok (puzzle p) row ∧ col_ok (puzzle p) col
                      ∧ ∃ rg, get_region p (row, col) = Some rg
                              ∧ region_ok (puzzle p) rg).
Proof.
  intros Hrow Hcol Hreg.
  destruct (is_valid_lines p row col Hrow Hcol) as (b & Hb & Hiff).
  unfold is_valid in *.
  destruct (index (puzzle p) row) as [r| |]; simpl in *; try discriminate.
  destruct (scan_line (Ret <$> r) 0 ∅) as [b1| |]; simpl in *; try discriminate.
  destruct b1; simpl in *;
    [|exists false; split; [done|]; simplify_eq; intuition congruence].
  destruct (scan_line _ 0 ∅) as [b2| |]; simpl in *; try discriminate.
  destruct b2; simpl in *;
    [|exists false; split; [done|]; simplify_eq; intuition congruence].
  simplify_eq. destruct (get_region p (row, col)) as [rg|] eqn:Hrg.
  - destruct (is_region_valid_spec p rg (Hreg rg eq_refl)) as (b & -> & Hb).
    exists b. split; [done|]. rewrite Hb. split.
    + intros Hok. split_and!; [tauto|tauto|eauto].
    + intros (_ & _ & rg' & [= <-] & Hok). done.
  - exists false. split; [done|]. split; [done|].
    intros (_ & _ & rg' & [=] & _).
Qed.

(** C7: [is_valid] accepts exactly when the row [row] and the column
    [col] satisfy the separation rule (equal placed values at positions
    [p1 < p2] have [p2 - p1 > value]) and, when [check_region] is set, the
    square has a region and that region holds no value twice; a square
    without a region is rejected. *)
Theorem is_valid_spec p row col check_region :
  (row < length (puzzle p))%nat →
  has_column (puzzle p) col →
  (∀ rg, get_region p (row, col) = Some rg → Forall (on_grid (puzzle p)) rg) →
  ∃ b, is_valid p row col check_region = Ret b
       ∧ (b = true ↔
            row_ok (puzzle p) row ∧ col_ok (puzzle p) col
            ∧ (check_region = true →
               ∃ rg, get_region p (row, col) = Some rg
                     ∧ region_ok (puzzle p) rg))
       ∧ (check_region = true → get_region p (row, col) = None → b = false).
Proof.
  intros Hrow Hcol Hreg. destruct check_region.
  - destruct (is_valid_full p row col Hrow Hcol Hreg) as (b & Hb & Hiff).
    exists b. split; [done|]. split.
    + rewrite Hiff. split; [intros (? & ? & ?); by split_and!|].
      intros (? & ? & H); split_and!; [done|done|by apply H].
    + intros _ Hnone. destruct b; [|done].
      destruct Hiff as [Hiff _]. destruct (Hiff eq_refl) as (_ & _ & rg & ? & _).
      congruence.
  - destruct (is_valid_lines p row col Hrow Hcol) as (b & Hb & Hiff).
    exists b. split; [done|]. split; [|done]. rewrite Hiff.
    split; [intros [? ?]; by split_and!|]. intros (? & ? & _). done.
Qed.

(** ** [test] and [backtrack] *)

Lemma has_column_store (g : grid) row col c v r :
  g !! row = Some r → has_column g c → has_column (<[row := <[col := v]> r]> g) c.
Proof.
  unfold has_column. rewrite !Forall_forall. intros Hr H r' Hin.
  apply list_elem_of_lookup in Hin as [i Hi].
  destruct (decide (i = row)) as [->|Hne].
  - rewrite list_lookup_insert_eq in Hi by (by eapply lookup_lt_Some).
    simplify_eq. rewrite length_insert. apply H. by eapply list_elem_of_lookup_2.
  - rewrite list_lookup_insert_ne in Hi by done.
    apply H. by eapply list_elem_of_lookup_2.
Qed.

Lemma on_grid_store (g : grid) row col v r sq :
  g !! row = Some r → on_grid g sq → on_grid (<[row := <[col := v]> r]> g) sq.
Proof.
  intros Hr [c Hc]. unfold on_grid.
  destruct (decide (sq = (row, col))) as [->|Hne].
  - exists v. apply cell_at_store_eq; [done|].
    unfold cell_at in Hc. simpl in Hc. rewrite Hr in Hc. by eapply lookup_lt_Some.
  - rewrite cell_at_store_ne by done. by exists c.
Qed.

Lemma with_grid_same p : with_grid p (puzzle p) = p.
Proof. by destruct p. Qed.

(** C5: [test] stages [num] into the cell and checks the row, the column
    and the region of the staged grid; when they are valid it keeps the
    value, takes one off [empty_slots_left] and answers true; otherwise it
    puts the previous value back, leaves [empty_slots_left] alone and
    answers false. *)
Theorem test_spec p row col num old :
  cell_at (puzzle p) (row, col) = Some old →
  has_column (puzzle p) col →
  (∀ rg, get_region p (row, col) = Some rg → Forall (on_grid (puzzle p)) rg) →
  ∃ staged b,
    store (puzzle p) row col (Num num) = Ret staged
    ∧ cell_at staged (row, col) = Some (Num num)
    ∧ (∀ sq, sq ≠ (row, col) → cell_at staged sq = cell_at (puzzle p) sq)
    ∧ (b = true ↔
         row_ok staged row ∧ col_ok staged col
         ∧ ∃ rg, get_region p (row, col) = Some rg ∧ region_ok staged rg)
    ∧ test p row col num
      = Ret (b, if b then with_slots (with_grid p staged) (empty_slots_left p - 1)
                else p).
Proof.
  intros Hold Hcol Hreg.
  destruct (store_cell_at _ _ _ (Num num) _ Hold) as (r & Hr & Hstore).
  assert (col < length r)%nat as Hlen.
  { unfold cell_at in Hold. simpl in Hold. rewrite Hr in Hold.
    by eapply lookup_lt_Some. }
  set (staged := <[row := <[col := Num num]> r]> (puzzle p)) in *.
  destruct (is_valid_full (with_grid p staged) row col) as (b & Hb & Hiff).
  { simpl. unfold staged. rewrite length_insert. by eapply lookup_lt_Some. }
  { simpl. by apply has_column_store. }
  { simpl. intros rg Hrg. eapply Forall_impl; [by apply Hreg|].
    intros sq. by apply on_grid_store. }
  exists staged, b. split; [done|]. split; [by apply cell_at_store_eq|].
  split; [intros sq Hne; by apply cell_at_store_ne|]. split; [done|].
  unfold test. rewrite (get_cell_at _ _ _ Hold). simpl. rewrite Hstore. simpl.
  fold staged. rewrite Hb. simpl. destruct b; [done|].
  assert (staged !! row = Some (<[col := Num num]> r)) as Hr'.
  { unfold staged. apply list_lookup_insert_eq. by eapply lookup_lt_Some. }
  unfold store. simpl. rewrite (index_Ret _ _ _ Hr'). simpl.
  rewrite (index_Ret (<[col := Num num]> r) col (Num num))
    by (by apply list_lookup_insert_eq).
  simpl. unfold staged. rewrite store_overwrite by done.
  unfold cell_at in Hold. simpl in Hold. rewrite Hr in Hold.
  rewrite (store_same_grid _ _ _ _ _ Hr Hold).
  destruct p; done.
Qed.

Lemma backtrack_spec p row col old :
  cell_at (puzzle p) (row, col) = Some old →
  ∃ r, puzzle p !! row = Some r
       ∧ backtrack p row col
         = Ret (with_slots (with_grid p (<[row := <[col := Empty]> r]> (puzzle p)))
                           (empty_slots_left p + 1)).
Proof.
  intros Hold. destruct (store_cell_at _ _ _ Empty _ Hold) as (r & Hr & Hstore).
  exists r. split; [done|]. unfold backtrack. by rewrite Hstore.
Qed.

(** C6, as the code has it: on an empty cell, a [test] that accepts
    followed by [backtrack] on the same cell gives back the state before
    the pair (grid and [empty_slots_left]); [backtrack] on its own empties
    the cell, touches no other cell and adds exactly one to
    [empty_slots_left]. *)
Theorem test_backtrack_roundtrip p row col num p1 :
  cell_at (puzzle p) (row, col) = Some Empty →
  test p row col num = Ret (true, p1) →
  backtrack p1 row col = Ret p
  ∧ ∀ q old, cell_at (puzzle q) (row, col) = Some old →
      ∃ q', backtrack q row col = Ret q'
            ∧ cell_at (puzzle q') (row, col) = Some Empty
            ∧ (∀ sq, sq ≠ (row, col) → cell_at (puzzle q') sq = cell_at (puzzle q) sq)
            ∧ empty_slots_left q' = empty_slots_left q + 1.
Proof.
  intros Hold Htest. split.
  - destruct (store_cell_at _ _ _ (Num num) _ Hold) as (r & Hr & Hstore).
    unfold test in Htest. rewrite (get_cell_at _ _ _ Hold) in Htest.
    simpl in Htest. rewrite Hstore in Htest. simpl in Htest.
    destruct (is_valid _ row col true) as [[]| |]; simpl in Htest; try discriminate.
    { injection Htest as <-. unfold backtrack, store. simpl.
      assert (col < length r)%nat as Hlen.
      { unfold cell_at in Hold. simpl in Hold. rewrite Hr in Hold.
        by eapply lookup_lt_Some. }
      rewrite (index_Ret _ row (<[col := Num num]> r))
        by (apply list_lookup_insert_eq; by eapply lookup_lt_Some).
      simpl. rewrite (index_Ret (<[col := Num num]> r) col (Num num))
        by (by apply list_lookup_insert_eq).
      simpl. rewrite store_overwrite by done.
      unfold cell_at in Hold. simpl in Hold. rewrite Hr in Hold.
      rewrite (store_same_grid _ _ _ _ _ Hr Hold).
      destruct p. unfold with_slots, with_grid. simpl. do 2 f_equal. lia. }
    destruct (store _ row col Empty) as [g2| |]; simpl in Htest; discriminate.
  - intros q old Hq. destruct (backtrack_spec q row col old Hq) as (r & Hr & ->).
    eexists. split; [done|]. simpl.
    assert (col < length r)%nat as Hlen.
    { unfold cell_at in Hq. simpl in Hq. rewrite Hr in Hq. by eapply lookup_lt_Some. }
    split; [by apply cell_at_store_eq|]. split; [|done].
    intros sq Hne. by apply cell_at_store_ne.
Qed.

Lemma is_valid_spec_witness :
  ∃ b, is_valid puzzle_2x2 0 1 true = Ret b
       ∧ (b = true ↔
            row_ok (puzzle puzzle_2x2) 0 ∧ col_ok (puzzle puzzle_2x2) 1
            ∧ (true = true →
               ∃ rg, get_region puzzle_2x2 (0, 1)%nat = Some rg
                     ∧ region_ok (puzzle puzzle_2x2) rg))
       ∧ (true = true → get_region puzzle_2x2 (0, 1)%nat = None → b = false).
Proof.
  apply (is_valid_spec puzzle_2x2 0 1 true).
  - simpl. lia.
  - repeat constructor.
  - intros rg Hrg. vm_compute in Hrg. injection Hrg as <-.
    repeat constructor; eexists; reflexivity.
Defined.

Lemma test_spec_witness :
  ∃ staged b,
    store (puzzle puzzle_2x2) 0 1 (Num 2) = Ret staged
    ∧ cell_at staged (0, 1)%nat = Some (Num 2)
    ∧ (∀ sq, sq ≠ (0, 1)%nat → cell_at staged sq = cell_at (puzzle puzzle_2x2) sq)
    ∧ (b = true ↔
         row_ok staged 0 ∧ col_ok staged 1
         ∧ ∃ rg, get_region puzzle_2x2 (0, 1)%nat = Some rg ∧ region_ok staged rg)
    ∧ test puzzle_2x2 0 1 2
      = Ret (b, if b then with_slots (with_grid puzzle_2x2 staged)
                                     (empty_slots_left puzzle_2x2 - 1)
                else puzzle_2x2).
Proof.
  apply (test_spec puzzle_2x2 0 1 2 Empty).
  - reflexivity.
  - repeat constructor.
  - intros rg Hrg. vm_compute in Hrg. injection Hrg as <-.
    repeat constructor; eexists; reflexivity.
Defined.

Lemma test_backtrack_roundtrip_witness :
  backtrack (with_slots (with_grid puzzle_2x2 [[Empty; Num 2]; [Empty; Num 1]]) 2)
            0 1 = Ret puzzle_2x2
  ∧ ∀ q old, cell_at (puzzle q) (0, 1)%nat = Some old →
      ∃ q', backtrack q 0 1 = Ret q'
            ∧ cell_at (puzzle q') (0, 1)%nat = Some Empty
            ∧ (∀ sq, sq ≠ (0, 1)%nat → cell_at (puzzle q') sq = cell_at (puzzle q) sq)
            ∧ empty_slots_left q' = empty_slots_left q + 1.
Proof.
  apply (test_backtrack_roundtrip puzzle_2x2 0 1 2).
  - reflexivity.
  - vm_compute. reflexivity.
Defined.

(** The round trip fails as soon as one of the two side conditions is
    dropped: after a rejected [test], [backtrack] still adds one to
    [empty_slots_left]; on a cell that was filled, an accepted [test]
    followed by [backtrack] leaves the cell empty. *)
Lemma test_backtrack_not_roundtrip :
  (test puzzle_1x2_half 0 1 1 = Ret (false, puzzle_1x2_half)
   ∧ ∃ p2, backtrack puzzle_1x2_half 0 1 = Ret p2
           ∧ empty_slots_left puzzle_1x2_half = 1
           ∧ empty_slots_left p2 = 2)
  ∧ (∃ p1 p2, test puzzle_1x2_half 0 0 1 = Ret (true, p1)
              ∧ backtrack p1 0 0 = Ret p2
              ∧ puzzle puzzle_1x2_half = [[Num 1; Empty]]
              ∧ puzzle p2 = [[Empty; Empty]]).
Proof.
  split.
  - split; [vm_compute; reflexivity|]. eexists. split; [vm_compute; reflexivity|].
    split; reflexivity.
  - eexists _, _. split; [vm_compute; reflexivity|].
    split; [vm_compute; reflexivity|]. split; reflexivity.
Qed.

(** ** The solved check on a fully given board *)

(** C2 at a concrete board: [is_solved] pairs row [r] with column
    [r mod width], so on a board wider than high the columns from
    [height] on are never checked.  The 2 x 3 board below is accepted
    although its third column holds 1 directly above 1. *)
Theorem is_solved_misses_column :
  is_solved puzzle_2x3_full = Ret (true, with_solved puzzle_2x3_full true)
  ∧ cell_at (puzzle puzzle_2x3_full) (0, 2)%nat = Some (Num 1)
  ∧ cell_at (puzzle puzzle_2x3_full) (1, 2)%nat = Some (Num 1)
  ∧ ¬ col_ok (puzzle puzzle_2x3_full) 2.
Proof.
  split; [vm_compute; reflexivity|]. split; [reflexivity|]. split; [reflexivity|].
  intros H. specialize (H 0%nat 1%nat 1 eq_refl eq_refl). lia.
Qed.

(** ** The solvers on the small boards *)

(** C1 at a concrete board: the search is exhausted on the two-cell board
    (no value fits the second cell), and both [solve] variants hand back
    the puzzle object, not [None]; the object is unsolved. *)
Theorem solve_exhausted_returns_puzzle (k : nat) :
  let p' := with_slots puzzle_1x2_empty 3 in
  BruteForce.solve (3 + k) puzzle_1x2_empty false = Ret (Plain (Some p'))
  ∧ Heuristic.solve elements (3 + k) puzzle_1x2_empty false = Ret (Plain (Some p'))
  ∧ is_solved p' = Ret (false, p').
Proof.
  split; [vm_compute; reflexivity|]. split; vm_compute; reflexivity.
Qed.

(** C4 at a concrete board: the brute-force run on the two-cell board
    ends with both cells empty and [empty_slots_left] at 3. *)
Theorem empty_slots_left_drifts (k : nat) :
  ∃ p', BruteForce.solve_rec (3 + k) puzzle_1x2_empty 0 0 0 = Ret (p', 2%nat)
        ∧ puzzle p' = [[Empty; Empty]]
        ∧ count_empty (puzzle p') = 2
        ∧ empty_slots_left p' = 3.
Proof.
  eexists. split; [vm_compute; reflexivity|]. split; [reflexivity|].
  split; reflexivity.
Qed.

(** C10 at a concrete board: on the fully given board with two
    conflicting clues the search walks past the last row, [is_solved]
    answers false, and the read of [puzzle[row]] raises [IndexError]. *)
Theorem solve_rec_reads_past_last_row (k : nat) :
  is_solved puzzle_1x2_ones = Ret (false, puzzle_1x2_ones)
  ∧ BruteForce.solve_rec (3 + k) puzzle_1x2_ones 0 0 0 = Raise IndexError.
Proof. split; vm_compute; reflexivity. Qed.

(** ** The work list of the heuristic solver *)

Section WorkList.
Import Heuristic.

Lemma key_lt_true_le a b : key_lt a b = true → entry_le a b.
Proof.
  unfold key_lt, entry_lt, square_lt, entry_le. intros H.
  apply orb_true_iff in H as [H|H].
  - left. by apply Nat.ltb_lt.
  - apply andb_true_iff in H as [Hs H]. apply Nat.eqb_eq in Hs. right.
    split; [done|]. apply orb_true_iff in H as [H|H].
    + apply orb_true_iff in H as [H|H].
      * left. by apply Nat.ltb_lt.
      * apply andb_true_iff in H as [H1 H2]. apply Nat.eqb_eq in H1.
        apply Nat.ltb_lt in H2. right. lia.
    + apply andb_true_iff in H as [H _]. apply bool_decide_eq_true in H.
      right. rewrite H. lia.
Qed.

Lemma key_lt_false_le a b : key_lt a b = false → entry_le b a.
Proof.
  unfold key_lt, entry_lt, square_lt, entry_le. intros H.
  apply orb_false_iff in H as [H1 H2]. apply Nat.ltb_ge in H1.
  destruct (decide (size b.2 = size a.2)) as [Heq|Hne]; [|left; lia].
  right. split; [done|]. rewrite Heq, Nat.eqb_refl in H2. simpl in H2.
  apply orb_false_iff in H2 as [H2 _]. apply orb_false_iff in H2 as [H2 H3].
  apply Nat.ltb_ge in H2.
  destruct (decide (b.1.1 = a.1.1)) as [Heq1|Hne1]; [|left; lia].
  right. split; [done|]. rewrite Heq1, Nat.eqb_refl in H3. simpl in H3.
  apply Nat.ltb_ge in H3. done.
Qed.

Lemma insert_sorted_perm x l : insert_sorted x l ≡ₚ x :: l.
Proof.
  induction l as [|y l IH]; simpl; [done|].
  destruct (key_lt y x); [|done]. rewrite IH. apply Permutation_swap.
Qed.

Lemma sorted_perm l : sorted l ≡ₚ l.
Proof.
  induction l as [|x l IH]; simpl; [done|].
  by rewrite insert_sorted_perm, IH.
Qed.

Lemma insert_sorted_HdRel y x l :
  entry_le y x → HdRel entry_le y l → HdRel entry_le y (insert_sorted x l).
Proof.
  intros Hyx Hhd. destruct l as [|z l]; simpl; [by constructor|].
  apply HdRel_inv in Hhd. destruct (key_lt z x); by constructor.
Qed.

Lemma insert_sorted_Sorted x l :
  Sorted entry_le l → Sorted entry_le (insert_sorted x l).
Proof.
  induction 1 as [|y l Hs IH Hhd]; simpl; [by repeat constructor|].
  destruct (key_lt y x) eqn:Hlt.
  - constructor; [done|]. apply insert_sorted_HdRel; [|done].
    by apply key_lt_true_le.
  - constructor; [by constructor|]. constructor. by apply key_lt_false_le.
Qed.

Lemma sorted_Sorted l : Sorted entry_le (sorted l).
Proof.
  induction l as [|x l IH]; simpl; [constructor|]. by apply insert_sorted_Sorted.
Qed.

Lemma narrow_square row col value rs e : (narrow row col value rs e).1 = e.1.
Proof. done. Qed.

Lemma narrow_subseteq row col value rs e : (narrow row col value rs e).2 ⊆ e.2.
Proof. unfold narrow. simpl. repeat case_match; set_solver. Qed.

Lemma update_remaining_inv remaining row col value p l' :
  update_remaining remaining row col value p = Ret l' →
  ∃ rg, get_region p (row, col) = Some rg
        ∧ l' = sorted (narrow row col value (list_to_set rg) <$> remaining).
Proof.
  unfold update_remaining. destruct (get_region p (row, col)) as [rg|]; simpl;
    [|discriminate].
  intros [= <-]. eauto.
Qed.

(** C9: every work list handed to the search step is ordered by
    candidate-set size and then by square in row-major order; a narrowed
    list holds the same squares as the list it was built from, each with
    a subset of its former candidates. *)
Theorem work_list_sorted p0 l :
  passed_down p0 l →
  Sorted entry_le l
  ∧ ∀ row col value p l',
      update_remaining (drop 1 l) row col value p = Ret l' →
      Sorted entry_le l'
      ∧ l'.*1 ≡ₚ (drop 1 l).*1
      ∧ ∀ e', e' ∈ l' → ∃ e, e ∈ drop 1 l ∧ e'.1 = e.1 ∧ e'.2 ⊆ e.2.
Proof.
  intros Hpd. split.
  - destruct Hpd as [l Hinit|l row col value p l' _ Hupd].
    + unfold initial_remaining in Hinit.
      destruct (preprocess p0); simpl in Hinit; try discriminate.
      injection Hinit as <-. apply sorted_Sorted.
    + apply update_remaining_inv in Hupd as (rg & _ & ->). apply sorted_Sorted.
  - intros row col value p l' Hupd.
    apply update_remaining_inv in Hupd as (rg & _ & ->).
    split; [apply sorted_Sorted|]. split.
    + rewrite sorted_perm, <- list_fmap_compose. done.
    + intros e' He'. rewrite sorted_perm in He'.
      apply list_elem_of_fmap in He' as (e & -> & He).
      exists e. split; [done|]. split; [done|]. apply narrow_subseteq.
Qed.

End WorkList.

(** ** Loops and dictionaries of the preprocessing *)

Import Heuristic.

Lemma for_each_app {A S} (l1 l2 : list A) (body : A → S → res S) s :
  for_each (l1 ++ l2) body s = (s' ←! for_each l1 body s; for_each l2 body s').
Proof.
  revert s. induction l1 as [|x l1 IH]; intros s; simpl; [done|].
  destruct (body x s); simpl; [apply IH|done|done].
Qed.

Lemma for_each_ext {A S} (l : list A) (body body' : A → S → res S) s :
  (∀ x s, x ∈ l → body x s = body' x s) →
  for_each l body s = for_each l body' s.
Proof.
  revert s. induction l as [|x l IH]; intros s Hext; simpl; [done|].
  rewrite Hext by (by left). destruct (body' x s); simpl; [|done|done].
  apply IH. intros y s' Hy. apply Hext. by right.
Qed.

Lemma for_each_concat {A B S} (l : list A) (f : A → list B)
    (body : B → S → res S) s :
  for_each l (λ x s, for_each (f x) body s) s = for_each (concat (f <$> l)) body s.
Proof.
  revert s. induction l as [|x l IH]; intros s; simpl; [done|].
  rewrite for_each_app. destruct (for_each (f x) body s); simpl; [apply IH|done|done].
Qed.

(** A loop keeps an invariant that its body keeps. *)
Lemma for_each_inv {A S} (I : S → Prop) (l : list A) (body : A → S → res S) s :
  (∀ x s, x ∈ l → I s → ∃ s', body x s = Ret s' ∧ I s') →
  I s → ∃ s', for_each l body s = Ret s' ∧ I s'.
Proof.
  revert s. induction l as [|x l IH]; intros s Hbody Hs; simpl; [eauto|].
  destruct (Hbody x s) as (s1 & -> & Hs1); [by left|done|]. simpl.
  apply IH; [|done]. intros y s' Hy. apply Hbody. by right.
Qed.

(** The same with an invariant that knows which items were processed. *)
Lemma for_each_ind {A S} (I : list A → S → Prop) (l : list A)
    (body : A → S → res S) s :
  (∀ pre x post s, l = pre ++ x :: post → I pre s →
     ∃ s', body x s = Ret s' ∧ I (pre ++ [x]) s') →
  I [] s → ∃ s', for_each l body s = Ret s' ∧ I l s'.
Proof.
  intros Hbody. assert (∀ post pre s, l = pre ++ post → I pre s →
    ∃ s', for_each post body s = Ret s' ∧ I l s') as Hgen.
  { induction post as [|x post IH]; intros pre s' Hl Hs'.
    - rewrite app_nil_r in Hl. subst. simpl. eauto.
    - simpl. destruct (Hbody pre x post s' Hl Hs') as (s1 & -> & Hs1). simpl.
      apply (IH (pre ++ [x])); [|done]. by rewrite <- app_assoc. }
  intros Hs. by apply (Hgen l []).
Qed.

Lemma dict_get_set_eq {K V} `{EqDecision K} (d : list (K * V)) k v :
  dict_get (dict_set d k v) k = Some v.
Proof.
  induction d as [|[k' v'] d IH]; simpl.
  - by rewrite decide_True.
  - destruct (decide (k = k')) as [->|Hne]; simpl.
    + by rewrite decide_True.
    + by rewrite decide_False.
Qed.

Lemma dict_get_set_ne {K V} `{EqDecision K} (d : list (K * V)) k k' v :
  k ≠ k' → dict_get (dict_set d k v) k' = dict_get d k'.
Proof.
  intros Hne. induction d as [|[k1 v1] d IH]; simpl.
  - by rewrite decide_False.
  - destruct (decide (k = k1)) as [->|Hne1]; simpl.
    + by rewrite !decide_False.
    + destruct (decide (k' = k1)); done.
Qed.

Lemma dict_set_keys {K V} `{EqDecision K} (d : list (K * V)) k v k' :
  k' ∈ (dict_set d k v).*1 ↔ k' = k ∨ k' ∈ d.*1.
Proof.
  induction d as [|[k1 v1] d IH]; simpl.
  - set_solver.
  - destruct (decide (k = k1)) as [->|Hne]; simpl; set_solver.
Qed.

Lemma dict_set_NoDup {K V} `{EqDecision K} (d : list (K * V)) k v :
  NoDup d.*1 → NoDup (dict_set d k v).*1.
Proof.
  induction d as [|[k1 v1] d IH]; simpl; intros Hnd.
  - apply NoDup_singleton.
  - apply NoDup_cons in Hnd as [Hk1 Hnd].
    destruct (decide (k = k1)) as [->|Hne]; simpl.
    + by apply NoDup_cons.
    + apply NoDup_cons. split; [|by apply IH].
      rewrite dict_set_keys. naive_solver.
Qed.

Lemma dict_get_Some_elem {K V} `{EqDecision K} (d : list (K * V)) k v :
  dict_get d k = Some v → (k, v) ∈ d.
Proof.
  induction d as [|[k1 v1] d IH]; simpl; [done|].
  destruct (decide (k = k1)) as [->|Hne].
  - intros [= ->]. by left.
  - intros H. right. by apply IH.
Qed.

Lemma dict_elem_get {K V} `{EqDecision K} (d : list (K * V)) k v :
  NoDup d.*1 → (k, v) ∈ d → dict_get d k = Some v.
Proof.
  induction d as [|[k1 v1] d IH]; simpl; intros Hnd Hin.
  - by apply elem_of_nil in Hin.
  - apply NoDup_cons in Hnd as [Hk1 Hnd].
    apply elem_of_cons in Hin as [[= -> ->]|Hin].
    + by rewrite decide_True.
    + rewrite decide_False; [by apply IH|]. intros ->. apply Hk1.
      apply list_elem_of_fmap. by exists (k1, v).
Qed.

Lemma dict_get_is_Some {K V} `{EqDecision K} (d : list (K * V)) k :
  is_Some (dict_get d k) ↔ k ∈ d.*1.
Proof.
  induction d as [|[k1 v1] d IH]; simpl.
  - split; [by intros [? ?]|]. intros H. by apply elem_of_nil in H.
  - destruct (decide (k = k1)) as [->|Hne].
    + split; [intros _; by left|eauto].
    + rewrite IH. set_solver.
Qed.


(** Instantiate a loop rule with the loop of the goal. *)
Tactic Notation "loop_ind" uconstr(I) :=
  match goal with
  | |- context [for_each ?l ?body ?s] =>
      let H := fresh "Hloop" in
      pose proof (for_each_ind I l body s) as H; cbv beta in H
  end.

Tactic Notation "loop_inv" uconstr(I) :=
  match goal with
  | |- context [for_each ?l ?body ?s] =>
      let H := fresh "Hloop" in
      pose proof (for_each_inv I l body s) as H; cbv beta in H
  end.

Lemma for_each_fmap {A B S} (f : A → B) (l : list A) (body : B → S → res S) s :
  for_each (f <$> l) body s = for_each l (λ x, body (f x)) s.
Proof.
  revert s. induction l as [|x l IH]; intros s; simpl; [done|].
  destruct (body (f x) s); simpl; [apply IH|done|done].
Qed.

(** ** Squares of a well-formed board *)

Lemma cell_at_in_bounds p g sq :
  grid_dims p g → in_bounds p sq → is_Some (cell_at g sq).
Proof.
  intros [Hh Hw] [H1 H2]. unfold cell_at.
  destruct (lookup_lt_is_Some_2 g sq.1) as [r Hr]; [lia|]. rewrite Hr.
  apply lookup_lt_is_Some_2. rewrite Forall_forall in Hw.
  rewrite (Hw r); [done|]. by eapply list_elem_of_lookup_2.
Qed.

Lemma cell_at_bounds p g sq :
  grid_dims p g → is_Some (cell_at g sq) → in_bounds p sq.
Proof.
  intros [Hh Hw] [c Hc]. unfold cell_at in Hc.
  destruct (g !! sq.1) as [r|] eqn:Hr; [|done]. split.
  - rewrite <- Hh. by eapply lookup_lt_Some.
  - rewrite Forall_forall in Hw. rewrite <- (Hw r).
    + by eapply lookup_lt_Some.
    + by eapply list_elem_of_lookup_2.
Qed.

Lemma grid_dims_has_column p g col :
  grid_dims p g → (col < width p)%nat → has_column g col.
Proof.
  intros [_ Hw] Hcol. unfold has_column. eapply Forall_impl; [done|].
  simpl. intros r ->. done.
Qed.

Lemma wf_dims p : well_formed p → grid_dims p (puzzle p).
Proof. by intros (_ & H & _). Qed.

Lemma wf_region_sq p rg sq :
  well_formed p → rg ∈ regions p → sq ∈ rg →
  in_bounds p sq ∧ region_map p !! sq = Some rg.
Proof.
  intros (_ & _ & Hr & _) Hrg Hsq. rewrite Forall_forall in Hr.
  destruct (Hr rg Hrg) as [_ Hall]. rewrite Forall_forall in Hall. by apply Hall.
Qed.

Lemma wf_region_NoDup p rg : well_formed p → rg ∈ regions p → NoDup rg.
Proof.
  intros (_ & _ & Hr & _) Hrg. rewrite Forall_forall in Hr. by apply Hr.
Qed.

Lemma wf_map p sq rg :
  well_formed p → region_map p !! sq = Some rg → rg ∈ regions p ∧ sq ∈ rg.
Proof. intros (_ & _ & _ & Hm & _) Hsq. by apply (Hm sq rg). Qed.

Lemma wf_cover p sq :
  well_formed p → in_bounds p sq → is_Some (region_map p !! sq).
Proof.
  intros (_ & _ & _ & _ & Hc) [H1 H2]. rewrite Forall_forall in Hc.
  specialize (Hc sq.1). rewrite elem_of_seq in Hc.
  specialize (Hc ltac:(lia)). rewrite Forall_forall in Hc.
  specialize (Hc sq.2). rewrite elem_of_seq in Hc.
  specialize (Hc ltac:(lia)). by destruct sq.
Qed.

Lemma wf_region_on_grid p rg :
  well_formed p → rg ∈ regions p → Forall (on_grid (puzzle p)) rg.
Proof.
  intros Hwf Hrg. apply Forall_forall. intros sq Hsq.
  eapply cell_at_in_bounds; [by apply wf_dims|].
  by eapply wf_region_sq.
Qed.

(** ** The preprocessing of the heuristic solver *)

Lemma fill_cols_init (l : list nat) (m : gmap nat (gset Z)) col :
  col ∈ l ∨ is_Some (m !! col) →
  is_Some (foldl (λ cols col, <[col := ∅]> cols) m l !! col).
Proof.
  revert m. induction l as [|x l IH]; intros m; simpl.
  - intros [H|H]; [by apply elem_of_nil in H|done].
  - intros H. apply IH. rewrite lookup_insert_is_Some.
    rewrite elem_of_cons in H. destruct (decide (x = col)); naive_solver.
Qed.

Lemma fill_rows_cols_ok p : well_formed p → ∃ x, fill_rows_cols p = Ret x.
Proof.
  intros Hwf. unfold fill_rows_cols.
  set (cols_ok := λ cols : gmap nat (gset Z),
         ∀ col, (col < width p)%nat → is_Some (cols !! col)).
  edestruct (for_each_inv (λ s : gmap nat (gset Z) * gmap nat (gset Z), cols_ok s.2)
               (seq 0 (height p))) as (s' & Hs' & _); [| |by eauto].
  - intros row [rows cols] Hrow Hcols. simpl in Hcols.
    apply elem_of_seq in Hrow.
    edestruct (for_each_inv
      (λ s : gmap nat (gset Z) * gmap nat (gset Z),
         is_Some (s.1 !! row) ∧ cols_ok s.2)
      (seq 0 (width p))) as (s' & Hs' & _ & Hc); [| |by eauto].
    + intros col [rows' cols'] Hcol [Hr Hc]. simpl in Hr, Hc.
      apply elem_of_seq in Hcol.
      destruct (cell_at_in_bounds p (puzzle p) (row, col)) as [c Hcell];
        [by apply wf_dims|split; simpl; lia|].
      rewrite (get_cell_at _ _ _ Hcell). simpl. destruct c as [|n]; [by eauto|].
      destruct Hr as [rs Hrs]. destruct (Hc col) as [cs Hcs]; [lia|].
      unfold subscript. rewrite Hrs, Hcs. simpl. eexists. split; [done|]. simpl.
      split; [by rewrite lookup_insert_eq|].
      intros col' Hcol'. rewrite lookup_insert_is_Some.
      destruct (decide (col = col')); [by left|right; split; [done|by apply Hc]].
    + simpl. split; [by rewrite lookup_insert_eq|done].
  - simpl. intros col Hcol. apply fill_cols_init. left. apply elem_of_seq. lia.
Qed.

Lemma region_values_snoc (g : list (list cell)) rg sq :
  region_values g (rg ++ [sq])
  = region_values g rg ++ match cell_at g sq with
                          | Some (Num n) => [n]
                          | _ => []
                          end.
Proof.
  unfold region_values. rewrite omap_app. simpl.
  by destruct (cell_at g sq) as [[|n]|].
Qed.

Lemma region_numbers_spec p rg :
  Forall (on_grid (puzzle p)) rg →
  ∃ s, region_numbers p rg = Ret s
       ∧ ∀ x, x ∈ s ↔ x ∈ region_values (puzzle p) rg.
Proof.
  intros Hon. unfold region_numbers.
  apply (for_each_ind (λ pre (s : gset Z),
           ∀ x, x ∈ s ↔ x ∈ region_values (puzzle p) pre)).
  - intros pre sq post s Hrg Hs. rewrite Forall_forall in Hon.
    destruct (Hon sq) as [c Hc]; [rewrite Hrg; set_solver|].
    rewrite (get_cell_at _ _ _ Hc). simpl. eexists. split; [done|].
    intros x. rewrite region_values_snoc, Hc, elem_of_app.
    destruct c as [|n]; set_solver.
  - intros x. unfold region_values. simpl. set_solver.
Qed.

Lemma regions_dict_spec p :
  well_formed p →
  ∃ rd, regions_dict p = Ret rd
        ∧ NoDup rd.*1
        ∧ (∀ rg, rg ∈ rd.*1 ↔ rg ∈ regions p)
        ∧ (∀ rg used, (rg, used) ∈ rd →
             ∀ x, x ∈ used ↔ x ∈ region_values (puzzle p) rg).
Proof.
  intros Hwf. unfold regions_dict.
  loop_ind (λ pre (rd : list (list (nat * nat) * gset Z)),
      NoDup rd.*1 ∧ (∀ rg, rg ∈ rd.*1 ↔ rg ∈ pre)
      ∧ (∀ rg used, dict_get rd rg = Some used →
           ∀ x, x ∈ used ↔ x ∈ region_values (puzzle p) rg)).
  destruct Hloop as (rd & Hrd & Hnd & Hkeys & Hvals); [| |exists rd].
  - intros pre rg post rd Hsplit (Hnd & Hkeys & Hvals).
    destruct (region_numbers_spec p rg) as (s & -> & Hs).
    { apply wf_region_on_grid; [done|]. rewrite Hsplit. set_solver. }
    simpl. eexists. split; [done|]. split; [by apply dict_set_NoDup|]. split.
    + intros rg'. rewrite dict_set_keys, Hkeys. set_solver.
    + intros rg' used. destruct (decide (rg = rg')) as [<-|Hne].
      * rewrite dict_get_set_eq. by intros [= <-].
      * rewrite dict_get_set_ne by done. apply Hvals.
  - simpl. split; [constructor|]. split; [done|]. done.
  - split; [done|]. split; [done|]. split; [done|].
    intros rg used Hin. apply Hvals. by apply dict_elem_get.
Qed.

Lemma elem_of_range_set n x : x ∈ range_set n ↔ 1 ≤ x ≤ Z.of_nat n.
Proof.
  unfold range_set. rewrite elem_of_list_to_set, list_elem_of_fmap. split.
  - intros (k & -> & Hk). apply elem_of_seq in Hk. lia.
  - intros Hx. exists (Z.to_nat x). split; [lia|]. apply elem_of_seq. lia.
Qed.

Lemma remove_used_spec (possible used : gset Z) :
  used ⊆ possible →
  ∃ s, remove_used possible used = Ret s ∧ ∀ x, x ∈ s ↔ x ∈ possible ∧ x ∉ used.
Proof.
  intros Hsub. unfold remove_used.
  loop_ind (λ pre (poss : gset Z), ∀ x, x ∈ poss ↔ x ∈ possible ∧ x ∉ pre).
  destruct Hloop as (s & Hs & Hin); [| |exists s].
  - intros pre num post poss Hsplit Hposs.
    pose proof (NoDup_elements used) as Hnd. rewrite Hsplit in Hnd.
    apply NoDup_app in Hnd as (_ & Hdisj & _).
    assert (num ∈ used) as Hnum.
    { apply elem_of_elements. rewrite Hsplit. set_solver. }
    rewrite decide_True.
    + eexists. split; [done|]. intros x. rewrite elem_of_difference, Hposs.
      set_solver.
    + apply Hposs. split; [by apply Hsub|]. intros Hpre.
      apply (Hdisj num Hpre). by left.
  - set_solver.
  - split; [done|]. intros x. rewrite Hin, elem_of_elements. done.
Qed.

Lemma elem_of_region_values (g : list (list cell)) rg x :
  x ∈ region_values g rg ↔ ∃ sq, sq ∈ rg ∧ cell_at g sq = Some (Num x).
Proof.
  unfold region_values. rewrite list_elem_of_omap. split.
  - intros (sq & Hsq & Hc). exists sq. split; [done|].
    destruct (cell_at g sq) as [[|n]|]; naive_solver.
  - intros (sq & Hsq & Hc). exists sq. by rewrite Hc.
Qed.

Lemma seed_region_spec p rg used (d : list ((nat * nat) * rem_val)) :
  well_formed p → clues_in_range p → rg ∈ regions p →
  (∀ x, x ∈ used ↔ x ∈ region_values (puzzle p) rg) →
  NoDup d.*1 →
  (∀ sq v, dict_get d sq = Some v → seed_value p sq v) →
  ∃ d', seed_region p rg used d = Ret d'
        ∧ NoDup d'.*1
        ∧ (∀ sq v, dict_get d' sq = Some v → seed_value p sq v)
        ∧ (∀ sq, sq ∈ d'.*1 ↔ sq ∈ d.*1 ∨ sq ∈ rg).
Proof.
  intros Hwf Hclues Hrg Hused Hnd Hvals. unfold seed_region.
  destruct (remove_used_spec (range_set (length rg)) used) as (poss & -> & Hposs).
  { intros x Hx. apply elem_of_range_set. apply Hused in Hx.
    apply elem_of_region_values in Hx as (sq & Hsq & Hc).
    unfold clues_in_range in Hclues. rewrite Forall_forall in Hclues.
    specialize (Hclues rg Hrg). rewrite Forall_forall in Hclues.
    specialize (Hclues sq Hsq). by rewrite Hc in Hclues. }
  simpl.
  loop_ind (λ pre (d' : list ((nat * nat) * rem_val)),
      NoDup d'.*1
      ∧ (∀ sq v, dict_get d' sq = Some v → seed_value p sq v)
      ∧ (∀ sq, sq ∈ d'.*1 ↔ sq ∈ d.*1 ∨ sq ∈ pre)).
  apply Hloop; clear Hloop.
  - intros pre sq post d' Hsplit (Hnd' & Hvals' & Hkeys').
    assert (sq ∈ rg) as Hsq by (rewrite Hsplit; set_solver).
    destruct (wf_region_sq p rg sq Hwf Hrg Hsq) as [Hb Hmap].
    destruct (cell_at_in_bounds p (puzzle p) sq (wf_dims p Hwf) Hb) as [c Hc].
    rewrite (get_cell_at _ _ _ Hc). simpl.
    destruct c as [|n]; (eexists; split; [done|]);
      (split; [by apply dict_set_NoDup|]); (split;
        [|intros sq'; rewrite dict_set_keys, Hkeys'; set_solver]).
    + intros sq' v. destruct (decide (sq = sq')) as [<-|Hne].
      * rewrite dict_get_set_eq. intros [= <-]. unfold seed_value. rewrite Hc.
        exists rg, poss. split; [done|]. split; [done|]. intros x.
        rewrite Hposs, elem_of_range_set, Hused. done.
      * rewrite dict_get_set_ne by done. apply Hvals'.
    + intros sq' v. destruct (decide (sq = sq')) as [<-|Hne].
      * rewrite dict_get_set_eq. intros [= <-]. unfold seed_value. by rewrite Hc.
      * rewrite dict_get_set_ne by done. apply Hvals'.
  - split; [done|]. split; [done|]. set_solver.
Qed.

Lemma seed_spec p (rd : list (list (nat * nat) * gset Z)) :
  well_formed p → clues_in_range p →
  (∀ rg, rg ∈ rd.*1 ↔ rg ∈ regions p) →
  (∀ rg used, (rg, used) ∈ rd → ∀ x, x ∈ used ↔ x ∈ region_values (puzzle p) rg) →
  ∃ d, seed p rd = Ret d
       ∧ NoDup d.*1
       ∧ (∀ sq v, dict_get d sq = Some v → seed_value p sq v)
       ∧ (∀ sq, sq ∈ d.*1 ↔ in_bounds p sq).
Proof.
  intros Hwf Hclues Hkeys Hused. unfold seed.
  loop_ind (λ pre (d : list ((nat * nat) * rem_val)),
      NoDup d.*1
      ∧ (∀ sq v, dict_get d sq = Some v → seed_value p sq v)
      ∧ (∀ sq, sq ∈ d.*1 ↔ ∃ rg, rg ∈ pre.*1 ∧ sq ∈ rg)).
  destruct Hloop as (d & Hd & Hnd & Hvals & Hdk); [| |exists d].
  - intros pre [rg used] post d Hsplit (Hnd & Hvals & Hdk).
    assert ((rg, used) ∈ rd) as Hin by (rewrite Hsplit; set_solver).
    destruct (seed_region_spec p rg used d) as (d' & Hd' & Hnd' & Hvals' & Hdk');
      try done.
    { apply Hkeys. apply list_elem_of_fmap. by exists (rg, used). }
    { by apply Hused. }
    exists d'. split; [done|]. split; [done|]. split; [done|].
    intros sq. rewrite Hdk', Hdk, fmap_app. simpl. split.
    + intros [(rg0 & H1 & H2)|H].
      * exists rg0. split; [apply elem_of_app; by left|done].
      * exists rg. split; [apply elem_of_app; right; by left|done].
    + intros (rg0 & H1 & H2). apply elem_of_app in H1 as [H1|H1]; [left; eauto|].
      apply list_elem_of_singleton in H1 as ->. by right.
  - split; [constructor|]. split; [done|]. intros sq. simpl. split.
    + intros H. by apply elem_of_nil in H.
    + intros (rg0 & H & _). by apply elem_of_nil in H.
  - split; [done|]. split; [done|]. split; [done|].
    intros sq. rewrite Hdk. split.
    + intros (rg & Hrg & Hsq). apply Hkeys in Hrg. by eapply wf_region_sq.
    + intros Hb. destruct (wf_cover p sq Hwf Hb) as [rg Hrg].
      destruct (wf_map p sq rg Hwf Hrg) as [Hrg' Hsq].
      exists rg. split; [by apply Hkeys|done].
Qed.

Lemma reduce_clue_events p row col n d :
  reduce_clue p row col n d = for_each (clue_events p row col n) reduce_step d.
Proof.
  unfold reduce_clue, clue_events. rewrite for_each_app, !for_each_fmap.
  unfold reduce_step. simpl.
  destruct (for_each (seq 0 (width p)) _ d) as [d1| |]; simpl; [|done|done].
  by rewrite !for_each_fmap.
Qed.

Lemma reduce_flat p d :
  well_formed p → reduce p d = for_each (reduce_events p) reduce_step d.
Proof.
  intros Hwf. unfold reduce, reduce_events. rewrite <- for_each_concat.
  apply for_each_ext. intros row d1 Hrow. rewrite <- for_each_concat.
  apply for_each_ext. intros col d2 Hcol.
  apply elem_of_seq in Hrow. apply elem_of_seq in Hcol.
  destruct (cell_at_in_bounds p (puzzle p) (row, col)) as [c Hc];
    [by apply wf_dims|split; simpl; lia|].
  unfold cell_events. rewrite Hc. unfold cell_at in Hc. simpl in Hc.
  destruct (puzzle p !! row) as [r|] eqn:Hr; [|done].
  rewrite (index_Ret _ _ _ Hr). simpl. rewrite (index_Ret _ _ _ Hc). simpl.
  destruct c as [|n]; [done|]. apply reduce_clue_events.
Qed.

Lemma hit_snoc evs num dist sq sq' x :
  hit (evs ++ [(num, dist, sq)]) sq' x
  ↔ hit evs sq' x ∨ (x = num ∧ sq' = sq ∧ dist ≤ num).
Proof.
  unfold hit. split.
  - intros (dist' & Hin & Hle). apply elem_of_app in Hin as [Hin|Hin]; [eauto|].
    apply list_elem_of_singleton in Hin. simplify_eq. by right.
  - intros [(dist' & Hin & Hle)|(-> & -> & Hle)].
    + exists dist'. split; [|done]. apply elem_of_app. by left.
    + exists dist. split; [|done]. apply elem_of_app. right. by left.
Qed.

Lemma reduce_events_spec evs (d0 : list ((nat * nat) * rem_val)) :
  NoDup d0.*1 →
  (∀ ev, ev ∈ evs → ev.2 ∈ d0.*1) →
  ∃ d, for_each evs reduce_step d0 = Ret d
       ∧ NoDup d.*1
       ∧ (∀ sq, sq ∈ d.*1 ↔ sq ∈ d0.*1)
       ∧ reduced evs d0 d.
Proof.
  intros Hnd0 Htargets.
  loop_ind (λ pre (d : list ((nat * nat) * rem_val)),
      NoDup d.*1 ∧ (∀ sq, sq ∈ d.*1 ↔ sq ∈ d0.*1) ∧ reduced pre d0 d).
  apply Hloop; clear Hloop.
  - intros pre [[num dist] sq] post d Hsplit (Hnd & Hkeys & Hred).
    unfold reduce_step, reduce_square. simpl.
    assert (sq ∈ d.*1) as Hsq.
    { apply Hkeys. apply (Htargets (num, dist, sq)). rewrite Hsplit. set_solver. }
    apply dict_get_is_Some in Hsq as [v Hv]. rewrite Hv.
    assert (∀ d', (∀ sq', sq' ≠ sq → dict_get d' sq' = dict_get d sq') →
       (match dict_get d0 sq with
        | Some (RInt n) => dict_get d' sq = Some (RInt n)
        | Some (RSet s0) =>
            ∃ s, dict_get d' sq = Some (RSet s)
                 ∧ ∀ x, x ∈ s ↔ x ∈ s0 ∧ ¬ hit (pre ++ [(num, dist, sq)]) sq x
        | None => dict_get d' sq = None
        end) → reduced (pre ++ [(num, dist, sq)]) d0 d') as Hstep.
    { intros d' Hother Hthis sq'. destruct (decide (sq' = sq)) as [->|Hne]; [done|].
      specialize (Hred sq'). rewrite Hother by done.
      destruct (dict_get d0 sq') as [[s0|n]|]; [|done|done].
      destruct Hred as (s & Hs & Hin). exists s. split; [done|].
      intros x. rewrite Hin, hit_snoc. naive_solver. }
    pose proof (Hred sq) as Hsqred. rewrite Hv in Hsqred.
    destruct v as [s|n].
    + destruct (dist <=? num) eqn:Hle.
      * apply Z.leb_le in Hle. eexists. split; [done|].
        split; [by apply dict_set_NoDup|]. split.
        -- intros sq'. rewrite dict_set_keys, <- Hkeys. split; [|by right].
           intros [->|?]; [|done]. apply dict_get_is_Some. by rewrite Hv.
        -- apply Hstep.
           ++ intros sq' Hne. by apply dict_get_set_ne.
           ++ rewrite dict_get_set_eq.
              destruct (dict_get d0 sq) as [[s0|n]|]; [|done|done].
              destruct Hsqred as (s' & [= <-] & Hin). eexists. split; [done|].
              intros x. rewrite elem_of_difference, Hin, hit_snoc.
              rewrite elem_of_singleton. naive_solver.
      * apply Z.leb_gt in Hle. eexists. split; [done|]. split; [done|].
        split; [done|]. apply Hstep; [done|]. rewrite Hv.
        destruct (dict_get d0 sq) as [[s0|n]|]; [|done|done].
        destruct Hsqred as (s' & [= <-] & Hin). eexists. split; [done|].
        intros x. rewrite Hin, hit_snoc. split; [|naive_solver].
        intros [? ?]. split; [done|]. intros [?|(? & ? & ?)]; [done|lia].
    + eexists. split; [done|]. split; [done|]. split; [done|].
      apply Hstep; [done|]. rewrite Hv.
      destruct (dict_get d0 sq) as [[s0|n0]|]; [|done|done].
      destruct Hsqred as (s' & [=] & _).
  - split; [done|]. split; [done|]. intros sq.
    destruct (dict_get d0 sq) as [[s0|n]|]; [|done|done].
    exists s0. split; [done|]. intros x. split; [|naive_solver].
    intros Hx. split; [done|]. intros (dist & Hin & _). by apply elem_of_nil in Hin.
Qed.

Lemma elem_of_concat {A} (x : A) (ls : list (list A)) :
  x ∈ concat ls ↔ ∃ l, l ∈ ls ∧ x ∈ l.
Proof.
  induction ls as [|l ls IH]; simpl.
  - split; [intros H; by apply elem_of_nil in H|].
    intros (l & H & _). by apply elem_of_nil in H.
  - rewrite elem_of_app, IH. set_solver.
Qed.

Lemma elem_of_reduce_events p x dist (sq : nat * nat) :
  (x, dist, sq) ∈ reduce_events p ↔
  ∃ row col, (row < height p)%nat ∧ (col < width p)%nat
    ∧ cell_at (puzzle p) (row, col) = Some (Num x)
    ∧ ((sq.1 = row ∧ (sq.2 < width p)%nat
        ∧ dist = Z.abs (Z.of_nat sq.2 - Z.of_nat col))
       ∨ (sq.2 = col ∧ (sq.1 < height p)%nat
          ∧ dist = Z.abs (Z.of_nat sq.1 - Z.of_nat row))).
Proof.
  unfold reduce_events. rewrite elem_of_concat. split.
  - intros (l & Hl & Hin). apply list_elem_of_fmap in Hl as (row & -> & Hrow).
    apply elem_of_seq in Hrow. apply elem_of_concat in Hin as (l & Hl & Hin).
    apply list_elem_of_fmap in Hl as (col & -> & Hcol). apply elem_of_seq in Hcol.
    exists row, col. split; [lia|]. split; [lia|].
    unfold cell_events in Hin.
    destruct (cell_at (puzzle p) (row, col)) as [[|n]|];
      try (by apply elem_of_nil in Hin).
    unfold clue_events in Hin. apply elem_of_app in Hin as [Hin|Hin];
      apply list_elem_of_fmap in Hin as (k & [= -> -> ->] & Hk);
      apply elem_of_seq in Hk; (split; [done|]); [left|right]; simpl;
      (split; [done|]); (split; [lia|done]).
  - intros (row & col & Hrow & Hcol & Hc & Hsq).
    exists (concat ((λ col, cell_events p row col) <$> seq 0 (width p))).
    split. { apply list_elem_of_fmap. exists row. split; [done|].
             apply elem_of_seq. lia. }
    apply elem_of_concat. exists (cell_events p row col).
    split. { apply list_elem_of_fmap. exists col. split; [done|].
             apply elem_of_seq. lia. }
    unfold cell_events. rewrite Hc. unfold clue_events. apply elem_of_app.
    destruct sq as [r c]. simpl in Hsq.
    destruct Hsq as [(-> & Hlt & ->)|(-> & Hlt & ->)]; [left|right];
      apply list_elem_of_fmap; eexists; (split; [done|]); apply elem_of_seq; lia.
Qed.

Lemma hit_reduce_events p sq x :
  well_formed p → in_bounds p sq →
  (¬ hit (reduce_events p) sq x ↔
   (∀ c, cell_at (puzzle p) (sq.1, c) = Some (Num x) →
         Z.abs (Z.of_nat sq.2 - Z.of_nat c) > x)
   ∧ (∀ r, cell_at (puzzle p) (r, sq.2) = Some (Num x) →
           Z.abs (Z.of_nat sq.1 - Z.of_nat r) > x)).
Proof.
  intros Hwf [Hb1 Hb2]. pose proof (wf_dims p Hwf) as Hdims. unfold hit. split.
  - intros Hno. split.
    + intros c Hc.
      destruct (decide (Z.abs (Z.of_nat sq.2 - Z.of_nat c) > x)) as [|Hle]; [done|].
      exfalso. apply Hno. exists (Z.abs (Z.of_nat sq.2 - Z.of_nat c)).
      split; [|lia].
      apply elem_of_reduce_events. exists sq.1, c.
      destruct (cell_at_bounds p (puzzle p) (sq.1, c) Hdims) as [? ?]; [by eauto|].
      split; [done|]. split; [done|]. split; [done|]. left. done.
    + intros r Hr.
      destruct (decide (Z.abs (Z.of_nat sq.1 - Z.of_nat r) > x)) as [|Hle]; [done|].
      exfalso. apply Hno. exists (Z.abs (Z.of_nat sq.1 - Z.of_nat r)).
      split; [|lia].
      apply elem_of_reduce_events. exists r, sq.2.
      destruct (cell_at_bounds p (puzzle p) (r, sq.2) Hdims) as [? ?]; [by eauto|].
      split; [done|]. split; [done|]. split; [done|]. right. done.
  - intros [Hrow Hcol] (dist & Hin & Hle).
    apply elem_of_reduce_events in Hin
      as (row & col & _ & _ & Hc & [(<- & _ & ->)|(<- & _ & ->)]).
    + specialize (Hrow col Hc). lia.
    + specialize (Hcol row Hc). lia.
Qed.

(** C8: the preprocessing of the heuristic solver leaves, for every clue
    square, the clue, and for every empty square the set of the values of
    [1 .. region size] that no clue of its region uses, minus every value
    [v] of a clue in the same row at column distance at most [v] and of a
    clue in the same column at row distance at most [v]. *)
Theorem preprocess_spec p :
  well_formed p → clues_in_range p →
  ∃ d, preprocess p = Ret d
       ∧ NoDup d.*1
       ∧ (∀ sq, sq ∈ d.*1 ↔ in_bounds p sq)
       ∧ ∀ sq, in_bounds p sq →
           match cell_at (puzzle p) sq with
           | Some (Num n) => dict_get d sq = Some (RInt n)
           | _ => ∃ s, dict_get d sq = Some (RSet s)
                       ∧ ∀ x, x ∈ s ↔ candidate p sq x
           end.
Proof.
  intros Hwf Hclues. unfold preprocess.
  destruct (fill_rows_cols_ok p Hwf) as (rc & ->). simpl.
  destruct (regions_dict_spec p Hwf) as (rd & -> & _ & Hrk & Hrv). simpl.
  destruct (seed_spec p rd Hwf Hclues Hrk Hrv) as (d0 & -> & Hnd0 & Hv0 & Hk0).
  simpl. rewrite (reduce_flat p d0 Hwf).
  destruct (reduce_events_spec (reduce_events p) d0 Hnd0)
    as (d & -> & Hnd & Hk & Hred).
  { intros [[x dist] sq] Hin. simpl. apply Hk0.
    apply elem_of_reduce_events in Hin
      as (row & col & ? & ? & _ & [(? & ? & _)|(? & ? & _)]); split; lia. }
  exists d. split; [done|]. split; [done|].
  split; [intros sq; by rewrite Hk, Hk0|].
  intros sq Hb. specialize (Hred sq).
  assert (sq ∈ d0.*1) as Hin0 by (by apply Hk0).
  apply dict_get_is_Some in Hin0 as [v0 Hv0sq]. rewrite Hv0sq in Hred.
  apply Hv0 in Hv0sq. unfold seed_value in Hv0sq.
  destruct (cell_at_in_bounds p (puzzle p) sq (wf_dims p Hwf) Hb) as [c Hc].
  rewrite Hc in *. destruct c as [|n].
  - destruct Hv0sq as (rg & s0 & Hrg & -> & Hs0).
    destruct Hred as (s & Hs & Hin). exists s. split; [done|]. intros x.
    rewrite Hin, Hs0, (hit_reduce_events p sq x Hwf Hb). unfold candidate. split.
    + intros ((? & ?) & ? & ?). exists rg. done.
    + intros (rg' & Hrg' & ? & ? & ? & ?). by simplify_eq.
  - by subst.
Qed.

Lemma well_formed_2x2 : well_formed puzzle_2x2.
Proof. apply (bool_decide_unpack _). vm_compute. exact I. Qed.

Lemma clues_in_range_2x2 : clues_in_range puzzle_2x2.
Proof. apply (bool_decide_unpack _). vm_compute. exact I. Qed.

Lemma preprocess_spec_witness :
  ∃ d, preprocess puzzle_2x2 = Ret d
       ∧ NoDup d.*1
       ∧ (∀ sq, sq ∈ d.*1 ↔ in_bounds puzzle_2x2 sq)
       ∧ ∀ sq, in_bounds puzzle_2x2 sq →
           match cell_at (puzzle puzzle_2x2) sq with
           | Some (Num n) => dict_get d sq = Some (RInt n)
           | _ => ∃ s, dict_get d sq = Some (RSet s)
                       ∧ ∀ x, x ∈ s ↔ candidate puzzle_2x2 sq x
           end.
Proof.
  apply (preprocess_spec puzzle_2x2).
  - apply (bool_decide_unpack _). vm_compute. exact I.
  - apply (bool_decide_unpack _). vm_compute. exact I.
Defined.

Lemma work_list_sorted_witness :
  Sorted entry_le work_list_2x2
  ∧ ∀ row col value p l',
      update_remaining (drop 1 work_list_2x2) row col value p = Ret l' →
      Sorted entry_le l'
      ∧ l'.*1 ≡ₚ (drop 1 work_list_2x2).*1
      ∧ ∀ e', e' ∈ l' → ∃ e, e ∈ drop 1 work_list_2x2 ∧ e'.1 = e.1 ∧ e'.2 ⊆ e.2.
Proof.
  apply (work_list_sorted puzzle_2x2 work_list_2x2).
  apply passed_initial. vm_compute. reflexivity.
Defined.

(** ** [is_solved] *)

Lemma all_filled_row_spec p row cols :
  Forall (λ col, on_grid (puzzle p) (row, col)) cols →
  ∃ b, all_filled_row p row cols = Ret b
       ∧ (b = true ↔
            Forall (λ col, ∃ n, cell_at (puzzle p) (row, col) = Some (Num n)) cols).
Proof.
  induction 1 as [|col cols [c Hc] _ IH]; simpl.
  - exists true. split; [done|]. split; [constructor|done].
  - rewrite (get_cell_at _ _ _ Hc). simpl. destruct c as [|n]; simpl.
    + exists false. split; [done|]. split; [done|].
      intros Hall. apply Forall_cons in Hall as [[n Hn] _]. congruence.
    + destruct IH as (b & -> & Hb). exists b. split; [done|].
      rewrite Forall_cons, Hb. split; [|tauto]. intros ?. split; [eauto|done].
Qed.

Lemma all_filled_spec p rows :
  grid_dims p (puzzle p) →
  Forall (λ row, (row < height p)%nat) rows →
  ∃ b, all_filled p rows = Ret b
       ∧ (b = true ↔
            ∀ row col, row ∈ rows → (col < width p)%nat →
              ∃ n, cell_at (puzzle p) (row, col) = Some (Num n)).
Proof.
  intros Hdims. induction 1 as [|row rows Hrow _ IH]; simpl.
  - exists true. split; [done|]. split; [|done].
    intros _ row col H. by apply elem_of_nil in H.
  - destruct (all_filled_row_spec p row (seq 0 (width p))) as (b1 & -> & Hb1).
    { apply Forall_forall. intros col Hcol. apply elem_of_seq in Hcol.
      eapply cell_at_in_bounds; [done|]. split; simpl; lia. }
    simpl. rewrite Forall_forall in Hb1. destruct b1.
    + destruct IH as (b & -> & Hb). exists b. split; [done|]. rewrite Hb. split.
      * intros Hrest row' col [->|Hin]%elem_of_cons Hcol.
        -- apply Hb1; [done|]. apply elem_of_seq. lia.
        -- by apply Hrest.
      * intros Hall row' col Hin Hcol. apply Hall; [by right|done].
    + exists false. split; [done|]. split; [done|]. intros Hall.
      apply Hb1. intros col Hcol. apply elem_of_seq in Hcol.
      apply Hall; [by left|lia].
Qed.

Lemma lines_valid_spec p rows : ∀ col,
  grid_dims p (puzzle p) → (0 < width p)%nat →
  Forall (λ row, (row < height p)%nat) rows →
  ∃ b, lines_valid p rows col = Ret b
       ∧ (b = true ↔
            ∀ i row, rows !! i = Some row →
              row_ok (puzzle p) row
              ∧ col_ok (puzzle p) ((col + i) mod width p)%nat).
Proof.
  intros col Hdims Hw Hrows. revert col.
  induction Hrows as [|row rows Hrow _ IH]; intros col; simpl.
  - exists true. split; [done|]. split; [|done]. intros _ i row H.
    by rewrite lookup_nil in H.
  - unfold py_mod. destruct (width p) as [|w'] eqn:Hwidth; [lia|].
    rewrite <- Hwidth in *. simpl.
    destruct (is_valid_lines p row (col mod width p)) as (b1 & -> & Hb1).
    { destruct Hdims as [-> _]. done. }
    { eapply grid_dims_has_column; [done|]. apply Nat.mod_upper_bound. lia. }
    simpl. destruct b1; simpl.
    + destruct (IH (S (col mod width p))) as (b & -> & Hb).
      exists b. split; [done|]. rewrite Hb. split.
      * intros Hrest [|i] row' Hi; simpl in Hi.
        -- simplify_eq. rewrite Nat.add_0_r. by apply Hb1.
        -- specialize (Hrest i row' Hi).
           replace ((col + S i) mod width p)%nat
             with ((S (col mod width p) + i) mod width p)%nat; [done|].
           replace (S (col mod width p) + i)%nat
             with (col mod width p + S i)%nat by lia.
           apply Nat.Div0.add_mod_idemp_l.
      * intros Hall i row' Hi. specialize (Hall (S i) row' Hi).
        replace ((S (col mod width p) + i) mod width p)%nat
          with ((col + S i) mod width p)%nat; [done|].
        replace (S (col mod width p) + i)%nat
          with (col mod width p + S i)%nat by lia.
        symmetry. apply Nat.Div0.add_mod_idemp_l.
    + exists false. split; [done|]. split; [done|]. intros Hall.
      apply Hb1. specialize (Hall 0%nat row eq_refl).
      by rewrite Nat.add_0_r in Hall.
Qed.

Lemma regions_valid_spec p rs :
  Forall (λ rg, Forall (on_grid (puzzle p)) rg) rs →
  ∃ b, regions_valid p rs = Ret b
       ∧ (b = true ↔ Forall (region_ok (puzzle p)) rs).
Proof.
  induction 1 as [|rg rs Hrg _ IH]; simpl.
  - exists true. split; [done|]. split; [constructor|done].
  - destruct (is_region_valid_spec p rg Hrg) as (b1 & Hb1 & Hiff).
    simpl in Hb1. rewrite Hb1. simpl. destruct b1; simpl.
    + destruct IH as (b & -> & Hb). exists b. split; [done|].
      rewrite Forall_cons, Hb. tauto.
    + exists false. split; [done|]. split; [done|].
      intros Hall. apply Forall_cons in Hall as [Hok _]. by apply Hiff.
Qed.

Lemma with_solved_same p : with_solved p (solved p) = p.
Proof. by destruct p. Qed.

Lemma wf_regions_on_grid p :
  well_formed p → Forall (λ rg, Forall (on_grid (puzzle p)) rg) (regions p).
Proof.
  intros Hwf. apply Forall_forall. intros rg Hrg. by apply wf_region_on_grid.
Qed.

Lemma wf_width p : well_formed p → (0 < width p)%nat.
Proof. by intros (H & _). Qed.

(** The full check of [is_solved], once the cache and the counter let it
    through. *)
Lemma is_solved_check p :
  well_formed p → solved p = false → empty_slots_left p ≤ 0 →
  ∃ b : bool, is_solved p = Ret (b, if b then with_solved p true else p)
       ∧ (b = true ↔ check_ok p (puzzle p)).
Proof.
  intros Hwf Hs HL. pose proof (wf_dims p Hwf) as Hdims.
  unfold is_solved. rewrite Hs.
  destruct (0 <? empty_slots_left p) eqn:Hlt; [apply Z.ltb_lt in Hlt; lia|].
  assert (Forall (λ row, (row < height p)%nat) (seq 0 (height p))) as Hrows.
  { apply Forall_forall. intros row Hrow. apply elem_of_seq in Hrow. lia. }
  destruct (all_filled_spec p _ Hdims Hrows) as (b1 & -> & Hb1).
  destruct (lines_valid_spec p _ 0%nat Hdims (wf_width p Hwf) Hrows)
    as (b2 & Hl2 & Hb2).
  destruct (regions_valid_spec p _ (wf_regions_on_grid p Hwf)) as (b3 & Hl3 & Hb3).
  assert (b1 = true ↔ filled p (puzzle p)) as Hfilled.
  { rewrite Hb1. unfold filled, in_bounds. split.
    - intros H [row col] [? ?]. apply H; [apply elem_of_seq; simpl in *; lia|done].
    - intros H row col Hrow Hcol. apply elem_of_seq in Hrow.
      apply (H (row, col)). simpl. lia. }
  assert (b2 = true ↔ ∀ row, (row < height p)%nat →
            row_ok (puzzle p) row ∧ col_ok (puzzle p) (row mod width p)%nat)
    as Hlines.
  { rewrite Hb2. split.
    - intros H row Hrow. apply (H row row). apply lookup_seq. lia.
    - intros H i row Hi. apply lookup_seq in Hi as [-> Hi]. simpl.
      apply H. lia. }
  simpl. destruct b1; simpl.
  - rewrite Hl2. simpl. destruct b2; simpl.
    + rewrite Hl3. simpl. destruct b3; simpl.
      * exists true. split; [done|]. split; [|done]. intros _.
        split; [by apply Hfilled|]. split; [by apply Hlines|by apply Hb3].
      * exists false. split; [done|]. split; [done|].
        intros (_ & _ & Hr). by apply Hb3.
    + exists false. split; [done|]. split; [done|].
      intros (_ & Hr & _). by apply Hlines.
  - exists false. split; [done|]. split; [done|].
    intros (Hf & _). by apply Hfilled.
Qed.

Lemma is_solved_positive p :
  solved p = false → 0 < empty_slots_left p → is_solved p = Ret (false, p).
Proof.
  intros Hs HL. unfold is_solved. rewrite Hs.
  by destruct (0 <? empty_slots_left p) eqn:Hlt; [|apply Z.ltb_ge in Hlt; lia].
Qed.

Lemma is_solved_cached p : solved p = true → is_solved p = Ret (true, p).
Proof. intros Hs. unfold is_solved. by rewrite Hs. Qed.

(** X1: on a well-formed board [is_solved] answers true exactly when the
    solved flag is already set, or [empty_slots_left] is not positive and
    the board is full with every row, the column [r mod width] of every
    row index [r] and every region valid; it sets the flag when it
    answers true and changes nothing otherwise. *)
Theorem is_solved_spec p :
  well_formed p →
  ∃ b : bool, is_solved p = Ret (b, if b then with_solved p true else p)
       ∧ (b = true ↔
            solved p = true
            ∨ (empty_slots_left p ≤ 0 ∧ check_ok p (puzzle p))).
Proof.
  intros Hwf. destruct (solved p) eqn:Hs.
  - exists true. assert (with_solved p true = p) as ->.
    { rewrite <- Hs. apply with_solved_same. }
    split; [by apply is_solved_cached|]. split; [by left|done].
  - destruct (decide (0 < empty_slots_left p)) as [Hpos|Hle].
    + exists false. split; [by apply is_solved_positive|].
      split; [done|]. intros [?|[? _]]; [done|lia].
    + destruct (is_solved_check p Hwf Hs) as (b & Hb & Hiff); [lia|].
      exists b. split; [done|]. rewrite Hiff. split.
      * intros ?. right. split; [lia|done].
      * intros [?|[_ ?]]; done.
Qed.

Lemma is_solved_spec_witness :
  ∃ b : bool, is_solved puzzle_2x2 = Ret (b, if b then with_solved puzzle_2x2 true
                                       else puzzle_2x2)
       ∧ (b = true ↔
            solved puzzle_2x2 = true
            ∨ (empty_slots_left puzzle_2x2 ≤ 0
               ∧ check_ok puzzle_2x2 (puzzle puzzle_2x2))).
Proof.
  apply (is_solved_spec puzzle_2x2).
  apply (bool_decide_unpack _). vm_compute. exact I.
Defined.

(** ** The count of empty cells *)

Lemma count_row_acc row acc :
  foldl (λ acc elem, if is_dot elem then acc + 1 else acc) acc row
  = acc + count_row row.
Proof.
  unfold count_row. revert acc. induction row as [|c row IH]; intros acc; simpl.
  - lia.
  - rewrite IH. rewrite (IH (if is_dot c then 0 + 1 else 0)).
    destruct (is_dot c); lia.
Qed.

Lemma count_row_cons c row : count_row (c :: row) = dot_count c + count_row row.
Proof.
  unfold count_row at 1. simpl. rewrite count_row_acc.
  unfold dot_count. destruct (is_dot c); lia.
Qed.

Lemma count_row_app r1 r2 : count_row (r1 ++ r2) = count_row r1 + count_row r2.
Proof.
  induction r1 as [|c r1 IH]; simpl; [done|]. rewrite !count_row_cons, IH. lia.
Qed.

Lemma count_empty_acc (g : list (list cell)) acc :
  foldl (λ acc row, acc + count_row row) acc g = acc + count_empty g.
Proof.
  unfold count_empty. revert acc. induction g as [|r g IH]; intros acc; simpl.
  - lia.
  - rewrite IH. rewrite (IH (0 + count_row r)). lia.
Qed.

Lemma count_empty_cons r (g : list (list cell)) :
  count_empty (r :: g) = count_row r + count_empty g.
Proof. unfold count_empty at 1. simpl. rewrite count_empty_acc. lia. Qed.

Lemma count_empty_app (g1 g2 : list (list cell)) :
  count_empty (g1 ++ g2) = count_empty g1 + count_empty g2.
Proof.
  induction g1 as [|r g1 IH]; simpl; [done|]. rewrite !count_empty_cons, IH. lia.
Qed.

Lemma count_row_insert r col old v :
  r !! col = Some old →
  count_row (<[col := v]> r) = count_row r - dot_count old + dot_count v.
Proof.
  intros Hold. rewrite insert_take_drop by (by eapply lookup_lt_Some).
  rewrite <- (take_drop_middle r col old Hold) at 3.
  rewrite !count_row_app, !count_row_cons. lia.
Qed.

Lemma count_empty_insert (g : list (list cell)) row r r' :
  g !! row = Some r →
  count_empty (<[row := r']> g) = count_empty g - count_row r + count_row r'.
Proof.
  intros Hr. rewrite insert_take_drop by (by eapply lookup_lt_Some).
  rewrite <- (take_drop_middle g row r Hr) at 3.
  rewrite !count_empty_app, !count_empty_cons. lia.
Qed.

Lemma count_empty_store (g : list (list cell)) row col r old v :
  g !! row = Some r → r !! col = Some old →
  count_empty (<[row := <[col := v]> r]> g)
  = count_empty g - dot_count old + dot_count v.
Proof.
  intros Hr Hold. rewrite (count_empty_insert g row r _ Hr).
  rewrite (count_row_insert r col old v Hold). lia.
Qed.

Lemma count_row_filter row :
  count_row row = Z.of_nat (length (filter (λ c, c = Empty) row)).
Proof.
  induction row as [|c row IH]; [done|]. rewrite count_row_cons, IH.
  rewrite filter_cons. unfold dot_count.
  destruct c; case_decide; simpl; try done; lia.
Qed.

(** X5: the constructor leaves in [empty_slots_left] the number of cells
    of the grid that hold ["."], and clears the solved flag. *)
Theorem init_counts_empty w h (g : list (list cell)) rs rm :
  empty_slots_left (init w h g rs rm)
  = Z.of_nat (length (filter (λ c, c = Empty) (concat g)))
  ∧ solved (init w h g rs rm) = false.
Proof.
  split; [|done]. simpl. induction g as [|r g IH]; [done|].
  rewrite count_empty_cons, IH, count_row_filter. simpl.
  rewrite filter_app, length_app. lia.
Qed.

Lemma count_row_nonneg row : 0 ≤ count_row row.
Proof. rewrite count_row_filter. lia. Qed.

Lemma count_empty_nonneg (g : list (list cell)) : 0 ≤ count_empty g.
Proof.
  induction g as [|r g IH]; [done|]. rewrite count_empty_cons.
  pose proof (count_row_nonneg r). lia.
Qed.

Lemma count_row_zero row : count_row row = 0 ↔ Empty ∉ row.
Proof.
  induction row as [|c row IH]; [by split; [intros _ H; apply elem_of_nil in H|]|].
  rewrite count_row_cons, not_elem_of_cons.
  pose proof (count_row_nonneg row). unfold dot_count. destruct c; simpl.
  - split; [lia|]. intros [? _]. done.
  - split.
    + intros H0. split; [done|]. apply IH. lia.
    + intros [_ Hn]. apply IH in Hn. lia.
Qed.

Lemma count_empty_zero (g : list (list cell)) :
  count_empty g = 0 ↔ ∀ sq, cell_at g sq ≠ Some Empty.
Proof.
  split.
  - intros H0 [row col]. unfold cell_at. simpl.
    destruct (g !! row) as [r|] eqn:Hr; [|done]. intros Hc.
    pose proof (count_empty_nonneg (<[row := []]> g)) as Hnn.
    rewrite (count_empty_insert g row r [] Hr) in Hnn.
    pose proof (count_row_nonneg r).
    assert (count_row r = 0) as Hz by (change (count_row []) with 0 in Hnn; lia).
    apply count_row_zero in Hz. apply Hz. by eapply list_elem_of_lookup_2.
  - intros Hno.
    assert (∀ i r, g !! i = Some r → count_row r = 0) as Hrows.
    { intros i r Hr. apply count_row_zero. intros Hin.
      apply list_elem_of_lookup in Hin as [j Hj]. apply (Hno (i, j)).
      unfold cell_at. simpl. by rewrite Hr. }
    clear Hno. induction g as [|r g IH]; [done|].
    rewrite count_empty_cons, (Hrows 0%nat r eq_refl), IH; [done|].
    intros i r' Hi. by apply (Hrows (S i)).
Qed.

Lemma check_ok_tall p (g : list (list cell)) :
  (0 < width p)%nat → (width p ≤ height p)%nat →
  (check_ok p g ↔ rules_ok p g).
Proof.
  intros Hw Hwh. unfold check_ok, lines_ok, rules_ok. split.
  - intros (Hf & Hl & Hr). split; [done|]. split; [intros row Hrow; by apply Hl|].
    split; [|done]. intros col Hcol.
    destruct (Hl col) as [_ Hc]; [lia|]. by rewrite Nat.mod_small in Hc.
  - intros (Hf & Hrows & Hcols & Hr). split; [done|]. split; [|done].
    intros row Hrow. split; [by apply Hrows|].
    apply Hcols. apply Nat.mod_upper_bound. lia.
Qed.

Lemma filled_no_empty p (g : list (list cell)) :
  grid_dims p g → filled p g → count_empty g = 0.
Proof.
  intros Hdims Hf. apply count_empty_zero. intros sq Hsq.
  destruct (Hf sq) as [n Hn]; [|congruence].
  eapply cell_at_bounds; [done|]. by eexists.
Qed.

(** X2: on a freshly constructed, well-formed board that is at least as
    high as wide, [is_solved] answers true exactly when the board is full
    and every row, every column and every region is valid. *)
Theorem is_solved_rules p :
  well_formed p → fresh p → (width p ≤ height p)%nat →
  ∃ b : bool, is_solved p = Ret (b, if b then with_solved p true else p)
       ∧ (b = true ↔ rules_ok p (puzzle p)).
Proof.
  intros Hwf [Hs HL] Hwh.
  pose proof (check_ok_tall p (puzzle p) (wf_width p Hwf) Hwh) as Htall.
  destruct (decide (0 < empty_slots_left p)) as [Hpos|Hle].
  - exists false. split; [by apply is_solved_positive|]. split; [done|].
    intros (Hf & _). rewrite HL in Hpos.
    rewrite (filled_no_empty p _ (wf_dims p Hwf) Hf) in Hpos. lia.
  - destruct (is_solved_check p Hwf Hs) as (b & Hb & Hiff); [lia|].
    exists b. split; [done|]. by rewrite Hiff.
Qed.

Lemma is_solved_rules_witness :
  ∃ b : bool, is_solved puzzle_2x2
              = Ret (b, if b then with_solved puzzle_2x2 true else puzzle_2x2)
       ∧ (b = true ↔ rules_ok puzzle_2x2 (puzzle puzzle_2x2)).
Proof.
  apply (is_solved_rules puzzle_2x2).
  - apply (bool_decide_unpack _). vm_compute. exact I.
  - split; reflexivity.
  - simpl. lia.
Defined.

(** ** [Puzzle.copy] *)

Lemma grid_dims_store p (g : list (list cell)) row col v r :
  g !! row = Some r → grid_dims p g → grid_dims p (<[row := <[col := v]> r]> g).
Proof.
  intros Hr [Hh Hw]. split; [by rewrite length_insert|].
  apply Forall_insert; [done|]. rewrite length_insert.
  rewrite Forall_forall in Hw. apply Hw. by eapply list_elem_of_lookup_2.
Qed.

Lemma grid_ext p (g g' : list (list cell)) :
  grid_dims p g → grid_dims p g' →
  (∀ sq, in_bounds p sq → cell_at g sq = cell_at g' sq) → g = g'.
Proof.
  intros [Hh Hw] [Hh' Hw'] Hcells. apply list_eq. intros i.
  destruct (decide (i < height p)%nat) as [Hi|Hi].
  - destruct (lookup_lt_is_Some_2 g i) as [r Hr]; [lia|].
    destruct (lookup_lt_is_Some_2 g' i) as [r' Hr']; [lia|].
    rewrite Hr, Hr'. f_equal. apply list_eq. intros j.
    rewrite Forall_forall in Hw, Hw'.
    assert (length r = width p) as Hlr
      by (apply Hw; by eapply list_elem_of_lookup_2).
    assert (length r' = width p) as Hlr'
      by (apply Hw'; by eapply list_elem_of_lookup_2).
    destruct (decide (j < width p)%nat) as [Hj|Hj].
    + specialize (Hcells (i, j)). unfold cell_at in Hcells. simpl in Hcells.
      rewrite Hr, Hr' in Hcells. apply Hcells. split; simpl; lia.
    + rewrite !lookup_ge_None_2 by lia. done.
  - rewrite !lookup_ge_None_2 by lia. done.
Qed.

(** X4: on a board whose grid has the stated dimensions, [copy] hands
    back a freshly constructed puzzle over an equal grid, with the same
    regions and region map: the solved flag is cleared and
    [empty_slots_left] is counted anew. *)
Theorem copy_spec p :
  grid_dims p (puzzle p) →
  copy p = Ret (init (width p) (height p) (puzzle p) (regions p) (region_map p)).
Proof.
  intros Hdims. unfold copy.
  set (agree := λ (g : list (list cell)) (sq : nat * nat),
         cell_at g sq = cell_at (puzzle p) sq).
  loop_ind (λ (pre : list nat) (g : list (list cell)),
      grid_dims p g
      ∧ ∀ row col, row ∈ pre → (col < width p)%nat → agree g (row, col)).
  destruct Hloop as (g & -> & Hg & Hagree).
  - intros pre row post g Hsplit [Hg Hpre].
    assert (row < height p)%nat as Hrow.
    { assert (row ∈ seq 0 (height p)) as Hin by (rewrite Hsplit; set_solver).
      apply elem_of_seq in Hin. lia. }
    loop_ind (λ (pre' : list nat) (g' : list (list cell)),
        grid_dims p g'
        ∧ (∀ r c, r ∈ pre → (c < width p)%nat → agree g' (r, c))
        ∧ (∀ c, c ∈ pre' → agree g' (row, c))).
    destruct Hloop as (g' & -> & Hg' & Hpre' & Hrow').
    + intros pre' col post' g' Hsplit' (Hg' & Hpre' & Hrow').
      assert (col < width p)%nat as Hcol.
      { assert (col ∈ seq 0 (width p)) as Hin by (rewrite Hsplit'; set_solver).
        apply elem_of_seq in Hin. lia. }
      destruct (cell_at_in_bounds p (puzzle p) (row, col) Hdims) as [c Hc];
        [split; simpl; lia|].
      rewrite (get_cell_at _ _ _ Hc). simpl.
      destruct (cell_at_in_bounds p g' (row, col) Hg') as [c' Hc'];
        [split; simpl; lia|].
      destruct (store_cell_at _ _ _ c _ Hc') as (r & Hr & ->).
      assert (col < length r)%nat as Hlen.
      { unfold cell_at in Hc'. simpl in Hc'. rewrite Hr in Hc'.
        by eapply lookup_lt_Some. }
      assert (∀ sq, agree g' sq ∨ sq = (row, col) →
                agree (<[row := <[col := c]> r]> g') sq) as Hkeep.
      { intros sq Hsq. unfold agree. destruct (decide (sq = (row, col))) as [->|Hne].
        - rewrite cell_at_store_eq by done. done.
        - rewrite cell_at_store_ne by done. by destruct Hsq. }
      eexists. split; [done|]. split; [by apply grid_dims_store|]. split.
      * intros r0 c0 Hr0 Hc0. apply Hkeep. left. by apply Hpre'.
      * intros c0 [Hc0| ->%list_elem_of_singleton]%elem_of_app; apply Hkeep;
          [left; by apply Hrow'|by right].
    + split; [done|]. split; [done|]. intros c Hc. by apply elem_of_nil in Hc.
    + exists g'. split; [done|]. split; [done|].
      intros r c [Hr| ->%list_elem_of_singleton]%elem_of_app Hc.
      * by apply Hpre'.
      * apply Hrow'. apply elem_of_seq. lia.
  - split.
    + split; [by rewrite length_replicate|]. apply Forall_replicate.
      by rewrite length_replicate.
    + intros row col Hrow. by apply elem_of_nil in Hrow.
  - simpl. f_equal. f_equal. apply (grid_ext p); [done|done|].
    intros [row col] [Hr Hc]. apply Hagree; [apply elem_of_seq|]; simpl in *; lia.
Qed.

Lemma copy_spec_witness :
  copy (with_slots (with_solved puzzle_2x3_full true) 5)
  = Ret puzzle_2x3_full.
Proof.
  apply (copy_spec (with_slots (with_solved puzzle_2x3_full true) 5)).
  split; [reflexivity|]. repeat constructor.
Defined.

(** ** Overwriting a square *)

Lemma store_put (g : list (list cell)) row col v old :
  cell_at g (row, col) = Some old → store g row col v = Ret (put g (row, col) v).
Proof.
  intros Hold. destruct (store_cell_at g row col v old Hold) as (r & Hr & ->).
  unfold put. simpl. by rewrite Hr.
Qed.

Lemma cell_at_put_eq (g : list (list cell)) sq v :
  on_grid g sq → cell_at (put g sq v) sq = Some v.
Proof.
  intros [c Hc]. unfold put. destruct sq as [row col]. unfold cell_at in Hc.
  simpl in *. destruct (g !! row) as [r|] eqn:Hr; [|done].
  apply cell_at_store_eq; [done|]. by eapply lookup_lt_Some.
Qed.

Lemma cell_at_put_ne (g : list (list cell)) sq sq' v :
  sq' ≠ sq → cell_at (put g sq v) sq' = cell_at g sq'.
Proof.
  intros Hne. unfold put. destruct sq as [row col]. simpl.
  destruct (g !! row) as [r|] eqn:Hr; [|done]. by apply cell_at_store_ne.
Qed.

Lemma put_put (g : list (list cell)) sq v w : put (put g sq v) sq w = put g sq w.
Proof.
  unfold put. destruct (g !! sq.1) as [r|] eqn:Hr.
  - rewrite list_lookup_insert_eq by (by eapply lookup_lt_Some).
    by apply store_overwrite.
  - by rewrite Hr.
Qed.

Lemma put_same (g : list (list cell)) sq c : cell_at g sq = Some c → put g sq c = g.
Proof.
  unfold put, cell_at. destruct (g !! sq.1) as [r|] eqn:Hr; [|done].
  intros Hc. by apply store_same_grid.
Qed.

Lemma grid_dims_put p (g : list (list cell)) sq v :
  grid_dims p g → grid_dims p (put g sq v).
Proof.
  intros Hd. unfold put. destruct (g !! sq.1) as [r|] eqn:Hr; [|done].
  by apply grid_dims_store.
Qed.

Lemma on_grid_put (g : list (list cell)) sq sq' v :
  on_grid g sq' → on_grid (put g sq v) sq'.
Proof.
  intros Hon. unfold put. destruct (g !! sq.1) as [r|] eqn:Hr; [|done].
  by apply on_grid_store.
Qed.

Lemma count_empty_put (g : list (list cell)) sq old v :
  cell_at g sq = Some old →
  count_empty (put g sq v) = count_empty g - dot_count old + dot_count v.
Proof.
  unfold put, cell_at. destruct (g !! sq.1) as [r|] eqn:Hr; [|done].
  intros Hold. by apply count_empty_store.
Qed.

Lemma extends_refl (g : list (list cell)) : extends g g.
Proof. by intros sq n. Qed.

Lemma extends_trans (g1 g2 g3 : list (list cell)) :
  extends g1 g2 → extends g2 g3 → extends g1 g3.
Proof. intros H12 H23 sq n H. by apply H23, H12. Qed.

Lemma extends_put (g : list (list cell)) sq v :
  cell_at g sq = Some Empty → extends g (put g sq v).
Proof.
  intros He sq' n Hn. rewrite cell_at_put_ne; [done|]. intros ->. congruence.
Qed.

(** ** [test], [backtrack] and [is_solved] on a well-formed board *)

Lemma wf_with_grid p (g : list (list cell)) :
  well_formed p → grid_dims p g → well_formed (with_grid p g).
Proof. intros (Hw & _ & Hr & Hm & Hc) Hd. by split_and!. Qed.

Lemma test_put p row col num old :
  well_formed p → cell_at (puzzle p) (row, col) = Some old →
  ∃ ok : bool,
    test p row col num
    = Ret (ok, if ok
               then with_slots (with_grid p (put (puzzle p) (row, col) (Num num)))
                               (empty_slots_left p - 1)
               else p)
    ∧ (ok = true ↔ valid_at p (put (puzzle p) (row, col) (Num num)) (row, col)).
Proof.
  intros Hwf Hold. pose proof (wf_dims p Hwf) as Hdims.
  destruct (cell_at_bounds p (puzzle p) (row, col) Hdims) as [Hr Hc]; [by eexists|].
  destruct (test_spec p row col num old Hold) as (staged & ok & Hst & _ & _ & Hiff & Ht).
  { by eapply grid_dims_has_column. }
  { intros rg Hrg. eapply wf_region_on_grid; [done|]. by eapply wf_map. }
  rewrite (store_put _ _ _ _ _ Hold) in Hst. injection Hst as <-.
  exists ok. split; [done|]. done.
Qed.

Lemma backtrack_put p row col old :
  cell_at (puzzle p) (row, col) = Some old →
  backtrack p row col
  = Ret (with_slots (with_grid p (put (puzzle p) (row, col) Empty))
                    (empty_slots_left p + 1)).
Proof.
  intros Hold. unfold backtrack. by rewrite (store_put _ _ _ _ _ Hold).
Qed.

Lemma place_loop_try rec row col iters : ∀ num p calls,
  BruteForce.place_loop rec row col iters num p calls
  = try_loop (λ _ p1 c, rec p1 c) row col (nums_from num iters) p calls.
Proof.
  induction iters as [|iters IH]; intros num p calls; simpl; [done|].
  destruct (test p row col (num + 1)) as [[ok p1]| |]; simpl; [|done|done].
  destruct (if ok then rec p1 calls else Ret (p1, calls)) as [[p2 c2]| |];
    simpl; [|done|done].
  destruct (is_solved p2) as [[s p3]| |]; simpl; [|done|done].
  destruct s; [done|]. apply IH.
Qed.

Lemma value_loop_try rec rest row col nums : ∀ p calls,
  value_loop rec rest row col nums p calls
  = try_loop (λ num p1 c,
               new_remaining ←! update_remaining rest row col num p1;
               rec new_remaining p1 c)
             row col nums p calls.
Proof.
  induction nums as [|num nums IH]; intros p calls; simpl; [done|].
  destruct (test p row col num) as [[ok p1]| |]; simpl; [|done|done].
  destruct (if ok then _ else Ret (p1, calls)) as [[p2 c2]| |];
    simpl; [|done|done].
  destruct (is_solved p2) as [[s p3]| |]; simpl; [|done|done].
  destruct s; [done|]. apply IH.
Qed.

Lemma is_solved_cases p :
  well_formed p → solved p = false →
  (is_solved p = Ret (false, p)
   ∧ (0 < empty_slots_left p ∨ ¬ check_ok p (puzzle p)))
  ∨ (is_solved p = Ret (true, with_solved p true)
     ∧ empty_slots_left p ≤ 0 ∧ check_ok p (puzzle p)).
Proof.
  intros Hwf Hs. destruct (decide (0 < empty_slots_left p)) as [Hpos|Hle].
  - left. split; [by apply is_solved_positive|by left].
  - destruct (is_solved_check p Hwf Hs) as ([] & Hb & Hiff); [lia| |].
    + right. split; [done|]. split; [lia|by apply Hiff].
    + left. split; [done|]. right. intros Hok. by apply Hiff in Hok.
Qed.

(** ** The loop of a search step *)

Lemma try_loop_outcome step row col nums p0 :
  well_formed p0 → solved p0 = false →
  cell_at (puzzle p0) (row, col) = Some Empty →
  (∀ num calls, num ∈ nums →
     valid_at p0 (put (puzzle p0) (row, col) (Num num)) (row, col) →
     outcome (with_slots (with_grid p0 (put (puzzle p0) (row, col) (Num num)))
                         (empty_slots_left p0 - 1))
             (step num
                (with_slots (with_grid p0 (put (puzzle p0) (row, col) (Num num)))
                            (empty_slots_left p0 - 1))
                calls)) →
  ∀ c calls,
    outcome p0 (try_loop step row col nums
                  (with_grid p0 (put (puzzle p0) (row, col) c)) calls).
Proof.
  intros Hwf Hs He. pose proof (wf_dims p0 Hwf) as Hdims.
  assert (on_grid (puzzle p0) (row, col)) as Hon by (by eexists).
  assert (∀ c, well_formed (with_grid p0 (put (puzzle p0) (row, col) c))) as Hwfc.
  { intros c. apply wf_with_grid; [done|]. by apply grid_dims_put. }
  (* the solved check on a state of the loop *)
  assert (∀ c calls (k : Puzzle → res (Puzzle * nat)),
    outcome p0 (k (with_grid p0 (put (puzzle p0) (row, col) c))) →
    outcome p0
      ('(s, p3) ←! is_solved (with_grid p0 (put (puzzle p0) (row, col) c));
       if s then Ret (p3, calls) else k p3)) as Hcheck.
  { intros c calls k Hk.
    destruct (is_solved_cases (with_grid p0 (put (puzzle p0) (row, col) c)))
      as [[-> _]|(-> & _ & Hok)]; [by apply Hwfc|done|done|].
    simpl. split; [done|]. split; [by apply grid_dims_put|].
    split; [by apply extends_put|done]. }
  induction nums as [|num nums IH]; intros Hstep c calls.
  - simpl. rewrite (backtrack_put _ _ _ c) by (by apply cell_at_put_eq).
    simpl. rewrite Hs, put_put, (put_same _ _ _ He).
    destruct p0. done.
  - simpl.
    destruct (test_put (with_grid p0 (put (puzzle p0) (row, col) c)) row col num c)
      as (ok & -> & Hok); [by apply Hwfc|by apply cell_at_put_eq|].
    simpl in Hok. rewrite put_put in Hok. simpl. rewrite put_put.
    assert (∀ num' calls', num' ∈ nums →
       valid_at p0 (put (puzzle p0) (row, col) (Num num')) (row, col) →
       outcome (with_slots (with_grid p0 (put (puzzle p0) (row, col) (Num num')))
                           (empty_slots_left p0 - 1))
               (step num'
                  (with_slots (with_grid p0 (put (puzzle p0) (row, col) (Num num')))
                              (empty_slots_left p0 - 1))
                  calls')) as Hstep'.
    { intros num' calls' Hin. apply Hstep. by right. }
    destruct ok.
    + specialize (Hstep num calls ltac:(by left) ltac:(by apply Hok)).
      unfold with_grid at 1 in Hstep. simpl in Hstep.
      unfold with_slots at 1, with_grid at 1. simpl.
      destruct (step num _ calls) as [[p2 c2]| |]; simpl in *; [|done|done].
      destruct (solved p2) eqn:Hs2.
      * rewrite (is_solved_cached p2 Hs2). simpl. rewrite Hs2.
        destruct Hstep as (Hsb & Hd & Hex & Hck). split; [done|]. split; [done|].
        split; [|done]. eapply extends_trans; [by apply extends_put|done].
      * assert (p2 = with_grid p0 (put (puzzle p0) (row, col) (Num num))) as ->.
        { rewrite Hstep. unfold with_slots, with_grid. simpl. f_equal. lia. }
        apply (Hcheck (Num num) c2 (λ p3, try_loop step row col nums p3 c2)).
        by apply IH.
    + apply (Hcheck c calls (λ p3, try_loop step row col nums p3 calls)).
      by apply IH.
Qed.

Lemma try_loop_outcome_entry step row col nums p0 calls :
  well_formed p0 → solved p0 = false →
  cell_at (puzzle p0) (row, col) = Some Empty →
  (∀ num calls, num ∈ nums →
     valid_at p0 (put (puzzle p0) (row, col) (Num num)) (row, col) →
     outcome (with_slots (with_grid p0 (put (puzzle p0) (row, col) (Num num)))
                         (empty_slots_left p0 - 1))
             (step num
                (with_slots (with_grid p0 (put (puzzle p0) (row, col) (Num num)))
                            (empty_slots_left p0 - 1))
                calls)) →
  outcome p0 (try_loop step row col nums p0 calls).
Proof.
  intros Hwf Hs He Hstep.
  pose proof (try_loop_outcome step row col nums p0 Hwf Hs He Hstep Empty calls) as H.
  by rewrite (put_same _ _ _ He), with_grid_same in H.
Qed.

(** ** The brute-force search step *)

Lemma bf_outcome fuel : ∀ p row col calls,
  well_formed p → solved p = false →
  (col ≤ width p)%nat →
  (row * width p + col ≤ height p * width p)%nat →
  (height p * width p - (row * width p + col) < fuel)%nat →
  outcome p (BruteForce.solve_rec fuel p row col calls).
Proof.
  induction fuel as [|fuel IH]; intros p row col calls Hwf Hs Hcol Hidx Hfuel;
    [lia|].
  pose proof (wf_dims p Hwf) as Hdims. pose proof (wf_width p Hwf) as Hw.
  cbn [BruteForce.solve_rec].
  destruct (is_solved_cases p Hwf Hs) as [[His _]|(His & _ & Hok)]; rewrite His;
    cbn [res_bind].
  2:{ simpl. split; [done|]. split; [done|]. split; [apply extends_refl|done]. }
  set (pos := if decide (width p ≤ col)%nat then (S row, 0%nat) else (row, col)).
  assert (pos.2 < width p ∧ pos.1 * width p + pos.2 = row * width p + col)%nat
    as [Hc' Hidx'].
  { unfold pos. destruct (decide (width p ≤ col)%nat); simpl; lia. }
  destruct pos as [row' col']. simpl in Hc', Hidx'.
  destruct (decide (height p ≤ row')%nat) as [Hge|Hlt].
  - rewrite His. cbn [res_bind]. unfold index at 1.
    rewrite lookup_ge_None_2; [done|]. destruct Hdims as [-> _]. done.
  - cbn [res_bind].
    destruct (cell_at_in_bounds p (puzzle p) (row', col') Hdims) as [c Hc];
      [split; simpl; lia|].
    pose proof Hc as Hc2. unfold cell_at in Hc2. simpl in Hc2.
    destruct (puzzle p !! row') as [r|] eqn:Hr; [|done].
    rewrite (index_Ret _ _ _ Hr). cbn [res_bind].
    rewrite (index_Ret _ _ _ Hc2). cbn [res_bind].
    assert (row' * width p + S col' ≤ height p * width p)%nat as Hnext by nia.
    destruct c as [|n]; simpl.
    + destruct (wf_cover p (row', col') Hwf) as [rg Hrg]; [split; simpl; lia|].
      unfold get_region. rewrite Hrg. cbn [res_bind].
      rewrite place_loop_try. apply try_loop_outcome_entry; [done|done|done|].
      intros num calls' _ _. apply IH; simpl; try done; try lia.
      apply wf_with_grid; [done|]. by apply grid_dims_put.
    + apply IH; try done; lia.
Qed.

(** ** The heuristic search step *)

Lemma narrowed_squares row col value rs (l : list ((nat * nat) * gset Z)) :
  (sorted (narrow row col value rs <$> l)).*1 ≡ₚ l.*1.
Proof.
  rewrite sorted_perm, <- list_fmap_compose. done.
Qed.

Lemma h_outcome set_order fuel : ∀ p (remaining : list ((nat * nat) * gset Z)) calls,
  well_formed p → solved p = false →
  NoDup remaining.*1 →
  Forall (λ sq, cell_at (puzzle p) sq = Some Empty) remaining.*1 →
  (length remaining < fuel)%nat →
  outcome p (solve_rec set_order fuel p remaining calls).
Proof.
  induction fuel as [|fuel IH]; intros p remaining calls Hwf Hs Hnd Hem Hfuel;
    [lia|].
  pose proof (wf_dims p Hwf) as Hdims.
  cbn [solve_rec].
  destruct (is_solved_cases p Hwf Hs) as [[His _]|(His & _ & Hok)]; rewrite His;
    cbn [res_bind].
  2:{ simpl. split; [done|]. split; [done|]. split; [apply extends_refl|done]. }
  destruct remaining as [|[[row col] cands] rest]; [done|].
  simpl in Hnd, Hem, Hfuel. apply NoDup_cons in Hnd as [Hnotin Hnd].
  apply Forall_cons in Hem as [He Hem].
  simpl. rewrite value_loop_try.
  apply try_loop_outcome_entry; [done|done|done|].
  intros num calls' _ _.
  destruct (wf_cover p (row, col) Hwf) as [rg Hrg].
  { eapply cell_at_bounds; [done|]. by eexists. }
  unfold update_remaining, get_region. simpl. rewrite Hrg. cbn [res_bind].
  apply IH.
  - apply wf_with_grid; [done|]. by apply grid_dims_put.
  - done.
  - by rewrite narrowed_squares.
  - rewrite narrowed_squares. simpl. rewrite Forall_forall in Hem |- *.
    intros sq Hsq. rewrite cell_at_put_ne; [by apply Hem|].
    intros ->. done.
  - rewrite (Permutation_length (sorted_perm _)), length_fmap, drop_0. lia.
Qed.

Lemma well_formed_1x2 : well_formed puzzle_1x2_empty.
Proof. apply (bool_decide_unpack _). vm_compute. exact I. Qed.

(** X6: when the brute-force search, started at the first cell of a
    well-formed unsolved board, hands back a puzzle marked solved, that
    puzzle is on the same board, its grid has the board's dimensions and
    keeps every number of the grid it was given, and it passes the solved
    check (full, rows, checked columns and regions valid). *)
Theorem bf_search_sound fuel p calls p' calls' :
  well_formed p → solved p = false →
  (height p * width p < fuel)%nat →
  BruteForce.solve_rec fuel p 0 0 calls = Ret (p', calls') →
  solved p' = true →
  same_board p p' ∧ grid_dims p (puzzle p')
  ∧ extends (puzzle p) (puzzle p') ∧ check_ok p (puzzle p').
Proof.
  intros Hwf Hs Hfuel Hrun Hs'.
  pose proof (bf_outcome fuel p 0 0 calls Hwf Hs) as Hout.
  rewrite Hrun in Hout. simpl in Hout. rewrite Hs' in Hout.
  apply Hout; lia.
Qed.

Lemma bf_search_sound_witness :
  same_board puzzle_2x2 puzzle_2x2_solved
  ∧ grid_dims puzzle_2x2 (puzzle puzzle_2x2_solved)
  ∧ extends (puzzle puzzle_2x2) (puzzle puzzle_2x2_solved)
  ∧ check_ok puzzle_2x2 (puzzle puzzle_2x2_solved).
Proof.
  apply (bf_search_sound 5 puzzle_2x2 0 puzzle_2x2_solved 4).
  - apply (bool_decide_unpack _). vm_compute. exact I.
  - reflexivity.
  - simpl. lia.
  - vm_compute. reflexivity.
  - reflexivity.
Defined.

(** X7: when the brute-force search, started at the first cell of a
    well-formed unsolved board, comes back without a solution, it hands
    back the puzzle it was given: the grid is restored cell for cell, and
    the only field that changed is [empty_slots_left], one higher. *)
Theorem bf_search_restores fuel p calls p' calls' :
  well_formed p → solved p = false →
  (height p * width p < fuel)%nat →
  BruteForce.solve_rec fuel p 0 0 calls = Ret (p', calls') →
  solved p' = false →
  p' = with_slots p (empty_slots_left p + 1).
Proof.
  intros Hwf Hs Hfuel Hrun Hs'.
  pose proof (bf_outcome fuel p 0 0 calls Hwf Hs) as Hout.
  rewrite Hrun in Hout. simpl in Hout. rewrite Hs' in Hout.
  apply Hout; lia.
Qed.

Lemma bf_search_restores_witness :
  with_slots puzzle_1x2_empty 3
  = with_slots puzzle_1x2_empty (empty_slots_left puzzle_1x2_empty + 1).
Proof.
  apply (bf_search_restores 3 puzzle_1x2_empty 0 (with_slots puzzle_1x2_empty 3) 2).
  - apply (bool_decide_unpack _). vm_compute. exact I.
  - reflexivity.
  - simpl. lia.
  - vm_compute. reflexivity.
  - reflexivity.
Defined.

(** X8: on a well-formed board the brute-force search started at the
    first cell never needs more than [height * width + 1] nested calls:
    with that much fuel it returns or raises. *)
Theorem bf_search_terminates fuel p calls :
  well_formed p → (height p * width p < fuel)%nat →
  BruteForce.solve_rec fuel p 0 0 calls ≠ OutOfFuel.
Proof.
  intros Hwf Hfuel. destruct (solved p) eqn:Hs.
  - destruct fuel as [|fuel]; [lia|]. cbn [BruteForce.solve_rec].
    by rewrite (is_solved_cached p Hs).
  - pose proof (bf_outcome fuel p 0 0 calls Hwf Hs) as Hout.
    intros Hrun. rewrite Hrun in Hout. apply Hout; lia.
Qed.

Lemma bf_search_terminates_witness :
  BruteForce.solve_rec 5 puzzle_2x2 0 0 0 ≠ OutOfFuel.
Proof.
  apply (bf_search_terminates 5 puzzle_2x2 0).
  - apply (bool_decide_unpack _). vm_compute. exact I.
  - simpl. lia.
Defined.

(** X9: when the heuristic search step, started on a well-formed unsolved
    board with a work list of distinct empty squares, hands back a puzzle
    marked solved, that puzzle is on the same board, its grid has the
    board's dimensions and keeps every number of the grid it was given,
    and it passes the solved check.  This holds for any order in which
    the candidate sets are visited. *)
Theorem h_search_sound set_order fuel p
    (remaining : list ((nat * nat) * gset Z)) calls p' calls' :
  well_formed p → solved p = false →
  NoDup remaining.*1 →
  Forall (λ sq, cell_at (puzzle p) sq = Some Empty) remaining.*1 →
  (length remaining < fuel)%nat →
  solve_rec set_order fuel p remaining calls = Ret (p', calls') →
  solved p' = true →
  same_board p p' ∧ grid_dims p (puzzle p')
  ∧ extends (puzzle p) (puzzle p') ∧ check_ok p (puzzle p').
Proof.
  intros Hwf Hs Hnd Hem Hfuel Hrun Hs'.
  pose proof (h_outcome set_order fuel p remaining calls Hwf Hs Hnd Hem Hfuel)
    as Hout.
  rewrite Hrun in Hout. simpl in Hout. by rewrite Hs' in Hout.
Qed.

Lemma h_search_sound_witness :
  same_board puzzle_2x2 puzzle_2x2_solved_h
  ∧ grid_dims puzzle_2x2 (puzzle puzzle_2x2_solved_h)
  ∧ extends (puzzle puzzle_2x2) (puzzle puzzle_2x2_solved_h)
  ∧ check_ok puzzle_2x2 (puzzle puzzle_2x2_solved_h).
Proof.
  apply (h_search_sound elements 4 puzzle_2x2 work_list_2x2 0
           puzzle_2x2_solved_h 4).
  - apply (bool_decide_unpack _). vm_compute. exact I.
  - reflexivity.
  - apply (bool_decide_unpack _). vm_compute. exact I.
  - apply (bool_decide_unpack _). vm_compute. exact I.
  - vm_compute. lia.
  - vm_compute. reflexivity.
  - reflexivity.
Defined.

(** X10: when the heuristic search step, started on a well-formed
    unsolved board with a work list of distinct empty squares, comes back
    without a solution, it hands back the puzzle it was given: the grid
    is restored cell for cell, and the only field that changed is
    [empty_slots_left], one higher. *)
Theorem h_search_restores set_order fuel p
    (remaining : list ((nat * nat) * gset Z)) calls p' calls' :
  well_formed p → solved p = false →
  NoDup remaining.*1 →
  Forall (λ sq, cell_at (puzzle p) sq = Some Empty) remaining.*1 →
  (length remaining < fuel)%nat →
  solve_rec set_order fuel p remaining calls = Ret (p', calls') →
  solved p' = false →
  p' = with_slots p (empty_slots_left p + 1).
Proof.
  intros Hwf Hs Hnd Hem Hfuel Hrun Hs'.
  pose proof (h_outcome set_order fuel p remaining calls Hwf Hs Hnd Hem Hfuel)
    as Hout.
  rewrite Hrun in Hout. simpl in Hout. by rewrite Hs' in Hout.
Qed.

Lemma h_search_restores_witness :
  with_slots puzzle_1x2_empty 3
  = with_slots puzzle_1x2_empty (empty_slots_left puzzle_1x2_empty + 1).
Proof.
  apply (h_search_restores elements 3 puzzle_1x2_empty work_list_1x2 0
           (with_slots puzzle_1x2_empty 3) 2).
  - apply (bool_decide_unpack _). vm_compute. exact I.
  - reflexivity.
  - apply (bool_decide_unpack _). vm_compute. exact I.
  - apply (bool_decide_unpack _). vm_compute. exact I.
  - vm_compute. lia.
  - vm_compute. reflexivity.
  - reflexivity.
Defined.

(** X11: on a well-formed board, with a work list of distinct empty
    squares, the heuristic search never nests deeper than the length of
    the work list plus one: with that much fuel it returns or raises. *)
Theorem h_search_terminates set_order fuel p
    (remaining : list ((nat * nat) * gset Z)) calls :
  well_formed p →
  NoDup remaining.*1 →
  Forall (λ sq, cell_at (puzzle p) sq = Some Empty) remaining.*1 →
  (length remaining < fuel)%nat →
  solve_rec set_order fuel p remaining calls ≠ OutOfFuel.
Proof.
  intros Hwf Hnd Hem Hfuel. destruct (solved p) eqn:Hs.
  - destruct fuel as [|fuel]; [lia|]. cbn [solve_rec].
    by rewrite (is_solved_cached p Hs).
  - pose proof (h_outcome set_order fuel p remaining calls Hwf Hs Hnd Hem Hfuel)
      as Hout.
    intros Hrun. by rewrite Hrun in Hout.
Qed.

Lemma h_search_terminates_witness :
  solve_rec elements 4 puzzle_2x2 work_list_2x2 0 ≠ OutOfFuel.
Proof.
  apply (h_search_terminates elements 4 puzzle_2x2 work_list_2x2 0).
  - apply (bool_decide_unpack _). vm_compute. exact I.
  - apply (bool_decide_unpack _). vm_compute. exact I.
  - apply (bool_decide_unpack _). vm_compute. exact I.
  - vm_compute. lia.
Defined.

(** ** The first work list *)

(** The result of the preprocessing, for use in the lemmas below. *)
Lemma preprocess_result p :
  well_formed p → clues_in_range p →
  ∃ d, preprocess p = Ret d
       ∧ NoDup d.*1
       ∧ (∀ sq, sq ∈ d.*1 ↔ in_bounds p sq)
       ∧ ∀ sq, in_bounds p sq →
           match cell_at (puzzle p) sq with
           | Some (Num n) => dict_get d sq = Some (RInt n)
           | _ => ∃ s, dict_get d sq = Some (RSet s)
                       ∧ ∀ x, x ∈ s ↔ candidate p sq x
           end.
Proof.
  intros Hwf Hclues. unfold preprocess.
  destruct (fill_rows_cols_ok p Hwf) as (rc & ->). simpl.
  destruct (regions_dict_spec p Hwf) as (rd & -> & _ & Hrk & Hrv). simpl.
  destruct (seed_spec p rd Hwf Hclues Hrk Hrv) as (d0 & -> & Hnd0 & Hv0 & Hk0).
  simpl. rewrite (reduce_flat p d0 Hwf).
  destruct (reduce_events_spec (reduce_events p) d0 Hnd0)
    as (d & -> & Hnd & Hk & Hred).
  { intros [[x dist] sq] Hin. simpl. apply Hk0.
    apply elem_of_reduce_events in Hin
      as (row & col & ? & ? & _ & [(? & ? & _)|(? & ? & _)]); split; lia. }
  exists d. split; [done|]. split; [done|].
  split; [intros sq; by rewrite Hk, Hk0|].
  intros sq Hb. specialize (Hred sq).
  assert (sq ∈ d0.*1) as Hin0 by (by apply Hk0).
  apply dict_get_is_Some in Hin0 as [v0 Hv0sq]. rewrite Hv0sq in Hred.
  apply Hv0 in Hv0sq. unfold seed_value in Hv0sq.
  destruct (cell_at_in_bounds p (puzzle p) sq (wf_dims p Hwf) Hb) as [c Hc].
  rewrite Hc in *. destruct c as [|n].
  - destruct Hv0sq as (rg & s0 & Hrg & -> & Hs0).
    destruct Hred as (s & Hs & Hin). exists s. split; [done|]. intros x.
    rewrite Hin, Hs0, (hit_reduce_events p sq x Hwf Hb). unfold candidate. split.
    + intros ((? & ?) & ? & ?). exists rg. done.
    + intros (rg' & Hrg' & ? & ? & ? & ?). by simplify_eq.
  - by subst.
Qed.

Lemma elem_of_to_solve (d : list ((nat * nat) * rem_val)) sq s :
  (sq, s) ∈ to_solve d ↔ (sq, RSet s) ∈ d.
Proof.
  unfold to_solve. rewrite list_elem_of_omap. split.
  - intros ([sq' [s'|n]] & Hin & Heq); simplify_eq. done.
  - intros Hin. by exists (sq, RSet s).
Qed.

Lemma to_solve_NoDup (d : list ((nat * nat) * rem_val)) :
  NoDup d.*1 → NoDup (to_solve d).*1.
Proof.
  induction d as [|[sq v] d IH]; simpl; [done|]. intros Hnd.
  apply NoDup_cons in Hnd as [Hnotin Hnd]. destruct v as [s|n]; simpl.
  - apply NoDup_cons. split; [|by apply IH]. intros Hin. apply Hnotin.
    apply list_elem_of_fmap in Hin as ([sq' s'] & -> & Hin).
    apply elem_of_to_solve in Hin. apply list_elem_of_fmap.
    by exists (sq', RSet s').
  - by apply IH.
Qed.

(** X12: on a well-formed board with every clue in range, the first work
    list of the heuristic solver lists every empty square of the board
    exactly once (and no other square), each with the candidate set the
    preprocessing computed for it, in work-list order. *)
Theorem initial_remaining_spec p :
  well_formed p → clues_in_range p →
  ∃ l, initial_remaining p = Ret l
       ∧ NoDup l.*1
       ∧ (∀ sq, sq ∈ l.*1 ↔ cell_at (puzzle p) sq = Some Empty)
       ∧ (∀ sq s, (sq, s) ∈ l → ∀ x, x ∈ s ↔ candidate p sq x)
       ∧ Sorted entry_le l.
Proof.
  intros Hwf Hclues. unfold initial_remaining.
  destruct (preprocess_result p Hwf Hclues) as (d & -> & Hnd & Hkeys & Hvals).
  simpl. eexists. split; [done|].
  assert (∀ sq s, (sq, s) ∈ sorted (to_solve d) ↔ dict_get d sq = Some (RSet s))
    as Hmem.
  { intros sq s. rewrite sorted_perm, elem_of_to_solve. split.
    - by apply dict_elem_get.
    - apply dict_get_Some_elem. }
  split; [rewrite sorted_perm; by apply to_solve_NoDup|]. split; [|split].
  - intros sq. split.
    + intros Hin. apply list_elem_of_fmap in Hin as ([sq' s] & -> & Hin).
      apply Hmem in Hin. simpl.
      assert (in_bounds p sq') as Hb.
      { apply Hkeys, dict_get_is_Some. by eexists. }
      specialize (Hvals sq' Hb).
      destruct (cell_at_in_bounds p (puzzle p) sq' (wf_dims p Hwf) Hb) as [c Hc].
      rewrite Hc in Hvals |- *. destruct c as [|n]; [done|congruence].
    + intros Hc.
      assert (in_bounds p sq) as Hb.
      { eapply cell_at_bounds; [by apply wf_dims|by eexists]. }
      specialize (Hvals sq Hb). rewrite Hc in Hvals.
      destruct Hvals as (s & Hs & _). apply list_elem_of_fmap.
      exists (sq, s). split; [done|]. by apply Hmem.
  - intros sq s Hin. apply Hmem in Hin.
    assert (in_bounds p sq) as Hb.
    { apply Hkeys, dict_get_is_Some. by eexists. }
    specialize (Hvals sq Hb).
    destruct (cell_at (puzzle p) sq) as [[|n]|]; try congruence;
      destruct Hvals as (s' & Hs' & Hx); by simplify_eq.
  - apply sorted_Sorted.
Qed.

Lemma initial_remaining_spec_witness :
  ∃ l, initial_remaining puzzle_2x2 = Ret l
       ∧ NoDup l.*1
       ∧ (∀ sq, sq ∈ l.*1 ↔ cell_at (puzzle puzzle_2x2) sq = Some Empty)
       ∧ (∀ sq s, (sq, s) ∈ l → ∀ x, x ∈ s ↔ candidate puzzle_2x2 sq x)
       ∧ Sorted entry_le l.
Proof.
  apply (initial_remaining_spec puzzle_2x2).
  - apply (bool_decide_unpack _). vm_compute. exact I.
  - apply (bool_decide_unpack _). vm_compute. exact I.
Defined.

(** ** [update_remaining] *)

Lemma narrow_elem row col value (rg : list (nat * nat)) (e : (nat * nat) * gset Z) x :
  x ∈ (narrow row col value (list_to_set rg) e).2
  ↔ x ∈ e.2 ∧ ¬ (x = value ∧ touches row col value rg e.1).
Proof.
  unfold narrow, touches. simpl.
  destruct (decide (e.1.1 = row)) as [H1|H1];
    destruct (decide (e.1.2 = col)) as [H2|H2];
    destruct (decide (e.1 ∈ (list_to_set rg : gset (nat * nat)))) as [H3|H3];
    rewrite elem_of_list_to_set in H3;
    try (destruct (Z.abs (Z.of_nat col - Z.of_nat e.1.2) <=? value) eqn:Hd1;
         [apply Z.leb_le in Hd1|apply Z.leb_gt in Hd1]);
    try (destruct (Z.abs (Z.of_nat row - Z.of_nat e.1.1) <=? value) eqn:Hd2;
         [apply Z.leb_le in Hd2|apply Z.leb_gt in Hd2]);
    rewrite ?elem_of_difference, ?elem_of_singleton;
    intuition (try lia; try congruence).
Qed.

(** X13: [update_remaining] raises [TypeError] when the placed square has
    no region; otherwise it returns a list as long as the one it was
    given, holding for every entry of that list the same square with the
    placed value removed from its candidates exactly when the square is
    in the placed square's row at distance at most the value, in its
    column at distance at most the value, or in its region; no other
    candidate is removed. *)
Theorem update_remaining_spec (remaining : list ((nat * nat) * gset Z))
    row col value p :
  match get_region p (row, col) with
  | None => update_remaining remaining row col value p = Raise TypeError
  | Some rg =>
      ∃ l', update_remaining remaining row col value p = Ret l'
            ∧ length l' = length remaining
            ∧ ∀ sq (s' : gset Z),
                (sq, s') ∈ l' ↔
                ∃ s, (sq, s) ∈ remaining
                     ∧ ∀ x, x ∈ s' ↔
                            x ∈ s ∧ ¬ (x = value ∧ touches row col value rg sq)
  end.
Proof.
  unfold update_remaining. destruct (get_region p (row, col)) as [rg|]; [|done].
  simpl. eexists. split; [done|]. split.
  - by rewrite (Permutation_length (sorted_perm _)), length_fmap.
  - intros sq s'. rewrite sorted_perm, list_elem_of_fmap. split.
    + intros ([sq0 s] & Heq & Hin). exists s.
      assert (sq = sq0) as -> by (by injection Heq).
      split; [done|]. intros x.
      assert (s' = (narrow row col value (list_to_set rg) (sq0, s)).2) as ->
        by (by rewrite <- Heq).
      apply narrow_elem.
    + intros (s & Hin & Hs'). exists (sq, s). split; [|done].
      unfold narrow at 1. simpl. f_equal. apply set_eq. intros x.
      rewrite Hs'. symmetry. apply (narrow_elem row col value rg (sq, s) x).
Qed.

(** ** The region map filled by [read_puzzle] *)

Lemma add_region_lookup (m : gmap (nat * nat) (list (nat * nat))) v l sq :
  foldl (λ m sq, <[sq := v]> m) m l !! sq
  = if decide (sq ∈ l) then Some v else m !! sq.
Proof.
  revert m. induction l as [|x l IH]; intros m; simpl.
  - by repeat case_decide.
  - rewrite IH. destruct (decide (sq ∈ l)) as [Hin|Hnin].
    + rewrite decide_True; [done|]. by right.
    + destruct (decide (sq = x)) as [->|Hne].
      * rewrite lookup_insert_eq, decide_True; [done|]. by left.
      * rewrite lookup_insert_ne by done. rewrite decide_False; [done|].
        intros [?|?]%elem_of_cons; done.
Qed.

Lemma region_map_from (rs : list (list (nat * nat))) :
  ∀ (m : gmap (nat * nat) (list (nat * nat))) sq,
  foldl (λ m rg, foldl (λ m sq, <[sq := rg]> m) m rg) m rs !! sq
  = match list_find (λ rg, sq ∈ rg) (reverse rs) with
    | Some (_, rg) => Some rg
    | None => m !! sq
    end.
Proof.
  induction rs as [|rg rs IH] using rev_ind; intros m sq; [done|].
  rewrite foldl_app, reverse_app. simpl. rewrite add_region_lookup.
  destruct (decide (sq ∈ rg)) as [Hin|Hnin]; simpl; [done|].
  rewrite IH.
  by destruct (list_find (λ rg0, sq ∈ rg0) (reverse rs)) as [[i rg']|].
Qed.

(** X14: the region map [read_puzzle] builds from the regions it found
    sends a square to the last listed region that contains it: every
    entry names a listed region containing its key, every square of a
    listed region has an entry, and when no square lies in two different
    listed regions each square of a region is sent to that region. *)
Theorem build_region_map_spec (rs : list (list (nat * nat))) :
  (∀ sq rg, build_region_map rs !! sq = Some rg → rg ∈ rs ∧ sq ∈ rg)
  ∧ (∀ sq rg, rg ∈ rs → sq ∈ rg → is_Some (build_region_map rs !! sq))
  ∧ ((∀ rg rg' sq, rg ∈ rs → rg' ∈ rs → sq ∈ rg → sq ∈ rg' → rg = rg') →
     ∀ sq rg, rg ∈ rs → sq ∈ rg → build_region_map rs !! sq = Some rg).
Proof.
  assert (∀ sq rg, build_region_map rs !! sq = Some rg → rg ∈ rs ∧ sq ∈ rg) as Ha.
  { intros sq rg. unfold build_region_map. rewrite region_map_from.
    destruct (list_find _ (reverse rs)) as [[i rg']|] eqn:Hf; [|done].
    intros [= ->]. apply list_find_Some in Hf as (Hi & Hsq & _).
    split; [|done]. apply elem_of_reverse. by eapply list_elem_of_lookup_2. }
  assert (∀ sq rg, rg ∈ rs → sq ∈ rg → is_Some (build_region_map rs !! sq)) as Hb.
  { intros sq rg Hrg Hsq. unfold build_region_map. rewrite region_map_from.
    destruct (list_find _ (reverse rs)) as [[i rg']|] eqn:Hf; [by eexists|].
    exfalso. eapply list_find_None in Hf. rewrite Forall_forall in Hf.
    apply (Hf rg); [by apply elem_of_reverse|done]. }
  split; [done|]. split; [done|].
  intros Huniq sq rg Hrg Hsq. destruct (Hb sq rg Hrg Hsq) as [rg' Hrg'].
  rewrite Hrg'. f_equal. destruct (Ha sq rg' Hrg') as [? ?]. by eapply Huniq.
Qed.

(** ** Validity and extension of grids *)

Lemma row_ok_extends (g s : list (list cell)) row :
  extends g s → row_ok s row → row_ok g row.
Proof. intros Hex Hok c1 c2 v H1 H2. apply Hok; by apply Hex. Qed.

Lemma col_ok_extends (g s : list (list cell)) col :
  extends g s → col_ok s col → col_ok g col.
Proof. intros Hex Hok r1 r2 v H1 H2. apply Hok; by apply Hex. Qed.

Lemma region_values_sublist (g s : list (list cell)) rg :
  extends g s → region_values g rg `sublist_of` region_values s rg.
Proof.
  intros Hex. unfold region_values. induction rg as [|sq rg IH]; simpl; [done|].
  destruct (cell_at g sq) as [[|n]|] eqn:Hg.
  - destruct (cell_at s sq) as [[|n]|]; [done| |done]. by apply sublist_cons.
  - rewrite (Hex sq n Hg). by apply sublist_skip.
  - destruct (cell_at s sq) as [[|n]|]; [done| |done]. by apply sublist_cons.
Qed.

Lemma region_ok_extends (g s : list (list cell)) rg :
  extends g s → region_ok s rg → region_ok g rg.
Proof.
  intros Hex Hok. unfold region_ok in *.
  eapply sublist_NoDup; [done|by apply region_values_sublist].
Qed.

Lemma lines_ok_extends p (g s : list (list cell)) :
  extends g s → lines_ok p s → lines_ok p g.
Proof.
  intros Hex [Hl Hr]. split.
  - intros row Hrow. destruct (Hl row Hrow) as [H1 H2].
    split; [by eapply row_ok_extends|by eapply col_ok_extends].
  - eapply Forall_impl; [done|]. intros rg. by apply region_ok_extends.
Qed.

Lemma valid_at_extends p (g s : list (list cell)) sq :
  extends g s → valid_at p s sq → valid_at p g sq.
Proof.
  intros Hex (Hr & Hc & rg & Hrg & Hok). split; [by eapply row_ok_extends|].
  split; [by eapply col_ok_extends|]. exists rg. split; [done|].
  by eapply region_ok_extends.
Qed.

Lemma row_ok_put_ne (g : list (list cell)) sq v row :
  sq.1 ≠ row → row_ok (put g sq v) row → row_ok g row.
Proof.
  intros Hne Hok c1 c2 n H1 H2. apply Hok; rewrite cell_at_put_ne; try done;
    intros <-; done.
Qed.

Lemma row_ok_put_keep (g : list (list cell)) sq v row :
  sq.1 ≠ row → row_ok g row → row_ok (put g sq v) row.
Proof.
  intros Hne Hok c1 c2 n H1 H2.
  rewrite cell_at_put_ne in H1 by (intros <-; done).
  rewrite cell_at_put_ne in H2 by (intros <-; done). by apply Hok.
Qed.

Lemma col_ok_put_keep (g : list (list cell)) sq v col :
  sq.2 ≠ col → col_ok g col → col_ok (put g sq v) col.
Proof.
  intros Hne Hok r1 r2 n H1 H2.
  rewrite cell_at_put_ne in H1 by (intros <-; done).
  rewrite cell_at_put_ne in H2 by (intros <-; done). by apply Hok.
Qed.

Lemma region_values_put_ne (g : list (list cell)) sq v rg :
  sq ∉ rg → region_values (put g sq v) rg = region_values g rg.
Proof.
  intros Hnin. unfold region_values. induction rg as [|sq' rg IH]; simpl; [done|].
  apply not_elem_of_cons in Hnin as [Hne Hnin].
  rewrite cell_at_put_ne by done. specialize (IH Hnin).
  destruct (cell_at g sq') as [[|n]|]; [exact IH|f_equal; exact IH|exact IH].
Qed.

(** Placing a value that [is_valid] accepts keeps the checked lines valid. *)
Lemma lines_ok_put p (g : list (list cell)) sq v :
  well_formed p → lines_ok p g → valid_at p (put g sq v) sq →
  lines_ok p (put g sq v).
Proof.
  intros Hwf [Hl Hr] (Hrow & Hcol & rg & Hrg & Hok). split.
  - intros row Hlt. destruct (Hl row Hlt) as [H1 H2]. split.
    + destruct (decide (sq.1 = row)) as [<-|Hne]; [done|].
      by apply row_ok_put_keep.
    + destruct (decide (sq.2 = (row mod width p)%nat)) as [<-|Hne]; [done|].
      by apply col_ok_put_keep.
  - rewrite Forall_forall in Hr |- *. intros rg' Hrg'.
    destruct (decide (sq ∈ rg')) as [Hin|Hnin].
    + destruct (wf_region_sq p rg' sq Hwf Hrg' Hin) as [_ Hmap].
      by simplify_eq.
    + unfold region_ok. rewrite region_values_put_ne by done. by apply Hr.
Qed.

Lemma region_values_same_value (s : list (list cell)) rg sq sq' n :
  sq ∈ rg → sq' ∈ rg → sq ≠ sq' →
  cell_at s sq = Some (Num n) → cell_at s sq' = Some (Num n) →
  ¬ region_ok s rg.
Proof.
  unfold region_ok, region_values. intros Hin Hin' Hne Hc Hc'.
  induction rg as [|x rg IH]; [by apply elem_of_nil in Hin|].
  simpl. apply elem_of_cons in Hin as [->|Hin];
    apply elem_of_cons in Hin' as [->|Hin'].
  - done.
  - rewrite Hc. intros [Hnotin _]%NoDup_cons. apply Hnotin.
    apply list_elem_of_omap. exists sq'. by rewrite Hc'.
  - rewrite Hc'. intros [Hnotin _]%NoDup_cons. apply Hnotin.
    apply list_elem_of_omap. exists sq. by rewrite Hc.
  - destruct (cell_at s x) as [[|m]|]; [by apply IH| |by apply IH].
    intros [_ Hnd]%NoDup_cons. by apply IH.
Qed.

Lemma elem_of_nums_from iters : ∀ num n,
  n ∈ nums_from num iters ↔ num < n ≤ num + Z.of_nat iters.
Proof.
  induction iters as [|iters IH]; intros num n; simpl.
  - split; [intros H; by apply elem_of_nil in H|lia].
  - rewrite elem_of_cons, IH. lia.
Qed.

(** ** Completions *)

Lemma completion_full p (g : list (list cell)) :
  grid_dims p g → check_ok p g → completion p g g.
Proof.
  intros Hd Hok. split; [done|]. split; [apply extends_refl|]. split; [done|].
  intros sq He. destruct Hok as [Hf _]. destruct (Hf sq) as [n Hn]; [|congruence].
  eapply cell_at_bounds; [done|]. by eexists.
Qed.

Lemma completion_put p (g s : list (list cell)) sq n :
  completion p g s → cell_at g sq = Some Empty → cell_at s sq = Some (Num n) →
  completion p (put g sq (Num n)) s.
Proof.
  intros (Hd & Hex & Hok & Hem) Hg Hs. split; [done|]. split; [|split; [done|]].
  - intros sq' m Hm. destruct (decide (sq' = sq)) as [->|Hne].
    + rewrite cell_at_put_eq in Hm by (by eexists). by simplify_eq.
    + rewrite cell_at_put_ne in Hm by done. by apply Hex.
  - intros sq' Hsq'. destruct (decide (sq' = sq)) as [->|Hne].
    + rewrite cell_at_put_eq in Hsq' by (by eexists). done.
    + rewrite cell_at_put_ne in Hsq' by done. by apply Hem.
Qed.

Lemma completion_step p (g s : list (list cell)) sq n :
  well_formed p → grid_dims p g →
  cell_at g sq = Some Empty →
  valid_at p (put g sq (Num n)) sq → in_range p sq n →
  completion p (put g sq (Num n)) s → completion p g s.
Proof.
  intros Hwf Hdg Hg Hvalid Hrange (Hd & Hex & Hok & Hem).
  assert (on_grid g sq) as Hon by (by eexists).
  assert (in_bounds p sq) as Hb by (eapply cell_at_bounds; [exact Hdg|exact Hon]).
  assert (cell_at s sq = Some (Num n)) as Hs.
  { apply Hex. by apply cell_at_put_eq. }
  split; [done|]. split; [|split; [done|]].
  { eapply extends_trans; [by apply extends_put|done]. }
  intros sq' Hsq'. destruct (decide (sq' = sq)) as [->|Hne].
  2:{ apply Hem. by rewrite cell_at_put_ne. }
  exists n. split; [done|]. split; [done|].
  destruct Hvalid as (Hvr & Hvc & rg & Hrg & Hvg).
  destruct Hok as (Hf & Hl & Hr). split; [by apply Hl, Hb|]. split.
  - intros r1 r2 v H1 H2 Hlt.
    assert (∀ r, cell_at s (r, sq.2) = Some (Num v) →
              col_ok s sq.2 ∨ cell_at (put g sq (Num n)) (r, sq.2) = Some (Num v))
      as Hcase.
    { intros r Hr'.
      destruct (cell_at_in_bounds p (put g sq (Num n)) (r, sq.2)) as [c Hc].
      { by apply grid_dims_put. }
      { eapply cell_at_bounds; [exact Hd|by eexists]. }
      destruct c as [|m].
      - left. destruct (Hem _ Hc) as (? & _ & _ & _ & Hcol & _). exact Hcol.
      - right. rewrite Hc. pose proof (Hex _ _ Hc). congruence. }
    destruct (Hcase r1 H1) as [Hcol|H1']; [by eapply Hcol|].
    destruct (Hcase r2 H2) as [Hcol|H2']; [by eapply Hcol|].
    by eapply Hvc.
  - exists rg. split; [done|]. rewrite Forall_forall in Hr. apply Hr.
    by eapply wf_map.
Qed.

Lemma loop_verdict_cons p sq num nums r :
  (¬ ∃ s, completion p (puzzle p) s ∧ cell_at s sq = Some (Num num)) →
  loop_verdict p sq nums r → loop_verdict p sq (num :: nums) r.
Proof.
  intros Hnum. destruct r as [[p' c']| |]; simpl; [|done|done].
  destruct (solved p'); [done|]. intros Hrest num' [->|Hin]%elem_of_cons; [done|].
  by apply Hrest.
Qed.

Lemma try_loop_verdict step row col nums p0 :
  well_formed p0 → solved p0 = false → 0 < empty_slots_left p0 →
  cell_at (puzzle p0) (row, col) = Some Empty →
  (∀ num, num ∈ nums → in_range p0 (row, col) num) →
  (∀ num calls, num ∈ nums →
     valid_at p0 (put (puzzle p0) (row, col) (Num num)) (row, col) →
     let p1 := with_slots (with_grid p0 (put (puzzle p0) (row, col) (Num num)))
                          (empty_slots_left p0 - 1) in
     outcome p1 (step num p1 calls) ∧ verdict p1 (step num p1 calls)) →
  ∀ c calls,
    loop_verdict p0 (row, col) nums
      (try_loop step row col nums
         (with_grid p0 (put (puzzle p0) (row, col) c)) calls).
Proof.
  intros Hwf Hs HL He. pose proof (wf_dims p0 Hwf) as Hdims.
  assert (on_grid (puzzle p0) (row, col)) as Hon by (by eexists).
  assert (∀ c, is_solved (with_grid p0 (put (puzzle p0) (row, col) c))
               = Ret (false, with_grid p0 (put (puzzle p0) (row, col) c)))
    as Hunsolved.
  { intros c. by apply is_solved_positive. }
  induction nums as [|num nums IH]; intros Hrange Hstep c calls.
  - simpl. rewrite (backtrack_put _ _ _ c) by (by apply cell_at_put_eq).
    simpl. rewrite Hs. intros num Hnum. by apply elem_of_nil in Hnum.
  - simpl.
    destruct (test_put (with_grid p0 (put (puzzle p0) (row, col) c)) row col num c)
      as (ok & -> & Hok).
    { apply wf_with_grid; [done|]. by apply grid_dims_put. }
    { by apply cell_at_put_eq. }
    simpl in Hok. rewrite put_put in Hok. simpl. rewrite put_put.
    assert (∀ c' calls',
      loop_verdict p0 (row, col) nums
        (try_loop step row col nums
           (with_grid p0 (put (puzzle p0) (row, col) c')) calls')) as IH'.
    { apply IH.
      - intros num' Hin. apply Hrange. by right.
      - intros num' calls' Hin. apply Hstep. by right. }
    destruct ok.
    + destruct (Hstep num calls ltac:(by left) ltac:(by apply Hok)) as [Hout Hver].
      unfold with_grid at 1 in Hout. unfold with_grid at 1 in Hver.
      simpl in Hout, Hver.
      unfold with_slots at 1, with_grid at 1. simpl.
      destruct (step num _ calls) as [[p2 c2]| |]; simpl in *; [| |done].
      * destruct (solved p2) eqn:Hs2.
        -- rewrite (is_solved_cached p2 Hs2). simpl. rewrite Hs2.
           eapply completion_step; [done|done|done|by apply Hok| |exact Hver].
           apply Hrange. by left.
        -- assert (p2 = with_grid p0 (put (puzzle p0) (row, col) (Num num))) as ->.
           { rewrite Hout. unfold with_slots, with_grid. simpl. f_equal. lia. }
           rewrite Hunsolved. simpl. apply loop_verdict_cons; [|apply IH'].
           intros (s & Hcomp & Hsq). apply Hver. exists s.
           by apply completion_put.
      * intros Hlines. apply Hver.
        change (lines_ok p0 (put (puzzle p0) (row, col) (Num num))).
        apply lines_ok_put; [done|done|]. by apply Hok.
    + cbn [res_bind]. rewrite Hunsolved. cbn [res_bind].
      apply loop_verdict_cons; [|apply IH'].
      intros (s & Hcomp & Hsq).
      assert (valid_at p0 s (row, col)) as Hv.
      { destruct Hcomp as (_ & _ & _ & Hem).
        destruct (Hem _ He) as (? & _ & _ & Hv). exact Hv. }
      assert (false = true); [|done]. apply Hok.
      change (valid_at p0 (put (puzzle p0) (row, col) (Num num)) (row, col)).
      eapply valid_at_extends; [|exact Hv].
      by destruct (completion_put p0 _ s (row, col) num Hcomp He Hsq) as (_ & ? & _).
Qed.

Lemma try_loop_verdict_entry step row col nums p0 calls :
  well_formed p0 → solved p0 = false → 0 < empty_slots_left p0 →
  cell_at (puzzle p0) (row, col) = Some Empty →
  (∀ num, num ∈ nums → in_range p0 (row, col) num) →
  (∀ num calls, num ∈ nums →
     valid_at p0 (put (puzzle p0) (row, col) (Num num)) (row, col) →
     let p1 := with_slots (with_grid p0 (put (puzzle p0) (row, col) (Num num)))
                          (empty_slots_left p0 - 1) in
     outcome p1 (step num p1 calls) ∧ verdict p1 (step num p1 calls)) →
  loop_verdict p0 (row, col) nums (try_loop step row col nums p0 calls).
Proof.
  intros Hwf Hs HL He Hrange Hstep.
  pose proof (try_loop_verdict step row col nums p0 Hwf Hs HL He Hrange Hstep
                Empty calls) as H.
  by rewrite (put_same _ _ _ He), with_grid_same in H.
Qed.

(** When the values tried cover every value a completion can hold at the
    square, the loop's verdict is the step's verdict. *)
Lemma loop_verdict_all p sq nums r :
  cell_at (puzzle p) sq = Some Empty →
  (∀ s n, completion p (puzzle p) s → cell_at s sq = Some (Num n) → n ∈ nums) →
  loop_verdict p sq nums r → verdict p r.
Proof.
  intros He Hcover. destruct r as [[p' c']| |]; simpl; [|done|done].
  destruct (solved p'); [done|]. intros Hnone (s & Hcomp).
  pose proof Hcomp as (_ & _ & _ & Hem). destruct (Hem sq He) as (n & Hn & _).
  apply (Hnone n); [by eapply Hcover|]. by exists s.
Qed.

Lemma empty_cell_counted (g : list (list cell)) sq :
  cell_at g sq = Some Empty → 0 < count_empty g.
Proof.
  intros He. pose proof (count_empty_put g sq Empty (Num 0) He) as Hput.
  pose proof (count_empty_nonneg (put g sq (Num 0))).
  unfold dot_count in Hput. simpl in Hput. lia.
Qed.

Lemma same_index p (sq : nat * nat) row col :
  (sq.2 < width p)%nat → (col < width p)%nat →
  (sq.1 * width p + sq.2 = row * width p + col)%nat → sq = (row, col).
Proof.
  intros H2 Hc Heq. destruct sq as [r c]. simpl in *.
  assert (r = row) as -> by nia. f_equal. lia.
Qed.

Lemma bf_verdict fuel : ∀ p row col calls,
  well_formed p → solved p = false →
  empty_slots_left p = count_empty (puzzle p) →
  (col ≤ width p)%nat →
  (row * width p + col ≤ height p * width p)%nat →
  (height p * width p - (row * width p + col) < fuel)%nat →
  filled_before p (puzzle p) row col →
  verdict p (BruteForce.solve_rec fuel p row col calls).
Proof.
  induction fuel as [|fuel IH];
    intros p row col calls Hwf Hs HL Hcol Hidx Hfuel Hbefore; [lia|].
  pose proof (wf_dims p Hwf) as Hdims. pose proof (wf_width p Hwf) as Hw.
  cbn [BruteForce.solve_rec].
  destruct (is_solved_cases p Hwf Hs) as [[His Hwhy]|(His & _ & Hok)]; rewrite His;
    cbn [res_bind].
  2:{ simpl. by apply completion_full. }
  set (pos := if decide (width p ≤ col)%nat then (S row, 0%nat) else (row, col)).
  assert (pos.2 < width p ∧ pos.1 * width p + pos.2 = row * width p + col)%nat
    as [Hc' Hidx'].
  { unfold pos. destruct (decide (width p ≤ col)%nat); simpl; lia. }
  destruct pos as [row' col']. simpl in Hc', Hidx'.
  destruct (decide (height p ≤ row')%nat) as [Hge|Hlt].
  - rewrite His. cbn [res_bind]. unfold index at 1.
    rewrite lookup_ge_None_2 by (destruct Hdims as [-> _]; done).
    simpl. intros Hlines.
    assert (filled p (puzzle p)) as Hfilled.
    { intros sq [Hb1 Hb2]. apply Hbefore; [done|]. nia. }
    destruct Hwhy as [Hpos|Hno]; [|by apply Hno].
    rewrite HL, (filled_no_empty p _ Hdims Hfilled) in Hpos. lia.
  - cbn [res_bind].
    destruct (cell_at_in_bounds p (puzzle p) (row', col') Hdims) as [c Hc];
      [split; simpl; lia|].
    pose proof Hc as Hc2. unfold cell_at in Hc2. simpl in Hc2.
    destruct (puzzle p !! row') as [r|] eqn:Hr; [|done].
    rewrite (index_Ret _ _ _ Hr). cbn [res_bind].
    rewrite (index_Ret _ _ _ Hc2). cbn [res_bind].
    assert (row' * width p + S col' ≤ height p * width p)%nat as Hnext by nia.
    destruct c as [|n]; simpl.
    + destruct (wf_cover p (row', col') Hwf) as [rg Hrg]; [split; simpl; lia|].
      unfold get_region. rewrite Hrg. cbn [res_bind].
      rewrite place_loop_try.
      pose proof (empty_cell_counted _ _ Hc) as Hcount.
      apply (loop_verdict_all p (row', col') (nums_from 0 (length rg))); [done| |].
      { intros s n (_ & _ & _ & Hem) Hn.
        destruct (Hem _ Hc) as (n' & Hn' & (rg' & Hrg' & Hr') & _).
        apply elem_of_nums_from. simplify_eq. lia. }
      apply try_loop_verdict_entry; [done|done|lia|done| |].
      { intros num Hnum. apply elem_of_nums_from in Hnum. exists rg.
        split; [done|lia]. }
      intros num calls' _ _ p1.
      assert (well_formed p1) as Hwf1.
      { apply wf_with_grid; [done|]. by apply grid_dims_put. }
      subst p1. split.
      * apply bf_outcome; simpl; try done; lia.
      * apply IH; simpl; try done; try lia.
        -- rewrite (count_empty_put _ _ _ _ Hc), HL. unfold dot_count. simpl. lia.
        -- intros sq Hb Hlt'. unfold in_bounds in Hb. simpl in Hb, Hlt'.
           destruct (decide (sq = (row', col'))) as [->|Hne].
           ++ exists num. apply cell_at_put_eq. by eexists.
           ++ rewrite cell_at_put_ne by done. apply Hbefore; [done|].
              destruct (decide (sq.1 * width p + sq.2 = row' * width p + col')%nat)
                as [Heq|Hneq]; [|lia].
              exfalso. apply Hne. apply (same_index p); [apply Hb|done|done].
    + apply IH; try done; try lia.
      intros sq Hb Hlt'.
      destruct (decide (sq.1 * width p + sq.2 = row' * width p + col')%nat)
        as [Heq|Hneq]; [|apply Hbefore; [done|lia]].
      rewrite (same_index p sq row' col'); [by eexists|apply Hb|done|done].
Qed.

(** A value placed at [(row, col)] cannot appear, in a grid where that
    square is valid, at another square the value reaches. *)
Lemma narrow_keeps p (s : list (list cell)) row col rg num sq' :
  valid_at p s (row, col) → region_map p !! (row, col) = Some rg →
  (row, col) ∈ rg →
  cell_at s (row, col) = Some (Num num) → cell_at s sq' = Some (Num num) →
  sq' ≠ (row, col) → ¬ touches row col num rg sq'.
Proof.
  intros (Hrow & Hcol & rg' & Hrg' & Hreg) Hrg Hin Hs Hs' Hne Htouch.
  simpl in Hrow, Hcol. assert (rg' = rg) as -> by congruence.
  destruct sq' as [r c]. unfold touches in Htouch. simpl in Htouch.
  destruct Htouch as [[-> Hd]|[[-> Hd]|Hin']].
  - assert (c ≠ col) as Hc by (intros ->; done).
    destruct (decide (c < col)%nat) as [Hlt|Hge].
    + pose proof (Hrow c col num Hs' Hs Hlt). lia.
    + assert (col < c)%nat as Hlt by lia.
      pose proof (Hrow col c num Hs Hs' Hlt). lia.
  - assert (r ≠ row) as Hr by (intros ->; done).
    destruct (decide (r < row)%nat) as [Hlt|Hge].
    + pose proof (Hcol r row num Hs' Hs Hlt). lia.
    + assert (row < r)%nat as Hlt by lia.
      pose proof (Hcol row r num Hs Hs' Hlt). lia.
  - by eapply (region_values_same_value s rg (row, col) (r, c) num).
Qed.

Lemma elem_of_narrowed row col value rg (l : list ((nat * nat) * gset Z)) sq C' :
  (sq, C') ∈ sorted (narrow row col value (list_to_set rg) <$> l) →
  ∃ C, (sq, C) ∈ l
       ∧ ∀ x, x ∈ C' ↔ x ∈ C ∧ ¬ (x = value ∧ touches row col value rg sq).
Proof.
  rewrite sorted_perm, list_elem_of_fmap. intros ([sq0 C] & Heq & Hin).
  exists C. assert (sq = sq0) as -> by (by injection Heq). split; [done|].
  intros x.
  assert (C' = (narrow row col value (list_to_set rg) (sq0, C)).2) as ->
    by (by rewrite <- Heq).
  apply narrow_elem.
Qed.

Lemma h_verdict set_order fuel :
  (∀ C, set_order C ≡ₚ elements C) →
  ∀ p (remaining : list ((nat * nat) * gset Z)) calls,
  well_formed p → solved p = false →
  empty_slots_left p = count_empty (puzzle p) →
  NoDup remaining.*1 →
  (∀ sq, sq ∈ remaining.*1 ↔ cell_at (puzzle p) sq = Some Empty) →
  (∀ sq C n, (sq, C) ∈ remaining → n ∈ C → in_range p sq n) →
  (∀ s sq C n, completion p (puzzle p) s → (sq, C) ∈ remaining →
     cell_at s sq = Some (Num n) → n ∈ C) →
  (length remaining < fuel)%nat →
  verdict p (solve_rec set_order fuel p remaining calls).
Proof.
  intros Horder. induction fuel as [|fuel IH];
    intros p remaining calls Hwf Hs HL Hnd Hmem Hrange Hcomplete Hfuel; [lia|].
  pose proof (wf_dims p Hwf) as Hdims.
  cbn [solve_rec].
  destruct (is_solved_cases p Hwf Hs) as [[His Hwhy]|(His & _ & Hok)]; rewrite His;
    cbn [res_bind].
  2:{ simpl. by apply completion_full. }
  destruct remaining as [|[[row col] cands] rest].
  - simpl. intros Hlines.
    assert (filled p (puzzle p)) as Hfilled.
    { intros sq Hb. destruct (cell_at_in_bounds p _ sq Hdims Hb) as [[|n] Hc];
        [|by eexists].
      apply Hmem in Hc. by apply elem_of_nil in Hc. }
    destruct Hwhy as [Hpos|Hno]; [|by apply Hno].
    rewrite HL, (filled_no_empty p _ Hdims Hfilled) in Hpos. lia.
  - simpl in Hnd, Hfuel. apply NoDup_cons in Hnd as [Hnotin Hnd].
    assert (cell_at (puzzle p) (row, col) = Some Empty) as He.
    { apply Hmem. by left. }
    assert (∀ sq, sq ∈ rest.*1 ↔
              cell_at (puzzle p) sq = Some Empty ∧ sq ≠ (row, col)) as Hrest.
    { intros sq. split.
      - intros Hin. split; [apply Hmem; by right|]. intros ->. done.
      - intros [Hc Hne]. apply Hmem in Hc.
        apply elem_of_cons in Hc as [->|Hc]; done. }
    simpl. rewrite value_loop_try.
    apply (loop_verdict_all p (row, col) (set_order cands)); [done| |].
    { intros s n Hcomp Hn. rewrite Horder. apply elem_of_elements.
      eapply Hcomplete; [done|by left|done]. }
    pose proof (empty_cell_counted _ _ He) as Hcount.
    apply try_loop_verdict_entry; [done|done|lia|done| |].
    { intros num Hnum. rewrite Horder in Hnum. apply elem_of_elements in Hnum.
      eapply Hrange; [by left|done]. }
    intros num calls' Hnum Hvalid p1.
    rewrite Horder in Hnum. apply elem_of_elements in Hnum.
    assert (in_range p (row, col) num) as Hnumrange.
    { eapply Hrange; [by left|done]. }
    assert (well_formed p1) as Hwf1.
    { apply wf_with_grid; [done|]. by apply grid_dims_put. }
    subst p1.
    destruct (wf_cover p (row, col) Hwf) as [rg Hrg].
    { eapply cell_at_bounds; [done|]. by eexists. }
    unfold update_remaining, get_region. simpl. rewrite Hrg. cbn [res_bind].
    assert (NoDup (sorted (narrow row col num (list_to_set rg) <$> rest)).*1)
      as Hnd'.
    { by rewrite narrowed_squares. }
    assert (∀ sq, sq ∈ (sorted (narrow row col num (list_to_set rg) <$> rest)).*1
              ↔ cell_at (put (puzzle p) (row, col) (Num num)) sq = Some Empty)
      as Hmem'.
    { intros sq. rewrite narrowed_squares, Hrest.
      destruct (decide (sq = (row, col))) as [->|Hne].
      - rewrite cell_at_put_eq by (by eexists). split; [by intros [_ ?]|done].
      - rewrite cell_at_put_ne by done. split; [by intros [? _]|done]. }
    assert (length (sorted (narrow row col num (list_to_set rg) <$> rest))
            < fuel)%nat as Hlen.
    { rewrite (Permutation_length (sorted_perm _)), length_fmap. lia. }
    split.
    + apply h_outcome; try done.
      apply Forall_forall. intros sq Hsq. by apply Hmem'.
    + apply IH; try done.
      * simpl. rewrite (count_empty_put _ _ _ _ He), HL. unfold dot_count. simpl.
        lia.
      * intros sq C' n Hin Hn.
        apply elem_of_narrowed in Hin as (C & Hin & HC).
        apply HC in Hn as [Hn _]. eapply (Hrange sq C n); [by right|done].
      * intros s sq C' n Hcomp Hin Hn. simpl in Hcomp.
        apply elem_of_narrowed in Hin as (C & Hin & HC). apply HC.
        assert (completion p (puzzle p) s) as Hcomp0.
        { by eapply completion_step. }
        split; [eapply Hcomplete; [done|by right|done]|].
        intros [-> Htouch]. revert Htouch.
        assert (sq ≠ (row, col)) as Hne.
        { intros ->. apply Hnotin. apply list_elem_of_fmap.
          by exists (row, col, C). }
        destruct Hcomp0 as (_ & _ & _ & Hem).
        destruct (Hem _ He) as (n' & Hn' & _ & Hv).
        destruct Hcomp as (_ & Hex & _).
        assert (cell_at s (row, col) = Some (Num num)) as Hsq.
        { apply Hex. apply cell_at_put_eq. by eexists. }
        eapply narrow_keeps; try done. by eapply wf_map.
Qed.

(** ** The two solvers decide the same question *)

Lemma squares_bound p (l : list (nat * nat)) :
  NoDup l → Forall (in_bounds p) l → (length l ≤ height p * width p)%nat.
Proof.
  intros Hnd Hb. rewrite Forall_forall in Hb.
  assert (length ((λ sq : nat * nat, (sq.1 * width p + sq.2)%nat) <$> l)
          ≤ length (seq 0 (height p * width p)))%nat as Hle.
  { apply submseteq_length, NoDup_submseteq.
    - apply NoDup_fmap_2_strong; [|done].
      intros sq sq' Hsq Hsq' Heq. destruct sq' as [r c].
      apply (same_index p); [apply Hb, Hsq|apply (Hb _ Hsq')|done].
    - intros i Hi. apply list_elem_of_fmap in Hi as (sq & -> & Hsq).
      destruct (Hb sq Hsq) as [H1 H2]. apply elem_of_seq. nia. }
  by rewrite length_fmap, length_seq in Hle.
Qed.

Lemma found_finish p' calls count_calls :
  found (Ret (finish p' calls count_calls))
  = if solved p' then Some (puzzle p') else None.
Proof. unfold finish. simpl. by destruct count_calls. Qed.

Lemma fresh_positions p :
  filled_before p (puzzle p) 0 0.
Proof. intros sq _ Hlt. lia. Qed.

(** What the brute-force search establishes, in one statement. *)
Lemma bf_solve_rec_result fuel p calls :
  well_formed p → fresh p → (height p * width p < fuel)%nat →
  outcome p (BruteForce.solve_rec fuel p 0 0 calls)
  ∧ verdict p (BruteForce.solve_rec fuel p 0 0 calls).
Proof.
  intros Hwf [Hs HL] Hfuel. split.
  - apply bf_outcome; try done; lia.
  - apply bf_verdict; try done; try lia. apply fresh_positions.
Qed.

(** The same for the heuristic search on its first work list. *)
Lemma h_solve_rec_result set_order fuel p calls :
  (∀ C, set_order C ≡ₚ elements C) →
  well_formed p → clues_in_range p → fresh p →
  (height p * width p < fuel)%nat →
  ∃ l, initial_remaining p = Ret l
       ∧ outcome p (solve_rec set_order fuel p l calls)
       ∧ verdict p (solve_rec set_order fuel p l calls).
Proof.
  intros Horder Hwf Hclues [Hs HL] Hfuel.
  pose proof (wf_dims p Hwf) as Hdims.
  unfold initial_remaining.
  destruct (preprocess_result p Hwf Hclues) as (d & -> & Hnd & Hkeys & Hvals).
  simpl. eexists. split; [done|].
  assert (∀ sq s, (sq, s) ∈ sorted (to_solve d) ↔ dict_get d sq = Some (RSet s))
    as Hin.
  { intros sq s. rewrite sorted_perm, elem_of_to_solve. split.
    - by apply dict_elem_get.
    - apply dict_get_Some_elem. }
  assert (∀ sq s, (sq, s) ∈ sorted (to_solve d) →
            cell_at (puzzle p) sq = Some Empty ∧ ∀ x, x ∈ s ↔ candidate p sq x)
    as Hentry.
  { intros sq s Hsq. apply Hin in Hsq.
    assert (in_bounds p sq) as Hb.
    { apply Hkeys, dict_get_is_Some. by eexists. }
    specialize (Hvals sq Hb).
    destruct (cell_at_in_bounds p (puzzle p) sq Hdims Hb) as [c Hc].
    rewrite Hc in Hvals |- *. destruct c as [|n]; [|congruence].
    destruct Hvals as (s' & Hs' & Hx). by simplify_eq. }
  assert (NoDup (sorted (to_solve d)).*1) as Hnd'.
  { rewrite sorted_perm. by apply to_solve_NoDup. }
  assert (∀ sq, sq ∈ (sorted (to_solve d)).*1
                ↔ cell_at (puzzle p) sq = Some Empty) as Hmem.
  { intros sq. split.
    - intros Hsq. apply list_elem_of_fmap in Hsq as ([sq' s] & -> & Hsq).
      by apply Hentry in Hsq as [? _].
    - intros Hc.
      assert (in_bounds p sq) as Hb.
      { eapply cell_at_bounds; [done|by eexists]. }
      specialize (Hvals sq Hb). rewrite Hc in Hvals.
      destruct Hvals as (s & Hs' & _). apply list_elem_of_fmap.
      exists (sq, s). split; [done|]. by apply Hin. }
  assert (length (sorted (to_solve d)) < fuel)%nat as Hlen.
  { rewrite <- (length_fmap fst).
    eapply Nat.le_lt_trans; [|exact Hfuel]. apply squares_bound; [done|].
    apply Forall_forall. intros sq Hsq. apply Hmem in Hsq.
    eapply cell_at_bounds; [done|by eexists]. }
  split.
  - apply h_outcome; try done. apply Forall_forall. intros sq Hsq.
    by apply Hmem.
  - apply h_verdict; try done.
    + intros sq C n Hsq Hn. apply Hentry in Hsq as [_ HC].
      apply HC in Hn as (rg & Hrg & Hr & _). by exists rg.
    + intros s sq C n Hcomp Hsq Hn. apply Hentry in Hsq as [He HC].
      apply HC. destruct Hcomp as (Hd & Hex & _ & Hem).
      destruct (Hem _ He) as (n' & Hn' & (rg & Hrg & Hr) & Hv).
      assert (n' = n) as -> by congruence.
      exists rg. split; [done|]. split; [done|].
      destruct Hv as (Hrow & Hcol & rg' & Hrg' & Hreg).
      assert (rg' = rg) as -> by congruence.
      destruct (wf_map p sq rg Hwf Hrg) as [_ Hsqrg].
      split; [|split].
      * intros Hval. apply elem_of_region_values in Hval as (sq' & Hsq' & Hc').
        assert (sq' ≠ sq) as Hne by (intros ->; congruence).
        eapply (region_values_same_value s rg sq' sq n); try done.
        by apply Hex.
      * intros c Hcg. pose proof (Hex _ _ Hcg) as Hc.
        destruct sq as [r0 c0]. simpl in *.
        assert (c ≠ c0) as Hne by (intros ->; congruence).
        destruct (decide (c < c0)%nat) as [Hlt|Hge].
        -- pose proof (Hrow c c0 n Hc Hn Hlt). lia.
        -- assert (c0 < c)%nat as Hlt by lia.
           pose proof (Hrow c0 c n Hn Hc Hlt). lia.
      * intros r Hrg0. pose proof (Hex _ _ Hrg0) as Hr'.
        destruct sq as [r0 c0]. simpl in *.
        assert (r ≠ r0) as Hne by (intros ->; congruence).
        destruct (decide (r < r0)%nat) as [Hlt|Hge].
        -- pose proof (Hcol r r0 n Hr' Hn Hlt). lia.
        -- assert (r0 < r)%nat as Hlt by lia.
           pose proof (Hcol r0 r n Hn Hr' Hlt). lia.
Qed.

Lemma completion_lines_ok p (g s : list (list cell)) :
  completion p g s → lines_ok p g.
Proof.
  intros (_ & Hex & [_ Hl] & _). by eapply lines_ok_extends.
Qed.

(** From the answer of the search step to the answer of [solve]. *)
Lemma solve_found p (r : res (Puzzle * nat)) count_calls :
  outcome p r → verdict p r →
  let answer := '(result, calls) ←! r; Ret (finish result calls count_calls) in
  answer ≠ OutOfFuel
  ∧ (∀ s, found answer = Some s → completion p (puzzle p) s)
  ∧ ((∃ s, completion p (puzzle p) s) → is_Some (found answer)).
Proof.
  intros Hout Hver. destruct r as [[p' c']| |]; simpl in *; [| |done].
  - split; [done|].
    change (match result_of (finish p' c' count_calls) with
            | Some p'0 => if solved p'0 then Some (puzzle p'0) else None
            | None => None
            end) with (found (Ret (finish p' c' count_calls))).
    rewrite (found_finish p' c' count_calls).
    destruct (solved p'); simpl.
    + split; [by intros s [= <-]|]. intros _. by eexists.
    + split; [done|]. intros Hex. by apply Hver in Hex.
  - split; [done|]. split; [done|]. intros [s Hs]. exfalso. apply Hver.
    by eapply completion_lines_ok.
Qed.

Lemma bf_solve_found fuel p count_calls :
  well_formed p → fresh p → (height p * width p < fuel)%nat →
  BruteForce.solve fuel p count_calls ≠ OutOfFuel
  ∧ (∀ s, found (BruteForce.solve fuel p count_calls) = Some s →
          completion p (puzzle p) s)
  ∧ ((∃ s, completion p (puzzle p) s) →
     is_Some (found (BruteForce.solve fuel p count_calls))).
Proof.
  intros Hwf Hfresh Hfuel.
  destruct (bf_solve_rec_result fuel p 0 Hwf Hfresh Hfuel) as [Hout Hver].
  apply (solve_found p _ count_calls Hout Hver).
Qed.

Lemma h_solve_found set_order fuel p count_calls :
  (∀ C, set_order C ≡ₚ elements C) →
  well_formed p → clues_in_range p → fresh p →
  (height p * width p < fuel)%nat →
  Heuristic.solve set_order fuel p count_calls ≠ OutOfFuel
  ∧ (∀ s, found (Heuristic.solve set_order fuel p count_calls) = Some s →
          completion p (puzzle p) s)
  ∧ ((∃ s, completion p (puzzle p) s) →
     is_Some (found (Heuristic.solve set_order fuel p count_calls))).
Proof.
  intros Horder Hwf Hclues Hfresh Hfuel.
  destruct (h_solve_rec_result set_order fuel p 0 Horder Hwf Hclues Hfresh Hfuel)
    as (l & Hl & Hout & Hver).
  unfold Heuristic.solve. rewrite Hl. cbn [res_bind].
  apply (solve_found p _ count_calls Hout Hver).
Qed.

(** X15: on a freshly constructed, well-formed board, brute-force [solve]
    with enough fuel returns or raises; the grid of a puzzle it returns
    as solved is a completion of the given grid (dimensions and clues
    kept, solved check passed, every filled-in value in range and valid
    in its row, column and region); and whenever the given grid has a
    completion, it returns a solved puzzle. *)
Theorem bf_solve_decides fuel p count_calls :
  well_formed p → fresh p → (height p * width p < fuel)%nat →
  BruteForce.solve fuel p count_calls ≠ OutOfFuel
  ∧ (∀ s, found (BruteForce.solve fuel p count_calls) = Some s →
          completion p (puzzle p) s)
  ∧ ((∃ s, completion p (puzzle p) s) →
     is_Some (found (BruteForce.solve fuel p count_calls))).
Proof. apply bf_solve_found. Qed.

Lemma bf_solve_decides_witness :
  BruteForce.solve 5 puzzle_2x2 true ≠ OutOfFuel
  ∧ (∀ s, found (BruteForce.solve 5 puzzle_2x2 true) = Some s →
          completion puzzle_2x2 (puzzle puzzle_2x2) s)
  ∧ ((∃ s, completion puzzle_2x2 (puzzle puzzle_2x2) s) →
     is_Some (found (BruteForce.solve 5 puzzle_2x2 true))).
Proof.
  apply (bf_solve_decides 5 puzzle_2x2 true).
  - apply (bool_decide_unpack _). vm_compute. exact I.
  - split; reflexivity.
  - simpl. lia.
Defined.

(** X16: on a freshly constructed, well-formed board with every clue in
    range, heuristic [solve] with enough fuel returns or raises, whatever
    the order in which candidate sets are visited; the grid of a puzzle it
    returns as solved is a completion of the given grid; and whenever the
    given grid has a completion, it returns a solved puzzle. *)
Theorem h_solve_decides set_order fuel p count_calls :
  (∀ C, set_order C ≡ₚ elements C) →
  well_formed p → clues_in_range p → fresh p →
  (height p * width p < fuel)%nat →
  Heuristic.solve set_order fuel p count_calls ≠ OutOfFuel
  ∧ (∀ s, found (Heuristic.solve set_order fuel p count_calls) = Some s →
          completion p (puzzle p) s)
  ∧ ((∃ s, completion p (puzzle p) s) →
     is_Some (found (Heuristic.solve set_order fuel p count_calls))).
Proof. apply h_solve_found. Qed.

Lemma h_solve_decides_witness :
  Heuristic.solve elements 5 puzzle_2x2 true ≠ OutOfFuel
  ∧ (∀ s, found (Heuristic.solve elements 5 puzzle_2x2 true) = Some s →
          completion puzzle_2x2 (puzzle puzzle_2x2) s)
  ∧ ((∃ s, completion puzzle_2x2 (puzzle puzzle_2x2) s) →
     is_Some (found (Heuristic.solve elements 5 puzzle_2x2 true))).
Proof.
  apply (h_solve_decides elements 5 puzzle_2x2 true).
  - done.
  - apply (bool_decide_unpack _). vm_compute. exact I.
  - apply (bool_decide_unpack _). vm_compute. exact I.
  - split; reflexivity.
  - simpl. lia.
Defined.

(** X17: on a freshly constructed, well-formed board with every clue in
    range, the brute-force [solve] returns a solved puzzle exactly when
    the heuristic [solve] does. *)
Theorem solvers_agree set_order fuel fuel' p count_calls count_calls' :
  (∀ C, set_order C ≡ₚ elements C) →
  well_formed p → clues_in_range p → fresh p →
  (height p * width p < fuel)%nat → (height p * width p < fuel')%nat →
  is_Some (found (BruteForce.solve fuel p count_calls))
  ↔ is_Some (found (Heuristic.solve set_order fuel' p count_calls')).
Proof.
  intros Horder Hwf Hclues Hfresh Hfuel Hfuel'.
  destruct (bf_solve_found fuel p count_calls Hwf Hfresh Hfuel)
    as (_ & Hbs & Hbc).
  destruct (h_solve_found set_order fuel' p count_calls' Horder Hwf Hclues
              Hfresh Hfuel') as (_ & Hhs & Hhc).
  split; intros [s Hs].
  - apply Hhc. exists s. by apply Hbs.
  - apply Hbc. exists s. by apply Hhs.
Qed.

Lemma solvers_agree_witness :
  is_Some (found (BruteForce.solve 5 puzzle_2x2 false))
  ↔ is_Some (found (Heuristic.solve elements 5 puzzle_2x2 false)).
Proof.
  apply (solvers_agree elements 5 5 puzzle_2x2 false false).
  - done.
  - apply (bool_decide_unpack _). vm_compute. exact I.
  - apply (bool_decide_unpack _). vm_compute. exact I.
  - split; reflexivity.
  - simpl. lia.
  - simpl. lia.
Defined.

(** ** Solutions by the rules *)

Lemma solution_completion p (s : list (list cell)) :
  well_formed p → solution p s → completion p (puzzle p) s.
Proof.
  intros Hwf (Hdims & Hext & (Hf & Hrows & Hcols & Hregs) & Hrange).
  pose proof (wf_width p Hwf) as Hw.
  split; [done|]. split; [done|]. split.
  - split; [done|]. split; [|done]. intros row Hrow. split; [by apply Hrows|].
    apply Hcols. by apply Nat.mod_upper_bound, Nat.neq_0_lt_0.
  - intros sq Hsq.
    assert (in_bounds p sq) as Hb.
    { eapply cell_at_bounds; [by apply wf_dims|]. by eexists. }
    destruct (Hf sq Hb) as [n Hn]. exists n. split; [done|].
    split; [by eapply Hrange|]. destruct Hb as [Hb1 Hb2].
    split; [by apply Hrows|]. split; [by apply Hcols|].
    destruct (wf_cover p sq Hwf) as [rg Hrg]; [done|]. exists rg. split; [done|].
    rewrite Forall_forall in Hregs. apply Hregs. by eapply wf_map.
Qed.

Lemma solution_clues_in_range p (s : list (list cell)) :
  well_formed p → solution p s → clues_in_range p.
Proof.
  intros Hwf (_ & Hext & _ & Hrange). unfold clues_in_range.
  rewrite Forall_forall. intros rg Hrg. rewrite Forall_forall. intros sq Hsq.
  destruct (cell_at (puzzle p) sq) as [[|n]|] eqn:Hc; [done| |done].
  destruct (Hrange sq n (Hext sq n Hc)) as (rg' & Hrg' & Hn).
  destruct (wf_region_sq p rg sq Hwf Hrg Hsq) as [_ Hmap]. congruence.
Qed.

(** Once the clues admit a solution, every completion of the given grid
    is one: a column the solved check skips either holds a square that was
    empty, whose value was checked when it was placed, or holds clues
    only. *)
Lemma completion_solution p (s s' : list (list cell)) :
  well_formed p → solution p s → completion p (puzzle p) s' →
  solution p s'.
Proof.
  intros Hwf (Hdims & Hext & (Hf & Hrows & Hcols & Hregs) & Hrange)
    (Hdims' & Hext' & (Hf' & Hl' & Hregs') & Hnew).
  pose proof (wf_dims p Hwf) as Hd.
  split; [done|]. split; [done|]. split.
  - split; [done|]. split; [intros row Hrow; by apply Hl'|]. split; [|done].
    intros col Hcol r1 r2 v H1 H2 Hlt.
    assert (in_bounds p (r1, col)) as Hb1.
    { eapply cell_at_bounds; [exact Hdims'|]. by eexists. }
    assert (in_bounds p (r2, col)) as Hb2.
    { eapply cell_at_bounds; [exact Hdims'|]. by eexists. }
    destruct (cell_at_in_bounds p (puzzle p) (r1, col) Hd Hb1) as [c1 Hc1].
    destruct (cell_at_in_bounds p (puzzle p) (r2, col) Hd Hb2) as [c2 Hc2].
    destruct c1 as [|n1].
    { destruct (Hnew _ Hc1) as (n & _ & _ & _ & Hcol' & _).
      by apply (Hcol' r1 r2 v). }
    destruct c2 as [|n2].
    { destruct (Hnew _ Hc2) as (n & _ & _ & _ & Hcol' & _).
      by apply (Hcol' r1 r2 v). }
    pose proof (Hext' _ _ Hc1) as E1. pose proof (Hext' _ _ Hc2) as E2.
    assert (n1 = v) as -> by congruence. assert (n2 = v) as -> by congruence.
    apply (Hcols col Hcol r1 r2 v); [by apply Hext|by apply Hext|done].
  - intros sq n Hn.
    assert (in_bounds p sq) as Hb.
    { eapply cell_at_bounds; [exact Hdims'|]. by eexists. }
    destruct (cell_at_in_bounds p (puzzle p) sq Hd Hb) as [[|m] Hc].
    + destruct (Hnew _ Hc) as (n' & Hn' & Hr & _).
      assert (n' = n) as -> by congruence. done.
    + pose proof (Hext' _ _ Hc) as E. assert (m = n) as -> by congruence.
      apply Hrange. by apply Hext.
Qed.

Lemma solvers_find p (s : list (list cell)) set_order fuel fuel'
    count_calls count_calls' :
  (∀ C, set_order C ≡ₚ elements C) →
  well_formed p → fresh p →
  (height p * width p < fuel)%nat → (height p * width p < fuel')%nat →
  solution p s →
  ∃ s1 s2,
    found (BruteForce.solve fuel p count_calls) = Some s1 ∧ solution p s1
    ∧ found (Heuristic.solve set_order fuel' p count_calls') = Some s2
    ∧ solution p s2.
Proof.
  intros Horder Hwf Hfresh Hfuel Hfuel' Hs.
  pose proof (solution_completion p s Hwf Hs) as Hc.
  pose proof (solution_clues_in_range p s Hwf Hs) as Hclues.
  destruct (bf_solve_found fuel p count_calls Hwf Hfresh Hfuel)
    as (_ & Hbs & Hbc).
  destruct (h_solve_found set_order fuel' p count_calls' Horder Hwf Hclues
              Hfresh Hfuel') as (_ & Hhs & Hhc).
  destruct Hbc as [s1 H1]; [by exists s|].
  destruct Hhc as [s2 H2]; [by exists s|].
  exists s1, s2. split; [done|]. split.
  { eapply completion_solution; [done|exact Hs|by apply Hbs]. }
  split; [done|]. eapply completion_solution; [done|exact Hs|by apply Hhs].
Qed.

(** The only full grid of [puzzle_1x1] within the rules. *)
Lemma solution_1x1 : solution puzzle_1x1 [[Num 1]].
Proof.
  split; [by repeat constructor|]. split.
  { intros [[|r] [|c]] v H; simpl in H; done. }
  split.
  - split.
    { intros [r c] [Hr Hc]. simpl in *. exists 1.
      assert (r = 0%nat) as -> by lia. assert (c = 0%nat) as -> by lia. done. }
    split.
    { intros row _ c1 c2 v H1 H2 Hlt. destruct row as [|?]; [|done].
      destruct c1 as [|?]; [|done]. destruct c2 as [|?]; [lia|done]. }
    split.
    { intros col _ r1 r2 v H1 H2 Hlt.
      destruct r1 as [|?]; [|done]. destruct r2 as [|?]; [lia|].
      destruct r2; done. }
    repeat constructor. set_solver.
  - intros [r c] n H. destruct r as [|?]; [|by destruct r].
    destruct c as [|?]; [|by destruct c]. simpl in H. injection H as <-.
    exists [(0, 0)%nat]. split; [done|]. simpl. lia.
Qed.

Lemma solution_1x1_unique (s : list (list cell)) :
  solution puzzle_1x1 s → s = [[Num 1]].
Proof.
  intros ([Hh Hw] & _ & (Hf & _) & Hrange). simpl in Hh, Hw.
  destruct s as [|r [|? ?]]; [done| |done].
  apply Forall_cons in Hw as [Hr _].
  destruct r as [|c [|? ?]]; [done| |done].
  destruct (Hf (0, 0)%nat) as [n Hn]; [split; simpl; lia|].
  simpl in Hn. injection Hn as ->.
  destruct (Hrange (0, 0)%nat n eq_refl) as (rg & Hrg & Hn).
  vm_compute in Hrg. injection Hrg as <-. simpl in Hn.
  assert (n = 1) as -> by lia. done.
Qed.

(** X18: on a freshly constructed, well-formed board whose clues admit a
    solution by the rules (every row, every column and every region valid,
    every value within its region's size), both [solve] functions, given
    enough fuel, return a puzzle marked solved whose grid is such a
    solution. *)
Theorem solvers_find_solution p (s : list (list cell)) set_order fuel fuel'
    count_calls count_calls' :
  (∀ C, set_order C ≡ₚ elements C) →
  well_formed p → fresh p →
  (height p * width p < fuel)%nat → (height p * width p < fuel')%nat →
  solution p s →
  ∃ s1 s2,
    found (BruteForce.solve fuel p count_calls) = Some s1 ∧ solution p s1
    ∧ found (Heuristic.solve set_order fuel' p count_calls') = Some s2
    ∧ solution p s2.
Proof. apply solvers_find. Qed.

Lemma solvers_find_solution_witness :
  ∃ s1 s2,
    found (BruteForce.solve 2 puzzle_1x1 false) = Some s1
    ∧ solution puzzle_1x1 s1
    ∧ found (Heuristic.solve elements 2 puzzle_1x1 false) = Some s2
    ∧ solution puzzle_1x1 s2.
Proof.
  apply (solvers_find_solution puzzle_1x1 [[Num 1]] elements 2 2 false false).
  - done.
  - apply (bool_decide_unpack _). vm_compute. exact I.
  - split; reflexivity.
  - simpl. lia.
  - simpl. lia.
  - exact solution_1x1.
Defined.

(** X19: when the solution of a freshly constructed, well-formed board is
    unique, both [solve] functions return exactly that grid. *)
Theorem solvers_unique p (s : list (list cell)) set_order fuel fuel'
    count_calls count_calls' :
  (∀ C, set_order C ≡ₚ elements C) →
  well_formed p → fresh p →
  (height p * width p < fuel)%nat → (height p * width p < fuel')%nat →
  solution p s → (∀ s', solution p s' → s' = s) →
  found (BruteForce.solve fuel p count_calls) = Some s
  ∧ found (Heuristic.solve set_order fuel' p count_calls') = Some s.
Proof.
  intros Horder Hwf Hfresh Hfuel Hfuel' Hs Huniq.
  destruct (solvers_find p s set_order fuel fuel' count_calls count_calls'
              Horder Hwf Hfresh Hfuel Hfuel' Hs)
    as (s1 & s2 & H1 & Hs1 & H2 & Hs2).
  pose proof (Huniq s1 Hs1) as E1. pose proof (Huniq s2 Hs2) as E2.
  subst s1 s2. done.
Qed.

Lemma solvers_unique_witness :
  found (BruteForce.solve 2 puzzle_1x1 true) = Some [[Num 1]]
  ∧ found (Heuristic.solve elements 2 puzzle_1x1 true) = Some [[Num 1]].
Proof.
  apply (solvers_unique puzzle_1x1 [[Num 1]] elements 2 2 true true).
  - done.
  - apply (bool_decide_unpack _). vm_compute. exact I.
  - split; reflexivity.
  - simpl. lia.
  - simpl. lia.
  - exact solution_1x1.
  - exact solution_1x1_unique.
Defined.

(** ** A clue out of range *)

Lemma for_each_raise {A S} (I : S → Prop) (l : list A)
    (body : A → S → res S) s e x :
  (∀ y s, y ∈ l → I s → (∃ s', body y s = Ret s' ∧ I s') ∨ body y s = Raise e) →
  x ∈ l → (∀ s, I s → body x s = Raise e) → I s →
  for_each l body s = Raise e.
Proof.
  intros Hstep Hx Hbad. revert s Hstep Hx.
  induction l as [|y l IH]; intros s Hstep Hx Hs.
  - by apply elem_of_nil in Hx.
  - simpl. destruct (Hstep y s) as [(s' & Hs' & HI)|Hr]; [by left|done| |].
    + rewrite Hs'. cbn [res_bind].
      apply elem_of_cons in Hx as [->|Hx].
      * rewrite (Hbad s Hs) in Hs'. discriminate.
      * apply IH; [|done|done]. intros z t Hz. apply Hstep. by right.
    + by rewrite Hr.
Qed.

Lemma remove_used_raise (possible used : gset Z) x :
  x ∈ used → x ∉ possible → remove_used possible used = Raise KeyError.
Proof.
  intros Hx Hnot. unfold remove_used.
  apply (for_each_raise (λ poss : gset Z, poss ⊆ possible) _ _ _ _ x).
  - intros y poss _ Hsub. destruct (decide (y ∈ poss)); [left|by right].
    eexists. split; [done|]. intros z Hz.
    apply elem_of_difference in Hz as [Hz _]. by apply Hsub.
  - by apply elem_of_elements.
  - intros poss Hsub. rewrite decide_False; [done|].
    intros Hin. apply Hnot. by apply Hsub.
  - done.
Qed.

Lemma remove_used_cases (possible used : gset Z) :
  (∃ s, remove_used possible used = Ret s)
  ∨ remove_used possible used = Raise KeyError.
Proof.
  unfold remove_used. generalize (elements used). intros l. revert possible.
  induction l as [|y l IH]; intros poss; simpl.
  - left. by eexists.
  - destruct (decide (y ∈ poss)); [|by right]. cbn [res_bind]. apply IH.
Qed.

Lemma seed_region_cases p rg used (d : list ((nat * nat) * rem_val)) :
  well_formed p → rg ∈ regions p →
  (∃ d', seed_region p rg used d = Ret d')
  ∨ seed_region p rg used d = Raise KeyError.
Proof.
  intros Hwf Hrg. unfold seed_region.
  destruct (remove_used_cases (range_set (length rg)) used) as [[poss ->]| ->];
    [|by right].
  cbn [res_bind]. left.
  loop_inv (λ _ : list ((nat * nat) * rem_val), True).
  destruct Hloop as (d' & Hd' & _); [| |by exists d'].
  - intros sq d0 Hsq _.
    destruct (wf_region_sq p rg sq Hwf Hrg Hsq) as [Hb _].
    destruct (cell_at_in_bounds p (puzzle p) sq (wf_dims p Hwf) Hb) as [c Hc].
    rewrite (get_cell_at _ _ _ Hc). cbn [res_bind].
    destruct c; by eexists.
  - done.
Qed.

Lemma seed_raise p (rd : list (list (nat * nat) * gset Z)) rg used x :
  well_formed p → (∀ rg, rg ∈ rd.*1 → rg ∈ regions p) →
  (rg, used) ∈ rd → x ∈ used → x ∉ range_set (length rg) →
  seed p rd = Raise KeyError.
Proof.
  intros Hwf Hrd Hin Hx Hnot. unfold seed.
  apply (for_each_raise (λ _, True) _ _ _ _ (rg, used)); [|done| |done].
  - intros [rg' used'] d Hin' _.
    destruct (seed_region_cases p rg' used' d Hwf) as [[d' Hd']|Hr].
    + apply Hrd. apply list_elem_of_fmap. by exists (rg', used').
    + left. by exists d'.
    + by right.
  - intros d _. unfold seed_region.
    by rewrite (remove_used_raise _ _ x Hx Hnot).
Qed.

Lemma initial_remaining_raise p :
  well_formed p → ¬ clues_in_range p →
  initial_remaining p = Raise KeyError.
Proof.
  intros Hwf Hbad. unfold initial_remaining, preprocess.
  destruct (fill_rows_cols_ok p Hwf) as [x ->]. cbn [res_bind].
  destruct (regions_dict_spec p Hwf) as (rd & -> & _ & Hkeys & Hused).
  cbn [res_bind].
  assert (∀ (rg : list (nat * nat)) sq,
            Decision (match cell_at (puzzle p) sq with
                      | Some (Num n) => 1 ≤ n ≤ Z.of_nat (length rg)
                      | _ => True
                      end)) as Hdec.
  { intros rg sq. destruct (cell_at (puzzle p) sq) as [[|n]|]; apply _. }
  apply not_Forall_Exists in Hbad; [|intros rg; apply Forall_dec, Hdec].
  apply Exists_exists in Hbad as (rg & Hrg & Hbad). simpl in Hbad.
  apply not_Forall_Exists in Hbad; [|apply Hdec].
  apply Exists_exists in Hbad as (sq & Hsq & Hbad). simpl in Hbad.
  destruct (cell_at (puzzle p) sq) as [[|n]|] eqn:Hc; [done| |done].
  assert (∃ used, (rg, used) ∈ rd) as [used Hin].
  { apply Hkeys in Hrg. apply list_elem_of_fmap in Hrg as ([rg' used] & -> & Hin).
    by exists used. }
  rewrite (seed_raise p rd rg used n Hwf); [done| | | |].
  - intros rg' Hrg'. by apply Hkeys.
  - done.
  - apply (Hused rg used Hin). apply elem_of_region_values. by exists sq.
  - by rewrite elem_of_range_set.
Qed.

(** X20: on a well-formed board on which some clue does not lie in
    [1 .. size of its region], the heuristic [solve] raises [KeyError]
    in its preprocessing ([possible.remove(num)]), before any search. *)
Theorem h_solve_clue_out_of_range set_order fuel p count_calls :
  well_formed p → ¬ clues_in_range p →
  Heuristic.solve set_order fuel p count_calls = Raise KeyError.
Proof.
  intros Hwf Hbad. unfold Heuristic.solve.
  by rewrite (initial_remaining_raise p Hwf Hbad).
Qed.

Lemma h_solve_clue_out_of_range_witness :
  Heuristic.solve elements 3 puzzle_1x2_clue3 false = Raise KeyError.
Proof.
  apply (h_solve_clue_out_of_range elements 3 puzzle_1x2_clue3 false).
  - apply (bool_decide_unpack _). vm_compute. exact I.
  - apply (bool_decide_unpack _). vm_compute. exact I.
Defined.

(** ** Reading the regions of a puzzle file *)

Lemma is_space_at (t : list (list Ascii.ascii)) r c ch :
  text_at t r c = Some ch → is_space t r c = Ret (Ascii.eqb ch Ascii.Space).
Proof.
  unfold text_at, is_space, index. intros H.
  destruct (t !! r) as [line|]; [|done]. simpl. by rewrite H.
Qed.

Lemma covers_at (t : list (list Ascii.ascii)) w h r c :
  covers t w h → (r < 2 * h)%nat → (c < 2 * w)%nat → is_Some (text_at t r c).
Proof.
  unfold covers. rewrite Forall_forall. intros Hc Hr Hcol.
  specialize (Hc r). rewrite elem_of_seq in Hc. specialize (Hc ltac:(lia)).
  rewrite Forall_forall in Hc. apply Hc. apply elem_of_seq. lia.
Qed.

(** One wall check of [solve_region]. *)
Lemma wall_check (t : list (list Ascii.ascii)) (cond : Prop) `{!Decision cond}
    r c (sq : nat * nat) :
  (cond → is_Some (text_at t r c)) →
  ∃ l, (if decide cond
        then b ←! is_space t r c; Ret (if b then [sq] else [])
        else Ret []) = Ret l
       ∧ ∀ x, x ∈ l ↔ x = sq ∧ cond ∧ space_at t r c.
Proof.
  intros Hat. destruct (decide cond) as [Hc|Hc].
  - destruct (Hat Hc) as [ch Hch]. rewrite (is_space_at _ _ _ _ Hch).
    cbn [res_bind]. unfold space_at. rewrite Hch.
    destruct (Ascii.eqb ch Ascii.Space) eqn:E.
    + apply Ascii.eqb_eq in E as ->. eexists. split; [done|].
      intros x. rewrite list_elem_of_singleton. naive_solver.
    + eexists. split; [done|]. intros x. split; [by intros ?%elem_of_nil|].
      intros (_ & _ & [= ->]). by rewrite Ascii.eqb_refl in E.
  - eexists. split; [done|]. intros x. split; [by intros ?%elem_of_nil|].
    naive_solver.
Qed.

Lemma space_at_eq (t : list (list Ascii.ascii)) r c r' c' :
  space_at t r c → r = r' → c = c' → space_at t r' c'.
Proof. by intros H -> ->. Qed.

Lemma linked_sym (t : list (list Ascii.ascii)) a b : linked t a b → linked t b a.
Proof.
  unfold linked. intros [(H1 & H2 & H3)|[(H1 & H2 & H3)|[(H1 & H2 & H3)|(H1 & H2 & H3)]]].
  - right. left. split; [done|]. split; [done|].
    eapply space_at_eq; [exact H3|lia|lia].
  - left. split; [done|]. split; [done|].
    eapply space_at_eq; [exact H3|lia|lia].
  - right. right. right. split; [done|]. split; [done|].
    eapply space_at_eq; [exact H3|lia|lia].
  - right. right. left. split; [done|]. split; [done|].
    eapply space_at_eq; [exact H3|lia|lia].
Qed.

Lemma passage_sym (t : list (list Ascii.ascii)) w h a b :
  passage t w h a b → passage t w h b a.
Proof. intros (Ha & Hb & Hl). split; [done|]. split; [done|]. by apply linked_sym. Qed.

Lemma connected_sym (t : list (list Ascii.ascii)) w h a b :
  connected t w h a b → connected t w h b a.
Proof.
  unfold connected. induction 1 as [|a b c Hab _ IH]; [done|].
  eapply rtc_r; [exact IH|]. by apply passage_sym.
Qed.

(** The wall checks return exactly the neighbours not walled off. *)
Lemma new_squares_spec (t : list (list Ascii.ascii)) w h row col :
  covers t w h → inside w h (row, col) →
  ∃ l, new_squares row col w h t = Ret l
       ∧ ∀ b, b ∈ l ↔ passage t w h (row, col) b.
Proof.
  intros Hcov [Hr Hc]. simpl in Hr, Hc. unfold new_squares.
  destruct (wall_check t (0 < row)%nat (2 * row + 1 - 1) (2 * col + 1)
              ((row - 1)%nat, col)) as (l1 & -> & H1).
  { intros _. eapply covers_at; [done|lia|lia]. }
  cbn [res_bind].
  destruct (wall_check t (row + 1 < h)%nat (2 * row + 1 + 1) (2 * col + 1)
              ((row + 1)%nat, col)) as (l2 & -> & H2).
  { intros ?. eapply covers_at; [done|lia|lia]. }
  cbn [res_bind].
  destruct (wall_check t (0 < col)%nat (2 * row + 1) (2 * col + 1 - 1)
              (row, (col - 1)%nat)) as (l3 & -> & H3).
  { intros _. eapply covers_at; [done|lia|lia]. }
  cbn [res_bind].
  destruct (wall_check t (col + 1 < w)%nat (2 * row + 1) (2 * col + 1 + 1)
              (row, (col + 1)%nat)) as (l4 & -> & H4).
  { intros ?. eapply covers_at; [done|lia|lia]. }
  cbn [res_bind]. eexists. split; [done|]. intros [r' c'].
  rewrite !elem_of_app, H1, H2, H3, H4. unfold passage, inside, linked. simpl.
  split.
  - intros [([= -> ->] & Hp & Hs)|[([= -> ->] & Hp & Hs)|
            [([= -> ->] & Hp & Hs)|([= -> ->] & Hp & Hs)]]];
      (split; [lia|]); (split; [lia|]).
    + right. left. split; [done|]. split; [lia|].
      eapply space_at_eq; [exact Hs|lia|lia].
    + left. split; [done|]. split; [lia|].
      eapply space_at_eq; [exact Hs|lia|lia].
    + right. right. right. split; [done|]. split; [lia|].
      eapply space_at_eq; [exact Hs|lia|lia].
    + right. right. left. split; [done|]. split; [lia|].
      eapply space_at_eq; [exact Hs|lia|lia].
  - intros (_ & [Hr' Hc'] & [(E1 & E2 & Hs)|[(E1 & E2 & Hs)|
                               [(E1 & E2 & Hs)|(E1 & E2 & Hs)]]]); subst.
    + right. left. split; [f_equal; lia|]. split; [lia|].
      eapply space_at_eq; [exact Hs|lia|lia].
    + left. split; [f_equal; lia|]. split; [lia|].
      eapply space_at_eq; [exact Hs|lia|lia].
    + right. right. right. split; [f_equal; lia|]. split; [lia|].
      eapply space_at_eq; [exact Hs|lia|lia].
    + right. right. left. split; [f_equal; lia|]. split; [lia|].
      eapply space_at_eq; [exact Hs|lia|lia].
Qed.

Lemma elem_of_all_squares w h sq : sq ∈ all_squares w h ↔ inside w h sq.
Proof.
  unfold all_squares, inside. rewrite elem_of_concat. split.
  - intros (l & Hl & Hsq). apply list_elem_of_fmap in Hl as (row & -> & Hrow).
    apply list_elem_of_fmap in Hsq as (col & -> & Hcol).
    apply elem_of_seq in Hrow, Hcol. simpl. lia.
  - intros [H1 H2]. exists ((λ col, (sq.1, col)) <$> seq 0 w). split.
    + apply list_elem_of_fmap. exists sq.1. split; [done|]. apply elem_of_seq. lia.
    + apply list_elem_of_fmap. exists sq.2. split; [by destruct sq|].
      apply elem_of_seq. lia.
Qed.

Lemma length_all_squares w h : length (all_squares w h) = (h * w)%nat.
Proof.
  unfold all_squares.
  assert (∀ k, length (concat ((λ row, (λ col, (row, col)) <$> seq 0 w)
                                 <$> seq k h)) = (h * w)%nat) as Hlen; [|apply Hlen].
  induction h as [|h IH]; intros k; [done|].
  simpl. rewrite length_app, length_fmap, length_seq, IH. done.
Qed.

Lemma unvisited_le w h V : (unvisited w h V ≤ h * w)%nat.
Proof.
  unfold unvisited. rewrite <- length_all_squares. apply length_filter.
Qed.

Lemma filter_length_mono {A} (P Q : A → Prop) `{!∀ x, Decision (P x)}
    `{!∀ x, Decision (Q x)} (l : list A) :
  (∀ x, P x → Q x) → (length (filter P l) ≤ length (filter Q l))%nat.
Proof.
  intros HPQ. induction l as [|y l IH]; [done|].
  rewrite !filter_cons. destruct (decide (P y)) as [HP|HP].
  - rewrite decide_True by auto. simpl. lia.
  - destruct (decide (Q y)); simpl; lia.
Qed.

Lemma filter_length_lt {A} (P Q : A → Prop) `{!∀ x, Decision (P x)}
    `{!∀ x, Decision (Q x)} (l : list A) x :
  (∀ x, P x → Q x) → x ∈ l → Q x → ¬ P x →
  (length (filter P l) < length (filter Q l))%nat.
Proof.
  intros HPQ Hx HQ HP. induction l as [|y l IH]; [by apply elem_of_nil in Hx|].
  rewrite !filter_cons. apply elem_of_cons in Hx as [<-|Hx].
  - rewrite decide_False by done. rewrite decide_True by done. simpl.
    pose proof (filter_length_mono P Q l HPQ). lia.
  - specialize (IH Hx). destruct (decide (P y)) as [HPy|HPy].
    + rewrite decide_True by auto. simpl. lia.
    + destruct (decide (Q y)); simpl; lia.
Qed.

(** Taking one more square leaves fewer squares to take. *)
Lemma unvisited_lt (w h : nat) (V V' : gset (nat * nat)) (sq : nat * nat) :
  V ⊆ V' → inside w h sq → (sq ∉ V) → sq ∈ V' →
  (unvisited w h V' < unvisited w h V)%nat.
Proof.
  intros Hsub Hin Hnot Hsq. unfold unvisited.
  apply (filter_length_lt _ _ _ sq).
  - intros x Hx Hx'. apply Hx. by apply Hsub.
  - by apply elem_of_all_squares.
  - done.
  - intros H. by apply H.
Qed.

(** [solve_region] with enough fuel returns the squares it newly takes:
    each once, all reachable from the start, none taken before, and with
    every neighbour behind a missing wall taken by the time it returns. *)
Lemma solve_region_spec (t : list (list Ascii.ascii)) (w h : nat) (fuel : nat) :
  covers t w h →
  ∀ (row col : nat) (V : gset (nat * nat)),
    inside w h (row, col) → (row, col) ∉ V → (unvisited w h V ≤ fuel)%nat →
    ∃ result V', solve_region fuel row col w h t V = Ret (result, V')
                 ∧ region_found t w h (row, col) V result V'.
Proof.
  intros Hcov. induction fuel as [|fuel IH]; intros row col V Hin Hnot Hfuel.
  - exfalso.
    assert (unvisited w h ({[(row, col)]} ∪ V) < unvisited w h V)%nat as Hlt;
      [|lia].
    apply (unvisited_lt w h V _ (row, col)); [|done|done|].
    + apply union_subseteq_r.
    + apply elem_of_union. left. by apply elem_of_singleton.
  - simpl. destruct (new_squares_spec t w h row col Hcov Hin) as (l & -> & Hl).
    cbn [res_bind].
    loop_ind (λ pre (st : list (nat * nat) * gset (nat * nat)),
      NoDup st.1
      ∧ (row, col) ∈ st.1
      ∧ (∀ x, x ∈ st.2 ↔ x ∈ V ∨ x ∈ st.1)
      ∧ (∀ x, x ∈ st.1 →
           (x ∉ V) ∧ inside w h x ∧ connected t w h (row, col) x)
      ∧ (∀ x y, x ∈ st.1 → x ≠ (row, col) → passage t w h x y → y ∈ st.2)
      ∧ (∀ y, y ∈ pre → y ∈ st.2)).
    destruct Hloop as ([result V'] & Hres & Hnd & Hstart & HV & Hnew & Hclosed & Hpre).
    + intros pre sq post [result Vc] Hsplit (Hnd & Hstart & HV & Hnew & Hclosed & Hpre).
      simpl in Hnd, Hstart, HV, Hnew, Hclosed, Hpre.
      assert (passage t w h (row, col) sq) as Hpass.
      { apply Hl. rewrite Hsplit. apply elem_of_app. right. by left. }
      destruct (decide (sq ∈ Vc)) as [Hsq|Hsq].
      * eexists. split; [done|]. simpl. repeat (split; [done|]).
        intros y [Hy|Hy%list_elem_of_singleton]%elem_of_app; [by apply Hpre|].
        by subst.
      * destruct (IH sq.1 sq.2 Vc) as (sub & V2 & Hsub & Hnd2 & Hs2 & HV2 & Hnew2 & Hcl2).
        { destruct sq. apply Hpass. }
        { by destruct sq. }
        { assert (unvisited w h Vc < unvisited w h V)%nat as Hlt; [|lia].
          apply (unvisited_lt w h V Vc (row, col)); [|done|done|].
          - intros x Hx. apply HV. by left.
          - apply HV. by right. }
        rewrite Hsub. cbn [res_bind].
        assert ((sq.1, sq.2) = sq) as Esq by (by destruct sq).
        rewrite Esq in *.
        eexists. split; [done|]. simpl. split.
        { apply NoDup_app. split; [done|]. split; [|done].
          intros x Hx Hx'. apply (Hnew2 x Hx'). apply HV. by right. }
        split; [apply elem_of_app; by left|]. split.
        { intros x. rewrite HV2, HV, elem_of_app. tauto. }
        split.
        { intros x [Hx|Hx]%elem_of_app; [by apply Hnew|].
          destruct (Hnew2 x Hx) as (Hx1 & Hx2 & Hx3).
          split; [intros HxV; apply Hx1, HV; by left|]. split; [done|].
          eapply rtc_l; [exact Hpass|exact Hx3]. }
        split.
        { intros x y [Hx|Hx]%elem_of_app Hne Hxy.
          - apply HV2. left. by eapply Hclosed.
          - by eapply Hcl2. }
        intros y [Hy|Hy%list_elem_of_singleton]%elem_of_app.
        -- apply HV2. left. by apply Hpre.
        -- subst y. apply HV2. by right.
    + simpl. split; [apply NoDup_singleton|].
      split; [by apply list_elem_of_singleton|]. split.
      { intros x. rewrite elem_of_union, elem_of_singleton, list_elem_of_singleton.
        tauto. }
      split.
      { intros x ->%list_elem_of_singleton. split; [done|]. split; [done|].
        apply rtc_refl. }
      split; [by intros x y ->%list_elem_of_singleton|].
      by intros y ?%elem_of_nil.
    + simpl in *. exists result, V'. split; [done|].
      split; [done|]. split; [done|]. split; [done|]. split; [done|].
      intros x y Hx Hxy. destruct (decide (x = (row, col))) as [->|Hne].
      * apply Hpre. by apply Hl.
      * by eapply Hclosed.
Qed.

Lemma NoDup_concat_elem {A} (ls : list (list A)) l :
  NoDup (concat ls) → l ∈ ls → NoDup l.
Proof.
  induction ls as [|l0 ls IH]; simpl; intros Hnd Hl; [by apply elem_of_nil in Hl|].
  apply NoDup_app in Hnd as (H0 & _ & Hrest).
  apply elem_of_cons in Hl as [->|Hl]; [done|by apply IH].
Qed.

(** The two loops of [read_puzzle] over rows and columns visit the
    squares of the board one after the other. *)
Lemma for_each_squares {S} (w h : nat) (body : nat * nat → S → res S) s :
  for_each (seq 0 h) (λ row st,
    for_each (seq 0 w) (λ col st, body (row, col) st) st) s
  = for_each (all_squares w h) body s.
Proof.
  unfold all_squares. rewrite <- for_each_concat.
  apply for_each_ext. intros row st _. by rewrite for_each_fmap.
Qed.

(** The region loop with enough fuel: what it has established at its end. *)
Lemma read_regions_result (t : list (list Ascii.ascii)) (w h fuel : nat) :
  covers t w h → (h * w ≤ fuel)%nat →
  ∃ V rs rm, read_regions fuel w h t = Ret (rs, rm)
             ∧ regions_so_far t w h (V, rs, rm)
             ∧ ∀ sq, sq ∈ concat rs ↔ inside w h sq.
Proof.
  intros Hcov Hfuel. unfold read_regions.
  rewrite (for_each_squares w h
    (λ sq '(has_region, regions, region_map),
       if decide (sq ∈ has_region)
       then Ret (has_region, regions, region_map)
       else
         '(result, has_region') ←!
           solve_region fuel sq.1 sq.2 w h t has_region;
         Ret (has_region', regions ++ [result],
              foldl (λ m sq, <[sq := result]> m) region_map result))).
  loop_ind (λ pre (st : gset (nat * nat) * list (list (nat * nat))
                        * gmap (nat * nat) (list (nat * nat))),
    regions_so_far t w h st ∧ ∀ x, x ∈ pre → x ∈ st.1.1).
  destruct Hloop as ([[V rs] rm] & -> & Hinv & Hall).
  - intros pre sq post [[V rs] rm] Hsplit [Hinv Hpre].
    destruct Hinv as (HV & Hnd & Hin & Hclosed & Hconn & Hmap & Hrm).
    simpl in HV, Hnd, Hin, Hclosed, Hconn, Hmap, Hrm, Hpre.
    assert (inside w h sq) as Hsq.
    { apply elem_of_all_squares. rewrite Hsplit. apply elem_of_app. right. by left. }
    destruct (decide (sq ∈ V)) as [HsqV|HsqV].
    { eexists. split; [done|]. split; [done|]. simpl.
      intros x [Hx|Hx%list_elem_of_singleton]%elem_of_app; [by apply Hpre|].
      by subst. }
    destruct (solve_region_spec t w h fuel Hcov sq.1 sq.2 V)
      as (result & V' & Hres & Hnd' & Hstart & HV' & Hnew & Hcl').
    { by destruct sq. }
    { by destruct sq. }
    { pose proof (unvisited_le w h V). lia. }
    assert ((sq.1, sq.2) = sq) as Esq by (by destruct sq).
    rewrite Esq in *. rewrite Hres. cbn [res_bind].
    eexists. split; [done|]. simpl.
    assert (∀ x, x ∈ concat (rs ++ [result]) ↔ x ∈ concat rs ∨ x ∈ result) as Hcat.
    { intros x. rewrite concat_app, elem_of_app. simpl. by rewrite app_nil_r. }
    split; [|intros x [Hx|Hx%list_elem_of_singleton]%elem_of_app;
             [apply HV'; left; by apply Hpre|subst x; apply HV'; by right]].
    unfold regions_so_far. simpl. split.
    { intros x. rewrite Hcat, HV', HV. done. }
    split.
    { rewrite concat_app. simpl. rewrite app_nil_r. apply NoDup_app.
      split; [done|]. split; [|done].
      intros x Hx Hx'. apply (Hnew x Hx'). by apply HV. }
    split.
    { intros x [Hx|Hx]%HV'; [by apply Hin|by apply Hnew]. }
    split.
    { apply Forall_app. split; [done|]. apply Forall_singleton.
      intros x y Hx Hxy. destruct (proj1 (HV' y) (Hcl' x y Hx Hxy)) as [Hy|Hy];
        [exfalso|done].
      apply HV, elem_of_concat in Hy as (rg & Hrg & Hy).
      rewrite Forall_forall in Hclosed.
      pose proof (Hclosed rg Hrg y x Hy (passage_sym _ _ _ _ _ Hxy)) as Hx'.
      apply (Hnew x Hx). apply HV, elem_of_concat. by exists rg. }
    split.
    { apply Forall_app. split; [done|]. apply Forall_singleton.
      exists sq. split; [done|]. intros x Hx. by apply Hnew. }
    split.
    { intros x rg. rewrite add_region_lookup, elem_of_app, list_elem_of_singleton.
      destruct (decide (x ∈ result)) as [Hx|Hx].
      - split.
        + intros [= <-]. split; [by right|done].
        + intros [[Hrg| ->] Hxrg]; [exfalso|done].
          apply (Hnew x Hx). apply HV, elem_of_concat. by exists rg.
      - rewrite Hmap. split.
        + intros [Hrg Hxrg]. split; [by left|done].
        + intros [[Hrg| ->] Hxrg]; [done|by exfalso]. }
    unfold build_region_map. rewrite foldl_app. simpl.
    unfold build_region_map in Hrm. by rewrite <- Hrm.
  - split; [|by intros x ?%elem_of_nil]. unfold regions_so_far. simpl.
    split; [intros x; split; [by intros ?%elem_of_empty|by intros ?%elem_of_nil]|].
    split; [apply NoDup_nil_2|]. split; [by intros x ?%elem_of_empty|].
    split; [done|]. split; [done|]. split; [|done].
    intros sq rg. rewrite lookup_empty. split; [done|].
    by intros [?%elem_of_nil _].
  - cbn [res_bind]. exists V, rs, rm. split; [done|]. split; [done|].
    destruct Hinv as (HV & _ & Hin & _). simpl in HV, Hin, Hall.
    intros sq. rewrite <- HV. split; [apply Hin|].
    intros Hsq. by apply Hall, elem_of_all_squares.
Qed.

Lemma region_connected (t : list (list Ascii.ascii)) (w h : nat)
    (st : gset (nat * nat) * list (list (nat * nat))
          * gmap (nat * nat) (list (nat * nat))) rg a b :
  regions_so_far t w h st → rg ∈ st.1.2 → a ∈ rg →
  (b ∈ rg ↔ connected t w h a b).
Proof.
  intros (_ & _ & _ & Hclosed & Hconn & _) Hrg Ha.
  rewrite Forall_forall in Hclosed. rewrite Forall_forall in Hconn. split.
  - intros Hb. destruct (Hconn rg Hrg) as (s & _ & Hs).
    unfold connected. etrans; [|apply (Hs b Hb)].
    apply connected_sym. by apply Hs.
  - intros Hab. induction Hab as [|a b c Hab _ IH]; [done|].
    apply IH. by apply (Hclosed rg Hrg a b).
Qed.

Lemma read_regions_parts (t : list (list Ascii.ascii)) (w h fuel : nat) :
  covers t w h → (h * w ≤ fuel)%nat →
  ∃ rs rm, read_regions fuel w h t = Ret (rs, rm)
    ∧ NoDup (concat rs)
    ∧ (∀ sq, sq ∈ concat rs ↔ inside w h sq)
    ∧ (∀ sq rg, rm !! sq = Some rg ↔ rg ∈ rs ∧ sq ∈ rg)
    ∧ rm = build_region_map rs
    ∧ (∀ rg a b, rg ∈ rs → a ∈ rg → (b ∈ rg ↔ connected t w h a b)).
Proof.
  intros Hcov Hfuel.
  destruct (read_regions_result t w h fuel Hcov Hfuel) as (V & rs & rm & Hr & Hinv & Hall).
  exists rs, rm. split; [done|].
  pose proof Hinv as (_ & Hnd & _ & _ & _ & Hmap & Hrm). simpl in *.
  split; [done|]. split; [done|]. split; [done|]. split; [done|].
  intros rg a b Hrg Ha. by apply (region_connected t w h (V, rs, rm)).
Qed.

(** X21: when the text holds the cell and wall characters of a [w] x [h]
    board, the region loop of [read_puzzle] returns (no [IndexError], and
    [solve_region] nests at most [h * w] calls deep); the regions it lists
    partition the board: every square of the board lies in exactly one of
    them, once, and no other square is listed; and [region_map] sends a
    square to a region exactly when that region is listed and contains
    the square. *)
Theorem read_regions_partition (t : list (list Ascii.ascii)) (w h fuel : nat) :
  covers t w h → (h * w ≤ fuel)%nat →
  ∃ rs rm, read_regions fuel w h t = Ret (rs, rm)
    ∧ NoDup (concat rs)
    ∧ (∀ sq, sq ∈ concat rs ↔ inside w h sq)
    ∧ (∀ sq rg, rm !! sq = Some rg ↔ rg ∈ rs ∧ sq ∈ rg).
Proof.
  intros Hcov Hfuel.
  destruct (read_regions_parts t w h fuel Hcov Hfuel)
    as (rs & rm & Hr & Hnd & Hall & Hmap & _).
  by exists rs, rm.
Qed.

Lemma read_regions_partition_witness :
  ∃ rs rm, read_regions 4 2 2 text_2x2 = Ret (rs, rm)
    ∧ NoDup (concat rs)
    ∧ (∀ sq, sq ∈ concat rs ↔ inside 2 2 sq)
    ∧ (∀ sq rg, rm !! sq = Some rg ↔ rg ∈ rs ∧ sq ∈ rg).
Proof.
  apply (read_regions_partition text_2x2 2 2 4).
  - apply (bool_decide_unpack _). vm_compute. exact I.
  - lia.
Defined.

(** X22: the regions [read_puzzle] finds are the areas enclosed by walls:
    two squares of the board lie in the same listed region, and have the
    same entry in [region_map], exactly when one can be reached from the
    other by moving between neighbouring squares whose separating
    character is a space. *)
Theorem read_regions_components (t : list (list Ascii.ascii)) (w h fuel : nat) :
  covers t w h → (h * w ≤ fuel)%nat →
  ∃ rs rm, read_regions fuel w h t = Ret (rs, rm)
    ∧ ∀ a b, inside w h a → inside w h b →
        ((∃ rg, rg ∈ rs ∧ a ∈ rg ∧ b ∈ rg) ↔ connected t w h a b)
        ∧ (rm !! a = rm !! b ↔ connected t w h a b).
Proof.
  intros Hcov Hfuel.
  destruct (read_regions_parts t w h fuel Hcov Hfuel)
    as (rs & rm & Hr & Hnd & Hall & Hmap & _ & Hconn).
  exists rs, rm. split; [done|]. intros a b Ha Hb.
  apply Hall, elem_of_concat in Ha as (rga & Hrga & Ha).
  apply Hall, elem_of_concat in Hb as (rgb & Hrgb & Hb).
  assert (rm !! a = Some rga) as Hma by (by apply Hmap).
  assert (rm !! b = Some rgb) as Hmb by (by apply Hmap).
  split.
  - split.
    + intros (rg & Hrg & Ha' & Hb'). by apply (Hconn rg a b).
    + intros Hab. exists rga. split; [done|]. split; [done|].
      by apply (Hconn rga a b).
  - rewrite Hma, Hmb. split.
    + intros [= ->]. by apply (Hconn rgb a b).
    + intros Hab. f_equal. apply (Hconn rga a b) in Hab; [|done|done].
      assert (rm !! b = Some rga) as Hmb' by (by apply Hmap). congruence.
Qed.

Lemma read_regions_components_witness :
  ∃ rs rm, read_regions 4 2 2 text_2x2 = Ret (rs, rm)
    ∧ ∀ a b, inside 2 2 a → inside 2 2 b →
        ((∃ rg, rg ∈ rs ∧ a ∈ rg ∧ b ∈ rg) ↔ connected text_2x2 2 2 a b)
        ∧ (rm !! a = rm !! b ↔ connected text_2x2 2 2 a b).
Proof.
  apply (read_regions_components text_2x2 2 2 4).
  - apply (bool_decide_unpack _). vm_compute. exact I.
  - lia.
Defined.

(** X23: the regions and the region map [read_puzzle] builds, handed to
    the constructor with any grid of [h] rows of [w] cells ([w] positive),
    make a puzzle that meets the input contract of the solvers
    ([well_formed]) and is in the state [__init__] leaves. *)
Theorem read_regions_well_formed (t : list (list Ascii.ascii)) (w h fuel : nat)
    (g : list (list cell)) :
  covers t w h → (h * w ≤ fuel)%nat → (0 < w)%nat →
  length g = h → Forall (λ r, length r = w) g →
  ∃ rs rm, read_regions fuel w h t = Ret (rs, rm)
    ∧ well_formed (init w h g rs rm) ∧ fresh (init w h g rs rm).
Proof.
  intros Hcov Hfuel Hw Hlen Hrows.
  destruct (read_regions_parts t w h fuel Hcov Hfuel)
    as (rs & rm & Hr & Hnd & Hall & Hmap & _).
  exists rs, rm. split; [done|]. split; [|by split].
  unfold well_formed. simpl. split; [done|]. split; [by split|]. split.
  { apply Forall_forall. intros rg Hrg. split; [by eapply NoDup_concat_elem|].
    apply Forall_forall. intros sq Hsq. split.
    - apply (Hall sq). apply elem_of_concat. by exists rg.
    - by apply Hmap. }
  split.
  { intros sq rg Hsq. by apply Hmap. }
  apply Forall_forall. intros row Hrow. apply Forall_forall. intros col Hcol.
  apply elem_of_seq in Hrow, Hcol.
  assert (inside w h (row, col)) as Hin by (split; simpl; lia).
  apply Hall, elem_of_concat in Hin as (rg & Hrg & Hin).
  exists rg. by apply Hmap.
Qed.

Lemma read_regions_well_formed_witness :
  ∃ rs rm, read_regions 4 2 2 text_2x2 = Ret (rs, rm)
    ∧ well_formed (init 2 2 [[Empty; Empty]; [Empty; Empty]] rs rm)
    ∧ fresh (init 2 2 [[Empty; Empty]; [Empty; Empty]] rs rm).
Proof.
  apply (read_regions_well_formed text_2x2 2 2 4).
  - apply (bool_decide_unpack _). vm_compute. exact I.
  - lia.
  - lia.
  - reflexivity.
  - repeat constructor.
Defined.
